(** * testutils/bench_delivery.go: message fabricator and delivery benchmark driver

    Shallow embedding of [RandomMsg], [multipleErrs.SetStatus] and
    [BenchDelivery], with the library routines they call
    ([strconv.Itoa], [strings.Replace], [strings.Repeat], [bytes.Repeat],
    [crypto/sha1.Sum], [encoding/hex.EncodeToString],
    [textproto.Header.Add], [testing.B.Run]). *)

From Stdlib Require Import ZArith Lia Ascii DecimalString DecimalZ DecimalPos.
From stdpp Require Import gmap strings list fin_maps.

(** ** Go library routines *)

(** [strconv.Itoa]: decimal representation of an [int]. *)
Definition Itoa (i : Z) : string := NilZero.string_of_int (Z.to_int i).

(** [strings.Repeat] and [bytes.Repeat]. *)
Fixpoint strings_Repeat (s : string) (count : nat) : string :=
  match count with
  | O => EmptyString
  | S k => s +:+ strings_Repeat s k
  end.

Definition bytes_Repeat (b : list Z) (count : nat) : list Z :=
  mjoin (replicate count b).

(** [[]byte(s)]: the bytes of a string, each as a number below 256. *)
Definition bytes_of_string (s : string) : list Z :=
  (fun c => Z.of_N (Ascii.N_of_ascii c)) <$> String.list_ascii_of_string s.

(** [strings.Replace(s, old, new, -1)] for a non-empty [old]: scanning from
    the left, every non-overlapping occurrence of [old] is replaced by [new].
    [skip] counts the characters of a matched occurrence still to be dropped. *)
Fixpoint replace_from (old new : string) (skip : nat) (s : string) : string :=
  match s with
  | EmptyString => EmptyString
  | String c s' =>
      match skip with
      | S k => replace_from old new k s'
      | O =>
          if String.prefix old s
          then new +:+ replace_from old new (String.length old - 1) s'
          else String c (replace_from old new 0 s')
      end
  end.

Definition strings_ReplaceAll (s old new : string) : string :=
  replace_from old new 0 s.

(** ** crypto/sha1 *)

Module sha1.

Local Open Scope Z_scope.

Definition chunk : nat := 64.
Definition Size : nat := 20.

Definition init : list Z :=
  [0x67452301; 0xEFCDAB89; 0x98BADCFE; 0x10325476; 0xC3D2E1F0].

Definition K0 : Z := 0x5A827999.
Definition K1 : Z := 0x6ED9EBA1.
Definition K2 : Z := 0x8F1BBCDC.
Definition K3 : Z := 0xCA62C1D6.

(** uint32 arithmetic, wrap-around written out. *)
Definition u32 (x : Z) : Z := x mod 2 ^ 32.
Definition add32 (x y : Z) : Z := u32 (x + y).
Definition not32 (x : Z) : Z := Z.lxor x 0xFFFFFFFF.
Definition RotateLeft32 (x : Z) (k : Z) : Z :=
  u32 (Z.lor (Z.shiftl x k) (Z.shiftr x (32 - k))).

Definition at16 (w : list Z) (i : nat) : Z := w !!! (i mod 16)%nat.

(** Big-endian load of the sixteen message words of one block. *)
Definition load_words (p : list Z) : list Z :=
  (fun i : nat =>
     let j := (i * 4)%nat in
     Z.lor (Z.lor (Z.lor (Z.shiftl (p !!! j) 24) (Z.shiftl (p !!! (j + 1)%nat) 16))
                  (Z.shiftl (p !!! (j + 2)%nat) 8))
           (p !!! (j + 3)%nat)) <$> seq 0 16.

(** Round [i] of the compression function on the working variables
    [(a, b, c, d, e)] and the sixteen-word circular schedule [w]. *)
Definition round (i : nat) (st : list Z * (Z * Z * Z * Z * Z))
  : list Z * (Z * Z * Z * Z * Z) :=
  let '(w, (a, b, c, d, e)) := st in
  let w :=
    if (i <? 16)%nat then w
    else
      let tmp := Z.lxor (Z.lxor (Z.lxor (at16 w (i - 3)) (at16 w (i - 8)))
                                (at16 w (i - 14))) (at16 w i) in
      <[(i mod 16)%nat := RotateLeft32 tmp 1]> w in
  let '(f, k) :=
    if (i <? 20)%nat then (Z.lor (Z.land b c) (Z.land (not32 b) d), K0)
    else if (i <? 40)%nat then (Z.lxor (Z.lxor b c) d, K1)
    else if (i <? 60)%nat then (Z.lor (Z.land (Z.lor b c) d) (Z.land b c), K2)
    else (Z.lxor (Z.lxor b c) d, K3) in
  let t := add32 (add32 (add32 (add32 (RotateLeft32 a 5) f) e) (at16 w i)) k in
  (w, (t, a, RotateLeft32 b 30, c, d)).

Definition block1 (h : list Z) (p : list Z) : list Z :=
  let h0 := h !!! 0%nat in let h1 := h !!! 1%nat in let h2 := h !!! 2%nat in
  let h3 := h !!! 3%nat in let h4 := h !!! 4%nat in
  let '(_, (a, b, c, d, e)) :=
    foldl (fun st i => round i st) (load_words p, (h0, h1, h2, h3, h4)) (seq 0 80) in
  [add32 h0 a; add32 h1 b; add32 h2 c; add32 h3 d; add32 h4 e].

(** [block]: consume [p] one 64-byte chunk at a time, [n] chunks. *)
Fixpoint block (n : nat) (h : list Z) (p : list Z) : list Z :=
  match n with
  | O => h
  | S n' => block n' (block1 h (take chunk p)) (drop chunk p)
  end.

(** Big-endian bytes of a 64-bit and of a 32-bit number. *)
Definition PutUint64 (x : Z) : list Z :=
  (fun k : nat => Z.land (Z.shiftr x (8 * (7 - Z.of_nat k))) 0xFF) <$> seq 0 8.
Definition PutUint32 (x : Z) : list Z :=
  (fun k : nat => Z.land (Z.shiftr x (8 * (3 - Z.of_nat k))) 0xFF) <$> seq 0 4.

(** Padding written by [checkSum]: 0x80, zeros up to 56 mod 64, then the
    message length in bits. *)
Definition padding (len : nat) : list Z :=
  let r := (len mod 64)%nat in
  let npad := if (r <? 56)%nat then (56 - r)%nat else (64 + 56 - r)%nat in
  (0x80 :: replicate (npad - 1) 0) ++ PutUint64 (Z.shiftl (Z.of_nat len) 3 mod 2 ^ 64).

Definition Sum (data : list Z) : list Z :=
  let p := data ++ padding (length data) in
  let h := block (length p / chunk) init p in
  h ≫= PutUint32.

End sha1.

(** ** encoding/hex *)

Definition hextable : string := "0123456789abcdef".

Definition hexchar (v : Z) : ascii :=
  default "0"%char (String.get (Z.to_nat v) hextable).

Fixpoint hex_EncodeToString (src : list Z) : string :=
  match src with
  | [] => EmptyString
  | v :: src' =>
      String (hexchar (Z.shiftr v 4)) (String (hexchar (Z.land v 0x0f)) (hex_EncodeToString src'))
  end.

(** ** Data model *)

(** Go's [error] values; [None] is [nil]. *)
Definition error : Type := string.

(** Modelled from the spec: [module.MsgMetadata] (package [module] is not
    part of the sources); the two fields [RandomMsg] sets. *)
Record MsgMetadata := {
  DontTraceSender : bool;
  ID : string;
}.

(** [validHeaderFieldByte] of [net/textproto]: the bytes of an RFC 7230
    token, that is letters, digits and the punctuation listed. *)
Definition validHeaderFieldByte (c : ascii) : bool :=
  let n := nat_of_ascii c in
  ((48 <=? n) && (n <=? 57)) || ((65 <=? n) && (n <=? 90)) || ((97 <=? n) && (n <=? 122))
  || existsb (Ascii.eqb c) (String.list_ascii_of_string "!#$%&'*+-.^_`|~").

(** The loop of [canonicalMIMEHeaderKey]: the first letter and every letter
    that follows a hyphen in upper case, every other letter in lower case.
    [upper] tells whether the byte before was a hyphen. *)
Definition canonical_byte (upper : bool) (c : ascii) : ascii :=
  let n := nat_of_ascii c in
  if upper && (97 <=? n) && (n <=? 122) then ascii_of_nat (n - 32)
  else if negb upper && (65 <=? n) && (n <=? 90) then ascii_of_nat (n + 32)
  else c.

Fixpoint canonical_from (upper : bool) (s : string) : string :=
  match s with
  | EmptyString => EmptyString
  | String c s' =>
      let c' := canonical_byte upper c in
      String c' (canonical_from (Ascii.eqb c' "-") s')
  end.

(** The value of [upper] after the loop has run over [s]. *)
Fixpoint upper_after (upper : bool) (s : string) : bool :=
  match s with
  | EmptyString => upper
  | String c s' => upper_after (Ascii.eqb (canonical_byte upper c) "-") s'
  end.

(** [textproto.CanonicalMIMEHeaderKey]: a name with a byte that is not a
    token byte is returned unchanged. *)
Definition CanonicalMIMEHeaderKey (s : string) : string :=
  if forallb validHeaderFieldByte (String.list_ascii_of_string s)
  then canonical_from true s
  else s.

(** Modelled from the spec: [textproto.Header] (package [textproto] of
    go-message is not part of the sources), the ordered multi-map of the data
    model, duplicates kept. The fields are listed from the top of the header
    down, the order in which the library visits and writes them. The
    operations follow the library: [Add] stores the field under the
    canonical form of its name and puts it on top of the fields already
    there; [Has] and [Get] look a name up by its canonical form, [Get]
    answering with the value of the topmost such field and with the empty
    string when there is none. *)
Definition Header : Type := list (string * string).

Definition Header_Add (hdr : Header) (k v : string) : Header :=
  (CanonicalMIMEHeaderKey k, v) :: hdr.

Definition Header_Has (hdr : Header) (k : string) : bool :=
  bool_decide (CanonicalMIMEHeaderKey k ∈ hdr.*1).

Fixpoint Header_find (hdr : Header) (ck : string) : string :=
  match hdr with
  | [] => EmptyString
  | (k', v) :: hdr' => if decide (k' = ck) then v else Header_find hdr' ck
  end.

Definition Header_Get (hdr : Header) (k : string) : string :=
  Header_find hdr (CanonicalMIMEHeaderKey k).

(** Modelled from the spec: [buffer.MemoryBuffer] (package [buffer] is not
    part of the sources): a byte slice, opened for reading any number of
    times; a reader is the slice and a read offset of its own. *)
Record MemoryBuffer := { Slice : list Z }.

Record Reader := { r_data : list Z; r_off : nat }.

Definition MemoryBuffer_Open (mb : MemoryBuffer) : Reader :=
  {| r_data := Slice mb; r_off := 0 |}.

Definition Reader_Read (n : nat) (r : Reader) : list Z * Reader :=
  let out := take n (drop (r_off r) (r_data r)) in
  (out, {| r_data := r_data r; r_off := r_off r + length out |}).

Definition Reader_ReadAll (r : Reader) : list Z * Reader :=
  Reader_Read (length (r_data r) - r_off r) r.

(** Empirically observed "around average" values. *)
Definition MessageBodySize : Z := 100 * 1024.
Definition ExtraMessageHeaderFields : Z := 20.
Definition ExtraMessageHeaderFieldSize : Z := 100.

(** The double-quote character of the quoted display names. *)
Definition dquote : string := String (ascii_of_nat 34) EmptyString.

Definition headerPreamble_entries : list (string * string) :=
  [
    ("From", dquote +:+ "whatever whatever" +:+ dquote +:+ " <whatever@example.org>");
    ("Message-ID", "<AAAAAAAAAAAAAAAAAA@example.org>");
    ("To", dquote +:+ "whatever whatever" +:+ dquote +:+ " <whatever@example.org>, "
             +:+ dquote +:+ "fool" +:+ dquote +:+ " <fool@example.org>");
    ("Date", "Tue, 08 Oct 2019 06:25:41 +0000");
    ("Subject", "Heya Heya Heya Heya");
    ("Content-Type", "text/plain; charset=us-ascii");
    ("MIME-Version", "1.0");
    ("Content-Transfer-Encoding", "8bit");
    ("Received", "from whatever ([127.0.0.1]) by whatever ([127.0.0.1]) with whatever id whatever for whatever@example.org")
  ].

Definition headerPreamble : gmap string string := list_to_map headerPreamble_entries.

(** ** Partial-status collector: [type multipleErrs map[string]error] *)

Definition SetStatus (m : gmap string (option error)) (rcptTo : string)
    (err : option error) : gmap string (option error) :=
  <[rcptTo := err]> m.

(** ** Message fabricator *)

(** [range headerPreamble] visits every entry of the map once, in an order
    the Go runtime is free to choose: [order] is that order. *)
Definition map_range (m : gmap string string) (order : list (string * string)) : Prop :=
  order ≡ₚ map_to_list m.

(** [for i := 0; i < ExtraMessageHeaderFields; i++ { hdr.Add(...) }] *)
Fixpoint add_extra_fields (n : nat) (i : Z) (hdr : Header) : Header :=
  match n with
  | O => hdr
  | S n' =>
      add_extra_fields n' (i + 1)
        (Header_Add hdr ("AAAAAAAAAAAA-" +:+ Itoa i)
           (strings_Repeat "A" (Z.to_nat ExtraMessageHeaderFieldSize)))
  end.

(** [RandomMsg(b)], as a function of [b.Name()] and of the iteration order
    of [headerPreamble]. *)
Definition RandomMsg (name : string) (order : list (string * string))
  : MsgMetadata * Header * MemoryBuffer :=
  let IDRaw := sha1.Sum (bytes_of_string name) in
  let encodedID := hex_EncodeToString IDRaw in
  let hdr : Header := [] in
  let hdr := foldl (fun hdr kv => Header_Add hdr kv.1 kv.2) hdr order in
  let hdr := add_extra_fields (Z.to_nat ExtraMessageHeaderFields) 0 hdr in
  ({| DontTraceSender := true; ID := encodedID |},
   hdr,
   {| Slice := bytes_Repeat (bytes_of_string "a") (Z.to_nat MessageBodySize) |}).

(** ** Recipient addresses *)

(** Go's [%] on [int]: panics on a zero divisor, truncates otherwise. *)
Definition go_rem (a b : Z) : option Z :=
  if decide (b = 0%Z) then None else Some (Z.rem a b).

(** Slice indexing [l[i]]: panics outside [0 <= i < len(l)]. *)
Definition go_index {A} (l : list A) (i : Z) : option A :=
  if decide (0 ≤ i)%Z then l !! Z.to_nat i else None.

Inductive Exit :=
| Fatal (err : error)
| Skipped (msg : string)
| Panic (msg : string).

(** [recipientTemplates[i%len(recipientTemplates)]] *)
Definition template_at (recipientTemplates : list string) (i : Z) : Exit + string :=
  match go_rem i (Z.of_nat (length recipientTemplates)) with
  | None => inl (Panic "runtime error: integer divide by zero")
  | Some k =>
      match go_index recipientTemplates k with
      | None => inl (Panic "runtime error: index out of range")
      | Some t => inr t
      end
  end.

(** [strings.Replace(tpl, "X", strconv.Itoa(i), -1)] *)
Definition fill_template (rcptTemplate : string) (i : Z) : string :=
  strings_ReplaceAll rcptTemplate "X" (Itoa i).

(** The recipient of iteration [i] of the AddRcpt phase. *)
Definition addrcpt_recipient (recipientTemplates : list string) (i : Z) : Exit + string :=
  match template_at recipientTemplates i with
  | inl e => inl e
  | inr t => inr (fill_template t i)
  end.

(** The template with every placeholder character replaced, as the
    specification words it: character by character. *)
Fixpoint subst_placeholder (new : string) (s : string) : string :=
  match s with
  | EmptyString => EmptyString
  | String c s' =>
      if decide (c = "X"%char) then new +:+ subst_placeholder new s'
      else String c (subst_placeholder new s')
  end.

Fixpoint occurs (c : ascii) (s : string) : nat :=
  match s with
  | EmptyString => 0
  | String c' s' => (if decide (c' = c) then 1 else 0) + occurs c s'
  end.

(** ** Benchmark driver *)

(** [testing.B] of one sub-benchmark invocation: its name and iteration
    count. *)
Record TB := { bName : string; bN : Z }.

(** What the framework and the runtime choose for one sub-benchmark: the
    name [b.Name()] answers with, the map order of the first call of its
    function, and the iteration count and map order of every further call. *)
Record SubBench := {
  sName : string;
  sOrder : list (string * string);
  sMore : list (Z * list (string * string));
}.

(** A delivery returned by [Start]: its identity (the number of deliveries
    started before it) and whether its dynamic type implements
    [module.PartialDelivery]. *)
Record Delivery := { d_id : nat; d_partial : bool }.

(** Modelled from the spec: the [module.DeliveryTarget] and
    [module.Delivery] interfaces (package [module] is not part of the
    sources). A backend is a state [S] with one transition per operation;
    [BodyNonAtomic] answers with the [SetStatus] calls it makes on the
    status collector it was given, in order. *)
Record DeliveryTarget (S : Type) := {
  Start : MsgMetadata → string → S → (error + bool) * S;
  AddRcpt : nat → string → S → option error * S;
  Body : nat → Header → MemoryBuffer → S → option error * S;
  BodyNonAtomic : nat → Header → MemoryBuffer → S → list (string * option error) * S;
  Commit : nat → S → option error * S;
  Abort : nat → S → option error * S;
}.
Arguments Start {S}.
Arguments AddRcpt {S}.
Arguments Body {S}.
Arguments BodyNonAtomic {S}.
Arguments Commit {S}.
Arguments Abort {S}.

(** The calls the driver makes, in order. *)
Inductive Event :=
| EvStart (d : nat) (partial : bool)
| EvStartFailed (err : error)
| EvAddRcpt (d : nat) (rcpt : string) (res : option error)
| EvBody (d : nat) (hdr : Header) (body : MemoryBuffer) (res : option error)
| EvBodyNonAtomic (d : nat) (sc : gmap string (option error))
    (hdr : Header) (body : MemoryBuffer) (statuses : list (string * option error))
| EvCommit (d : nat) (res : option error)
| EvAbort (d : nat).

(** The state a sub-benchmark runs in: the backend, the calls made so far
    and the number of deliveries started so far. *)
Record World (S : Type) := {
  backend : S;
  trace : list Event;
  nextId : nat;
}.
Arguments backend {S}.
Arguments trace {S}.
Arguments nextId {S}.

(** A sub-benchmark body: it runs to its end or leaves early through
    [b.Fatal], [b.Skip] or a panic. *)
Definition Bench (S A : Type) : Type := World S → (Exit + A) * World S.

Definition ret {S A} (a : A) : Bench S A := fun w => (inr a, w).

Definition bind {S A B} (m : Bench S A) (k : A → Bench S B) : Bench S B :=
  fun w =>
    match m w with
    | (inl e, w') => (inl e, w')
    | (inr a, w') => k a w'
    end.

Notation "'let*' x := c 'in' k" := (bind c (fun x => k))
  (at level 10, x name, c at level 100, k at level 200, only parsing).

(** [b.Fatal(err)], [b.Skip(msg)] and a runtime panic end the function. *)
Definition b_Fatal {S A} (err : error) : Bench S A := fun w => (inl (Fatal err), w).
Definition b_Skip {S A} (msg : string) : Bench S A := fun w => (inl (Skipped msg), w).
Definition lift {S A} (r : Exit + A) : Bench S A := fun w => (r, w).

(** [defer f()] followed by the rest of the function: [f] runs when the
    function ends, however it ends. *)
Definition defer {S A} (f : Bench S unit) (rest : Bench S A) : Bench S A :=
  fun w =>
    let '(r, w1) := rest w in
    let '(_, w2) := f w1 in
    (r, w2).

(** [for i := start; ...; i++] for [n] iterations, with the local variables
    the loop updates as [s]. *)
Fixpoint for_upto {S St} (n : nat) (i : Z) (body : Z → St → Bench S St) (s : St)
  : Bench S St :=
  match n with
  | O => ret s
  | S n' => let* s' := body i s in for_upto n' (i + 1) body s'
  end.

(** [for i, x := range l] *)
Fixpoint for_range {S A} (l : list A) (i : Z) (body : Z → A → Bench S unit)
  : Bench S unit :=
  match l with
  | [] => ret tt
  | x :: l' => let* _ := body i x in for_range l' (i + 1) body
  end.

Section Driver.

Context {S : Type}.
Variable target : DeliveryTarget S.
Variable idempotentBody : bool.
Variable sender : string.
Variable recipientTemplates : list string.

(** [target.Start(&meta, sender)] *)
Definition target_Start (meta : MsgMetadata) : Bench S (error + Delivery) :=
  fun w =>
    match Start target meta sender (backend w) with
    | (inl err, σ) =>
        (inr (inl err),
         {| backend := σ; trace := trace w ++ [EvStartFailed err]; nextId := nextId w |})
    | (inr partial, σ) =>
        (inr (inr {| d_id := nextId w; d_partial := partial |}),
         {| backend := σ; trace := trace w ++ [EvStart (nextId w) partial];
            nextId := Datatypes.S (nextId w) |})
    end.

Definition delivery_AddRcpt (delivery : Delivery) (rcpt : string) : Bench S (option error) :=
  fun w =>
    let '(res, σ) := AddRcpt target (d_id delivery) rcpt (backend w) in
    (inr res, {| backend := σ; trace := trace w ++ [EvAddRcpt (d_id delivery) rcpt res];
                 nextId := nextId w |}).

Definition delivery_Body (delivery : Delivery) (header : Header) (body : MemoryBuffer)
  : Bench S (option error) :=
  fun w =>
    let '(res, σ) := Body target (d_id delivery) header body (backend w) in
    (inr res, {| backend := σ; trace := trace w ++ [EvBody (d_id delivery) header body res];
                 nextId := nextId w |}).

(** [partialDelivery.BodyNonAtomic(sc, header, body)]: the collector is a
    shared map, the callee's [SetStatus] calls update it in place. *)
Definition delivery_BodyNonAtomic (delivery : Delivery) (sc : gmap string (option error))
    (header : Header) (body : MemoryBuffer) : Bench S (gmap string (option error)) :=
  fun w =>
    let '(statuses, σ) := BodyNonAtomic target (d_id delivery) header body (backend w) in
    (inr (foldl (fun m st => SetStatus m st.1 st.2) sc statuses),
     {| backend := σ;
        trace := trace w ++ [EvBodyNonAtomic (d_id delivery) sc header body statuses];
        nextId := nextId w |}).

Definition delivery_Commit (delivery : Delivery) : Bench S (option error) :=
  fun w =>
    let '(res, σ) := Commit target (d_id delivery) (backend w) in
    (inr res, {| backend := σ; trace := trace w ++ [EvCommit (d_id delivery) res];
                 nextId := nextId w |}).

(** [delivery.Abort()], its result dropped. *)
Definition delivery_Abort (delivery : Delivery) : Bench S unit :=
  fun w =>
    let '(_, σ) := Abort target (d_id delivery) (backend w) in
    (inr tt, {| backend := σ; trace := trace w ++ [EvAbort (d_id delivery)];
                nextId := nextId w |}).

(** [if err != nil { b.Fatal(err) }] *)
Definition fatal_on (res : option error) : Bench S unit :=
  match res with
  | Some err => b_Fatal err
  | None => ret tt
  end.

(** [if !cond { b.Skip(msg) }] *)
Definition skip_unless (cond : bool) (msg : string) : Bench S unit :=
  if negb cond then b_Skip msg else ret tt.

(** [for i, rcptTemplate := range recipientTemplates { ... AddRcpt ... }] *)
Definition add_all_recipients (delivery : Delivery) : Bench S unit :=
  for_range recipientTemplates 0 (fun i rcptTemplate =>
    let rcpt := fill_template rcptTemplate i in
    let* err := delivery_AddRcpt delivery rcpt in
    fatal_on err).

(** [b.Run("Start", ...)] *)
Definition phase_Start (b : TB) (order : list (string * string)) : Bench S unit :=
  let '(meta, _, _) := RandomMsg (bName b) order in
  let* deliveries :=
    for_upto (Z.to_nat (bN b)) 0 (fun i deliveries =>
      let* r := target_Start meta in
      match r with
      | inl err => b_Fatal err
      | inr delivery => ret (deliveries ++ [delivery])
      end) [] in
  for_range deliveries 0 (fun _ delivery => delivery_Abort delivery).

(** [b.Run("AddRcpt", ...)] *)
Definition phase_AddRcpt (b : TB) (order : list (string * string)) : Bench S unit :=
  let '(meta, _, _) := RandomMsg (bName b) order in
  let* r := target_Start meta in
  match r with
  | inl err => b_Fatal err
  | inr delivery =>
      defer (delivery_Abort delivery)
        (for_upto (Z.to_nat (bN b)) 0 (fun i _ =>
           let* rcpt := lift (addrcpt_recipient recipientTemplates i) in
           let* err := delivery_AddRcpt delivery rcpt in
           fatal_on err) tt)
  end.

(** [b.Run("Body", ...)] *)
Definition phase_Body (b : TB) (order : list (string * string)) : Bench S unit :=
  let* _ := skip_unless idempotentBody "Non-idempotent Body implementation" in
  let '(meta, header, body) := RandomMsg (bName b) order in
  let* r := target_Start meta in
  match r with
  | inl err => b_Fatal err
  | inr delivery =>
      defer (delivery_Abort delivery)
        (let* _ := add_all_recipients delivery in
         for_upto (Z.to_nat (bN b)) 0 (fun i _ =>
           let* err := delivery_Body delivery header body in
           fatal_on err) tt)
  end.

(** [b.Run("BodyNonAtomic", ...)] *)
Definition phase_BodyNonAtomic (b : TB) (order : list (string * string)) : Bench S unit :=
  let* _ := skip_unless idempotentBody "Non-idempotent Body implementation" in
  let '(meta, header, body) := RandomMsg (bName b) order in
  let* r := target_Start meta in
  match r with
  | inl err => b_Fatal err
  | inr delivery =>
      defer (delivery_Abort delivery)
        (let* _ := skip_unless (d_partial delivery)
                     "Delivery does not implement PartialDelivery" in
         let* _ := add_all_recipients delivery in
         let sc : gmap string (option error) := ∅ in
         let* _ := for_upto (Z.to_nat (bN b)) 0 (fun i sc =>
                     delivery_BodyNonAtomic delivery sc header body) sc in
         ret tt)
  end.

(** [b.Run("Full transaction", ...)] *)
Definition phase_Full (b : TB) (order : list (string * string)) : Bench S unit :=
  let '(meta, header, body) := RandomMsg (bName b) order in
  for_upto (Z.to_nat (bN b)) 0 (fun i _ =>
    let* r := target_Start meta in
    match r with
    | inl err => b_Fatal err
    | inr delivery =>
        let* _ := add_all_recipients delivery in
        let* err := delivery_Body delivery header body in
        let* _ := fatal_on err in
        let* err := delivery_Commit delivery in
        fatal_on err
    end) tt.

(** The calls [testing.B.Run] makes of the function [f] of one
    sub-benchmark named [name], for the iteration counts and map orders
    [calls]: one call after the other as long as the calls return normally. A
    call that ends in [b.Fatal] or [b.Skip] ends the sub-benchmark, not the
    caller of [b.Run]; a panic ends the whole run. *)
Fixpoint run_calls (name : string) (f : TB → list (string * string) → Bench S unit)
    (calls : list (Z * list (string * string))) : Bench S unit :=
  match calls with
  | [] => ret tt
  | (n, order) :: calls' =>
      fun w =>
        match f {| bName := name; bN := n |} order w with
        | (inl (Panic msg), w') => (inl (Panic msg), w')
        | (inl _, w') => (inr tt, w')
        | (inr _, w') => run_calls name f calls' w'
        end
  end.

(** [b.Run(name, f)] of package [testing] (not part of the sources): the
    framework calls [f] on a sub-benchmark of its own, first with
    [b.N = 1]; when that call returns normally it calls [f] again with the
    iteration counts it settles on, which depend on the time measured and on
    [-benchtime], so that they are given here, with the map order of every
    call, by [sub]. *)
Definition b_Run (sub : SubBench) (f : TB → list (string * string) → Bench S unit)
  : Bench S unit :=
  run_calls (sName sub) f ((1%Z, sOrder sub) :: sMore sub).

(** The five sub-benchmarks, in order. [subs] gives, for each name, what
    the framework chooses for that sub-benchmark. *)
Definition BenchDelivery (subs : string → SubBench) : Bench S unit :=
  let* _ := b_Run (subs "Start") phase_Start in
  let* _ := b_Run (subs "AddRcpt") phase_AddRcpt in
  let* _ := b_Run (subs "Body") phase_Body in
  let* _ := b_Run (subs "BodyNonAtomic") phase_BodyNonAtomic in
  b_Run (subs "Full transaction") phase_Full.

End Driver.

(** The world before any call, on backend state [σ]. *)
Definition start_world {S} (σ : S) : World S :=
  {| backend := σ; trace := []; nextId := 0 |}.

(** ** Reading a trace *)

Fixpoint count (f : Event → bool) (tr : list Event) : nat :=
  match tr with
  | [] => 0
  | e :: tr' => (if f e then 1 else 0) + count f tr'
  end.

Definition is_start (d : nat) (e : Event) : bool :=
  match e with
  | EvStart d' _ => bool_decide (d' = d)
  | _ => false
  end.

Definition is_terminal (d : nat) (e : Event) : bool :=
  match e with
  | EvCommit d' _ | EvAbort d' => bool_decide (d' = d)
  | _ => false
  end.

Definition is_body (d : nat) (e : Event) : bool :=
  match e with
  | EvBody d' _ _ _ => bool_decide (d' = d)
  | _ => false
  end.

(** The delivery an event is a call on. *)
Definition ev_id (e : Event) : option nat :=
  match e with
  | EvStart d _ | EvAddRcpt d _ _ | EvBody d _ _ _ | EvBodyNonAtomic d _ _ _ _
  | EvCommit d _ | EvAbort d => Some d
  | EvStartFailed _ => None
  end.

(** Atomic [Body] calls on delivery [d] before its terminal call. *)
Fixpoint body_calls (d : nat) (tr : list Event) : nat :=
  match tr with
  | [] => 0
  | e :: tr' =>
      if is_terminal d e then 0
      else (if is_body d e then 1 else 0) + body_calls d tr'
  end.

(** Every delivery a successful [Start] returned gets exactly one terminal
    call. *)
Definition resource_discipline (tr : list Event) : Prop :=
  ∀ d, count (is_start d) tr = 1 → count (is_terminal d) tr = 1.

(** No delivery gets more than one atomic [Body] call before its terminal
    call. *)
Definition body_at_most_once (tr : list Event) : Prop :=
  ∀ d, body_calls d tr ≤ 1.

(** Every [BodyNonAtomic] call is handed an empty collector. *)
Definition collectors_fresh (tr : list Event) : Prop :=
  Forall (fun e => match e with
                   | EvBodyNonAtomic _ sc _ _ _ => sc = ∅
                   | _ => True
                   end) tr.

(** Every [BodyNonAtomic] call is handed the one collector that started as
    [sc], with all the statuses the earlier calls have set in it. *)
Fixpoint collectors_chained (sc : gmap string (option error)) (tr : list Event) : Prop :=
  match tr with
  | [] => True
  | EvBodyNonAtomic _ sc' _ _ statuses :: tr' =>
      sc' = sc ∧ collectors_chained (foldl (fun m st => SetStatus m st.1 st.2) sc statuses) tr'
  | _ :: tr' => collectors_chained sc tr'
  end.

(** The header/body pairs submitted through [Body] or [BodyNonAtomic]. *)
Definition submissions (tr : list Event) : list (Header * MemoryBuffer) :=
  tr ≫= (fun e => match e with
                  | EvBody _ hdr body _ | EvBodyNonAtomic _ _ hdr body _ => [(hdr, body)]
                  | _ => []
                  end).

(** ** Backends used as test doubles *)

(** Accepts everything and remembers the recipients of the transaction in
    progress; its deliveries implement [PartialDelivery] and report success
    for every recipient. *)
Definition accepting_target : DeliveryTarget (list string) := {|
  Start := fun _ _ σ => (inr true, []);
  AddRcpt := fun _ rcpt σ => (None, σ ++ [rcpt]);
  Body := fun _ _ _ σ => (None, σ);
  BodyNonAtomic := fun _ _ _ σ => ((fun r => (r, None)) <$> σ, σ);
  Commit := fun _ σ => (None, []);
  Abort := fun _ σ => (None, []);
|}.

(** Accepts the first transaction only; the state counts the [Start] calls. *)
Definition one_slot_target : DeliveryTarget nat := {|
  Start := fun _ _ n => (if decide (n = 0) then inr false else inl "no free slot", S n);
  AddRcpt := fun _ _ n => (None, n);
  Body := fun _ _ _ n => (None, n);
  BodyNonAtomic := fun _ _ _ n => ([], n);
  Commit := fun _ n => (None, n);
  Abort := fun _ n => (None, n);
|}.

(** Rejects every recipient. *)
Definition rejecting_target : DeliveryTarget unit := {|
  Start := fun _ _ σ => (inr false, σ);
  AddRcpt := fun _ _ σ => (Some "mailbox unknown", σ);
  Body := fun _ _ _ σ => (None, σ);
  BodyNonAtomic := fun _ _ _ σ => ([], σ);
  Commit := fun _ σ => (None, σ);
  Abort := fun _ σ => (None, σ);
|}.

(** Fails every atomic [Body]. *)
Definition body_failing_target : DeliveryTarget unit := {|
  Start := fun _ _ σ => (inr false, σ);
  AddRcpt := fun _ _ σ => (None, σ);
  Body := fun _ _ _ σ => (Some "storage failure", σ);
  BodyNonAtomic := fun _ _ _ σ => ([], σ);
  Commit := fun _ σ => (None, σ);
  Abort := fun _ σ => (None, σ);
|}.

(** A sub-benchmark invocation with [n] iterations, named as [b.Run] names
    it (spaces become underscores), the map visited in the order of
    [map_to_list]. *)
Definition sub_of (n : Z) (name : string) : TB * list (string * string) :=
  ({| bName := "BenchmarkDelivery/" +:+ strings_ReplaceAll name " " "_"; bN := n |},
   map_to_list headerPreamble).

Definition example_templates : list string :=
  ["bX@example.org"; "cX@example.org"].

(** A sub-benchmark whose function is called with [b.N = 1] and then with
    the iteration counts [more], named and with the map visited as in
    [sub_of]. *)
Definition calls_of (more : list Z) (name : string) : SubBench :=
  {| sName := bName (sub_of 1 name).1;
     sOrder := map_to_list headerPreamble;
     sMore := (fun n => (n, map_to_list headerPreamble)) <$> more |}.

(** ** Predicates used in the statements *)

(** The synthetic fields as the header stores them, in the order they are
    added. *)
Definition extra_fields (n : nat) (i : Z) : Header :=
  (fun k : nat => ("Aaaaaaaaaaaa-" +:+ Itoa (i + Z.of_nat k),
                   strings_Repeat "A" (Z.to_nat ExtraMessageHeaderFieldSize))) <$> seq 0 n.

(** A field as [Add] stores it. *)
Definition stored (kv : string * string) : string * string :=
  (CanonicalMIMEHeaderKey kv.1, kv.2).

(** Any two distinct iterations add distinct recipients. *)
Definition distinct_recipients (templates : list string) : Prop :=
  ∀ i j : Z, (0 ≤ i)%Z → (0 ≤ j)%Z → i ≠ j →
    addrcpt_recipient templates i ≠ addrcpt_recipient templates j.

(** [quiet Q k m]: [m] starts no delivery; the calls it makes all satisfy
    [Q] and include at most [k] atomic [Body] calls on any one delivery. *)
Definition quiet {S A} (Q : Event → Prop) (k : nat) (m : Bench S A) : Prop :=
  ∀ w, ∃ evs,
    trace (m w).2 = trace w ++ evs
    ∧ nextId (m w).2 = nextId w
    ∧ Forall Q evs
    ∧ ∀ d, count (is_body d) evs ≤ k.

(** An event on a delivery started in the window [[lo, hi)]. *)
Definition in_range (lo hi : nat) (e : Event) : Prop :=
  ∀ d, ev_id e = Some d → lo ≤ d < hi.

(** [extends k w w']: from [w] to [w'] only calls on deliveries started in
    between were made, at most [k] of them atomic [Body] calls on any one
    delivery. *)
Definition extends {S} (k : nat) (w w' : World S) : Prop :=
  ∃ evs,
    trace w' = trace w ++ evs
    ∧ nextId w ≤ nextId w'
    ∧ Forall (in_range (nextId w) (nextId w')) evs
    ∧ ∀ d, count (is_body d) evs ≤ k.

(** [emits P m]: the calls [m] appends to the trace, on any exit, satisfy
    [P]. *)
Definition emits {S A} (P : list Event → Prop) (m : Bench S A) : Prop :=
  ∀ w, ∃ evs, trace (m w).2 = trace w ++ evs ∧ P evs.

(** Any call but [BodyNonAtomic]. *)
Definition not_BodyNonAtomic (e : Event) : Prop :=
  match e with
  | EvBodyNonAtomic _ _ _ _ _ => False
  | _ => True
  end.

(** The collectors handed to the [BodyNonAtomic] calls, in order. *)
Definition collectors (tr : list Event) : list (gmap string (option error)) :=
  tr ≫= (fun e => match e with
                  | EvBodyNonAtomic _ sc _ _ _ => [sc]
                  | _ => []
                  end).

#[global] Instance MemoryBuffer_eq_dec : EqDecision MemoryBuffer.
Proof. solve_decision. Defined.

(** An event that neither starts nor ends a delivery. *)
Definition neutral (e : Event) : Prop :=
  match e with
  | EvStart _ _ | EvCommit _ _ | EvAbort _ => False
  | _ => True
  end.

(** As many terminal calls as successful starts, for every delivery. *)
Definition balanced (tr : list Event) : Prop :=
  ∀ d, count (is_start d) tr = count (is_terminal d) tr.

(** The addresses passed to [AddRcpt], in order. *)
Definition rcpts_of (tr : list Event) : list string :=
  tr ≫= (fun e => match e with
                  | EvAddRcpt _ rcpt _ => [rcpt]
                  | _ => []
                  end).

(** The method an event is a call of. *)
Inductive Kind := KStart | KAddRcpt | KBody | KBodyNonAtomic | KCommit | KAbort.

#[global] Instance Kind_eq_dec : EqDecision Kind.
Proof. solve_decision. Defined.

Definition kind (e : Event) : Kind :=
  match e with
  | EvStart _ _ | EvStartFailed _ => KStart
  | EvAddRcpt _ _ _ => KAddRcpt
  | EvBody _ _ _ _ => KBody
  | EvBodyNonAtomic _ _ _ _ _ => KBodyNonAtomic
  | EvCommit _ _ => KCommit
  | EvAbort _ => KAbort
  end.

(** The error a call returned, for the calls whose result the driver
    checks. *)
Definition failure_of (e : Event) : option error :=
  match e with
  | EvStartFailed err => Some err
  | EvAddRcpt _ _ res | EvBody _ _ _ res | EvCommit _ res => res
  | _ => None
  end.

Definition clean (evs : list Event) : Prop :=
  Forall (fun e => failure_of e = None) evs.

(** [ok Q E m]: [m] makes calls of the kinds [Q] only; it leaves early only
    through an exit in [E]; a [b.Fatal] carries the error of the last call
    made, and every other call made returned no error. *)
Definition ok {S A} (Q : Kind → Prop) (E : Exit → Prop) (m : Bench S A) : Prop :=
  ∀ w, ∃ evs,
    trace (m w).2 = trace w ++ evs
    ∧ Forall (fun e => Q (kind e)) evs
    ∧ match (m w).1 with
      | inl (Fatal err) =>
          E (Fatal err) ∧ ∃ pre e, evs = pre ++ [e] ∧ clean pre ∧ failure_of e = Some err
      | inl e => E e ∧ clean evs
      | inr _ => clean evs
      end.

(** As [ok], for a whole sub-benchmark: after the failed call of a
    [b.Fatal] at most the deferred [Abort] follows. *)
Definition ok_phase {S A} (Q : Kind → Prop) (E : Exit → Prop) (m : Bench S A) : Prop :=
  ∀ w, ∃ evs,
    trace (m w).2 = trace w ++ evs
    ∧ Forall (fun e => Q (kind e)) evs
    ∧ match (m w).1 with
      | inl (Fatal err) =>
          E (Fatal err)
          ∧ ∃ pre e post, evs = pre ++ e :: post ∧ clean pre ∧ failure_of e = Some err
                          ∧ (post = [] ∨ ∃ d, post = [EvAbort d])
      | inl e => E e ∧ clean evs
      | inr _ => clean evs
      end.

(** [b.Fatal] reports the error of the last checked call; nothing but the
    deferred [Abort] follows that call, and no other call failed. *)
Definition fail_stop {A} (r : Exit + A) (evs : list Event) : Prop :=
  match r with
  | inl (Fatal err) =>
      ∃ pre e post, evs = pre ++ e :: post ∧ clean pre ∧ failure_of e = Some err
                    ∧ (post = [] ∨ ∃ d, post = [EvAbort d])
  | _ => clean evs
  end.

(** The early exits of the five sub-benchmarks. *)
Definition exits_Start (e : Exit) : Prop := ∃ err, e = Fatal err.

Definition exits_AddRcpt (recipientTemplates : list string) (e : Exit) : Prop :=
  (∃ err, e = Fatal err)
  ∨ (recipientTemplates = [] ∧ e = Panic "runtime error: integer divide by zero").

Definition exits_Body (idempotentBody : bool) (e : Exit) : Prop :=
  (∃ err, e = Fatal err)
  ∨ (idempotentBody = false ∧ e = Skipped "Non-idempotent Body implementation").

Definition exits_BodyNonAtomic (idempotentBody : bool) (e : Exit) : Prop :=
  (∃ err, e = Fatal err)
  ∨ (idempotentBody = false ∧ e = Skipped "Non-idempotent Body implementation")
  ∨ (idempotentBody = true ∧ e = Skipped "Delivery does not implement PartialDelivery").

(** [runs P m]: the way [m] ends and the calls it appends to the trace
    satisfy [P]. *)
Definition runs {S A} (P : Exit + A → list Event → Prop) (m : Bench S A) : Prop :=
  ∀ w, ∃ evs, trace (m w).2 = trace w ++ evs ∧ P (m w).1 evs.

Definition is_BodyNonAtomic (e : Event) : bool := bool_decide (kind e = KBodyNonAtomic).

(** The recipients of the [range] loop over the templates, counting from
    [i]. *)
Definition range_recipients (i : Z) (templates : list string) : list string :=
  imap (fun k t => fill_template t (i + Z.of_nat k)) templates.

(** The recipients added are the first [k] of [full], in order; a body is
    submitted only once all of [full] have been added; a normal return has
    added all of them and made [n] submissions; an early exit satisfies
    [early]. *)
Definition phase_shape (full : list string) (n : nat) (early : list Event → Prop)
    (r : Exit + unit) (evs : list Event) : Prop :=
  ∃ k, k ≤ length full
       ∧ rcpts_of evs = take k full
       ∧ (submissions evs ≠ [] → k = length full)
       ∧ match r with
         | inr _ => k = length full ∧ length (submissions evs) = n
         | inl _ => early evs
         end.

(** Where one delivery stands, going by the calls made on it: not yet
    returned by [Start]; open for recipients; body submitted; a checked call
    on it has failed; closed by [Commit] or [Abort]; or a call was made that
    the order of the protocol does not allow. *)
Inductive PState := NotStarted | Open | Submitted | Failed | Closed | Violation.

(** The effect of one event on delivery [d]: events on other deliveries
    leave it alone. [AddRcpt] is for an open delivery, a body for an open one
    or one whose last body was accepted, [Commit] for one with an accepted
    body, [Abort] for any delivery not yet closed; nothing but [Abort]
    follows a failed call and nothing follows [Commit] or [Abort]. *)
Definition proto_step (d : nat) (s : PState) (e : Event) : PState :=
  if decide (ev_id e = Some d) then
    match e with
    | EvStart _ _ => match s with NotStarted => Open | _ => Violation end
    | EvStartFailed _ => s
    | EvAddRcpt _ _ res =>
        match s with
        | Open => if res is Some _ then Failed else Open
        | _ => Violation
        end
    | EvBody _ _ _ res =>
        match s with
        | Open | Submitted => if res is Some _ then Failed else Submitted
        | _ => Violation
        end
    | EvBodyNonAtomic _ _ _ _ _ =>
        match s with Open | Submitted => Submitted | _ => Violation end
    | EvCommit _ _ => match s with Submitted => Closed | _ => Violation end
    | EvAbort _ =>
        match s with Open | Submitted | Failed => Closed | _ => Violation end
    end
  else s.

Definition proto_run (d : nat) (s : PState) (evs : list Event) : PState :=
  foldl (proto_step d) s evs.

(** No call out of order. *)
Definition legal (s : PState) : Prop := s ≠ Violation.

(** Never started, or started and closed. *)
Definition settled (s : PState) : Prop := s = NotStarted ∨ s = Closed.

(** [drives n s P E m]: [m] starts no delivery and calls delivery [n] only;
    taking [n] from state [s], it leaves it in a state of [P] when it returns
    and in a state of [E] when it exits early. *)
Definition drives {S A} (n : nat) (s : PState) (P E : PState → Prop) (m : Bench S A) : Prop :=
  ∀ w, ∃ evs,
    trace (m w).2 = trace w ++ evs
    ∧ nextId (m w).2 = nextId w
    ∧ Forall (fun e => ev_id e = Some n) evs
    ∧ match (m w).1 with
      | inr _ => P (proto_run n s evs)
      | inl _ => E (proto_run n s evs)
      end.

(** [conforms F w w']: from [w] to [w'] only deliveries started in between
    were called, and the calls made in between take every delivery from
    [NotStarted] to a state of [F]. *)
Definition conforms {S} (F : PState → Prop) (w w' : World S) : Prop :=
  ∃ evs,
    trace w' = trace w ++ evs
    ∧ nextId w ≤ nextId w'
    ∧ Forall (in_range (nextId w) (nextId w')) evs
    ∧ ∀ d, F (proto_run d NotStarted evs).

(** [conforms] for a computation: [FP] on a return, [FE] on an early exit. *)
Definition conforms_run {S A} (FP FE : PState → Prop) (m : Bench S A) : Prop :=
  ∀ w, match (m w).1 with
       | inr _ => conforms FP w (m w).2
       | inl _ => conforms FE w (m w).2
       end.

(** A body submission carries the pair [msg]. *)
Definition carries (msg : Header * MemoryBuffer) (e : Event) : Prop :=
  match e with
  | EvBody _ hdr body _ | EvBodyNonAtomic _ _ hdr body _ => (hdr, body) = msg
  | _ => True
  end.

Definition start_event (d : Delivery) : Event := EvStart (d_id d) (d_partial d).

Definition abort_event (d : Delivery) : Event := EvAbort (d_id d).

(** Calls of method [k] in a trace. *)
Definition count_kind (k : Kind) (evs : list Event) : nat :=
  count (fun e => bool_decide (kind e = k)) evs.

(** Calls one iteration of the Full transaction phase makes when nothing
    fails, for [len] templates. *)
Definition full_calls (len : nat) (k : Kind) : nat :=
  match k with
  | KStart | KBody | KCommit => 1
  | KAddRcpt => len
  | KBodyNonAtomic | KAbort => 0
  end.

(** The [AddRcpt] calls on delivery [id] that accept the recipients [rs]. *)
Definition accepted_adds (id : nat) (rs : list string) : list Event :=
  (fun r => EvAddRcpt id r None) <$> rs.

(** * Properties *)

(** ** Library routines: test vectors and basic facts *)

Example sha1_abc :
  hex_EncodeToString (sha1.Sum (bytes_of_string "abc"))
  = "a9993e364706816aba3e25717850c26c9cd0d89d".
Proof. vm_compute. reflexivity. Qed.

Example sha1_empty :
  hex_EncodeToString (sha1.Sum (bytes_of_string EmptyString))
  = "da39a3ee5e6b4b0d3255bfef95601890afd80709".
Proof. vm_compute. reflexivity. Qed.

Example sha1_two_blocks :
  hex_EncodeToString (sha1.Sum (bytes_of_string
    "abcdbcdecdefdefgefghfghighijhijkijkljklmklmnlmnomnopnopq"))
  = "84983e441c3bd26ebaae4aa1f95129e5e54670f1".
Proof. vm_compute. reflexivity. Qed.

Lemma block1_length h p : length (sha1.block1 h p) = 5.
Proof.
  unfold sha1.block1.
  destruct (foldl _ _ _) as [w [[[[a b] c] d] e]]. reflexivity.
Qed.

Lemma block_length n h p : length h = 5 → length (sha1.block n h p) = 5.
Proof.
  revert h p. induction n as [|n IH]; intros h p Hh; simpl; [done|].
  apply IH, block1_length.
Qed.

Lemma Sum_length data : length (sha1.Sum data) = sha1.Size.
Proof.
  unfold sha1.Sum.
  pose proof (block_length (length (data ++ sha1.padding (length data)) / sha1.chunk)
                sha1.init (data ++ sha1.padding (length data)) eq_refl) as H.
  destruct (sha1.block _ _ _) as [|h0 [|h1 [|h2 [|h3 [|h4 [|? ?]]]]]]; try discriminate H.
  reflexivity.
Qed.

Lemma hex_EncodeToString_length src :
  String.length (hex_EncodeToString src) = 2 * length src.
Proof. induction src as [|v src IH]; simpl; [done|]. rewrite IH. lia. Qed.

Lemma hexchar_in_table v : In (hexchar v) (String.list_ascii_of_string hextable).
Proof.
  unfold hexchar. generalize (Z.to_nat v). intros n.
  do 16 (destruct n as [|n]; [simpl; tauto|]).
  simpl. tauto.
Qed.

Lemma hex_EncodeToString_chars src c :
  In c (String.list_ascii_of_string (hex_EncodeToString src)) →
  In c (String.list_ascii_of_string hextable).
Proof.
  induction src as [|v src IH]; cbn [hex_EncodeToString String.list_ascii_of_string].
  - intros [].
  - intros [<-|[<-|H]]; [apply hexchar_in_table..|exact (IH H)].
Qed.

(** ** Message fabricator *)

(** C6: for every benchmark name the metadata of [RandomMsg] carries as ID
    the hex encoding of the SHA-1 digest of the name, 40 characters long and
    all of them hexadecimal digits, the same whatever else varies between
    two calls, and [DontTraceSender] is set. The digest is SHA-1: for the
    names listed, of one and of two blocks, the ID is the digest that
    [sha1sum] prints. *)
Theorem RandomMsg_metadata (name : string) (order : list (string * string)) :
  let meta := (RandomMsg name order).1.1 in
  ID meta = hex_EncodeToString (sha1.Sum (bytes_of_string name))
  ∧ String.length (ID meta) = 40
  ∧ (∀ c, In c (String.list_ascii_of_string (ID meta)) →
          In c (String.list_ascii_of_string "0123456789abcdef"))
  ∧ (∀ order', ID (RandomMsg name order').1.1 = ID meta)
  ∧ DontTraceSender meta = true
  ∧ ID (RandomMsg "abc" order).1.1 = "a9993e364706816aba3e25717850c26c9cd0d89d"
  ∧ ID (RandomMsg "BenchmarkDelivery/Start" order).1.1
    = "d4c2d20acb01d939ff4f20d47697fec53df7fa73"
  ∧ ID (RandomMsg "BenchmarkDelivery/Full_transaction" order).1.1
    = "f6a2d3416c24e79d98c666c7c6de2e019ee3ff1f"
  ∧ ID (RandomMsg
          "BenchmarkSQLDelivery/with-a-rather-long-configuration-name/Full_transaction"
          order).1.1
    = "3f25e12f3736edbbf43c88c6e9b847a206e34662".
Proof.
  cbv zeta. unfold RandomMsg. cbn [fst snd ID DontTraceSender].
  split; [reflexivity|]. split.
  { rewrite hex_EncodeToString_length, Sum_length. reflexivity. }
  split.
  { intros c Hc. apply (hex_EncodeToString_chars _ _ Hc). }
  split; [reflexivity|]. split; [reflexivity|].
  split; [vm_compute; reflexivity|]. split; [vm_compute; reflexivity|].
  split; vm_compute; reflexivity.
Qed.

Lemma string_length_app (s1 s2 : string) :
  String.length (s1 +:+ s2) = String.length s1 + String.length s2.
Proof. induction s1 as [|c s1 IH]; simpl; [done|]. by rewrite IH. Qed.

Lemma strings_Repeat_length s n :
  String.length (strings_Repeat s n) = n * String.length s.
Proof.
  induction n as [|n IH]; simpl; [done|].
  by rewrite string_length_app, IH.
Qed.

Lemma bytes_Repeat_length b n : length (bytes_Repeat b n) = n * length b.
Proof.
  unfold bytes_Repeat. induction n as [|n IH]; simpl; [done|].
  by rewrite length_app, IH.
Qed.

Lemma bytes_Repeat_Forall (P : Z → Prop) b n :
  Forall P b → Forall P (bytes_Repeat b n).
Proof.
  intros Hb. unfold bytes_Repeat. induction n as [|n IH]; simpl; [constructor|].
  by apply Forall_app.
Qed.

Lemma bytes_Repeat_single (x : Z) n : bytes_Repeat [x] n = replicate n x.
Proof.
  unfold bytes_Repeat. induction n as [|n IH]; simpl; [done|]. by rewrite IH.
Qed.

(** [CanonicalMIMEHeaderKey] on names of the preamble, on a synthetic name,
    and on names it leaves alone: a canonical one, one with a byte that is
    not a token byte. *)
Example canonical_keys :
  CanonicalMIMEHeaderKey <$> ["From"; "Message-ID"; "MIME-Version";
                              "Content-Transfer-Encoding"; "AAAAAAAAAAAA-12";
                              "content-type"; "a_b-cD"; "x-spam flag"]
  = ["From"; "Message-Id"; "Mime-Version"; "Content-Transfer-Encoding";
     "Aaaaaaaaaaaa-12"; "Content-Type"; "A_b-Cd"; "x-spam flag"].
Proof. vm_compute. reflexivity. Qed.

Lemma foldl_Header_Add (order : list (string * string)) (hdr : Header) :
  foldl (fun hdr kv => Header_Add hdr kv.1 kv.2) hdr order
  = reverse (stored <$> order) ++ hdr.
Proof.
  revert hdr. induction order as [|[k v] order IH]; intros hdr; simpl.
  - reflexivity.
  - rewrite IH. unfold Header_Add. rewrite reverse_cons, <- app_assoc. reflexivity.
Qed.

(** The decimal form of a number is made of digits and a sign: the bytes
    are token bytes and canonicalisation leaves them as they are. *)
Lemma canonical_uint (d : Decimal.uint) (upper : bool) :
  canonical_from upper (NilEmpty.string_of_uint d) = NilEmpty.string_of_uint d
  ∧ forallb validHeaderFieldByte
      (String.list_ascii_of_string (NilEmpty.string_of_uint d)) = true.
Proof.
  revert upper. induction d as [|d IH|d IH|d IH|d IH|d IH|d IH|d IH|d IH|d IH|d IH];
    intros upper; [done|..];
    destruct (IH false) as [H1 H2]; destruct upper;
    (split; [cbn; f_equal; exact H1|cbn; exact H2]).
Qed.

Lemma canonical_Itoa (i : Z) (upper : bool) :
  canonical_from upper (Itoa i) = Itoa i
  ∧ forallb validHeaderFieldByte (String.list_ascii_of_string (Itoa i)) = true.
Proof.
  unfold Itoa.
  assert (H : ∀ d upper,
    canonical_from upper (NilZero.string_of_uint d) = NilZero.string_of_uint d
    ∧ forallb validHeaderFieldByte
        (String.list_ascii_of_string (NilZero.string_of_uint d)) = true).
  { intros d b. destruct d; [by destruct b|apply (canonical_uint (_ d))..]. }
  destruct (Z.to_int i) as [d|d]; cbn [NilZero.string_of_int].
  - apply H.
  - destruct (H d true) as [H1 H2]. destruct upper; (split; [cbn; f_equal; exact H1|exact H2]).
Qed.

Lemma list_ascii_of_string_app (a s : string) :
  String.list_ascii_of_string (a +:+ s)
  = String.list_ascii_of_string a ++ String.list_ascii_of_string s.
Proof. induction a as [|c a IH]; simpl; [done|]. by rewrite IH. Qed.

Lemma canonical_from_app (a s : string) (upper : bool) :
  canonical_from upper (a +:+ s)
  = canonical_from upper a +:+ canonical_from (upper_after upper a) s.
Proof.
  revert upper. induction a as [|c a IH]; intros upper; simpl; [done|]. by rewrite IH.
Qed.

(** The name under which [Add] stores a synthetic field. *)
Lemma canonical_extra_name (i : Z) :
  CanonicalMIMEHeaderKey ("AAAAAAAAAAAA-" +:+ Itoa i) = "Aaaaaaaaaaaa-" +:+ Itoa i.
Proof.
  unfold CanonicalMIMEHeaderKey. destruct (canonical_Itoa i true) as [H1 H2].
  rewrite list_ascii_of_string_app, forallb_app, H2, canonical_from_app.
  change (upper_after true "AAAAAAAAAAAA-") with true. by rewrite H1.
Qed.

Lemma add_extra_fields_app n i hdr :
  add_extra_fields n i hdr = reverse (extra_fields n i) ++ hdr.
Proof.
  revert i hdr. induction n as [|n IH]; intros i hdr.
  - reflexivity.
  - cbn [add_extra_fields]. rewrite IH. unfold Header_Add, extra_fields.
    rewrite canonical_extra_name.
    cbn [seq fmap list_fmap]. rewrite reverse_cons, <- app_assoc.
    rewrite Z.add_0_r. cbn [app]. f_equal. f_equal.
    rewrite <- fmap_S_seq, <- list_fmap_compose.
    apply list_fmap_ext. intros _ k _. cbn. do 3 f_equal. lia.
Qed.

Lemma headerPreamble_to_list : map_to_list headerPreamble ≡ₚ headerPreamble_entries.
Proof.
  apply map_to_list_to_map.
  apply (bool_decide_unpack (NoDup headerPreamble_entries.*1)). vm_compute. reflexivity.
Qed.

Lemma headerPreamble_order (order : list (string * string)) :
  map_range headerPreamble order ↔ order ≡ₚ headerPreamble_entries.
Proof. unfold map_range. by rewrite headerPreamble_to_list. Qed.

Lemma RandomMsg_header name order :
  (RandomMsg name order).1.2
  = reverse (extra_fields (Z.to_nat ExtraMessageHeaderFields) 0)
    ++ reverse (stored <$> order).
Proof.
  unfold RandomMsg. cbn [fst snd].
  by rewrite add_extra_fields_app, foldl_Header_Add, app_nil_r.
Qed.

(** The names in the fabricated header are those of the twenty synthetic
    fields and the canonical forms of the nine preamble names, whatever the
    order; no two are the same. *)
Lemma RandomMsg_header_names name order :
  map_range headerPreamble order →
  (RandomMsg name order).1.2.*1
  ≡ₚ (extra_fields (Z.to_nat ExtraMessageHeaderFields) 0).*1
     ++ (stored <$> headerPreamble_entries).*1.
Proof.
  intros Hrange. apply headerPreamble_order in Hrange.
  by rewrite RandomMsg_header, fmap_app, !fmap_reverse, !reverse_Permutation, Hrange.
Qed.

Lemma RandomMsg_header_NoDup name order :
  map_range headerPreamble order → NoDup (RandomMsg name order).1.2.*1.
Proof.
  intros Hrange. rewrite (RandomMsg_header_names name order Hrange).
  apply (bool_decide_unpack _). vm_compute. reflexivity.
Qed.

Lemma Header_find_NoDup (hdr : Header) ck v :
  NoDup hdr.*1 → (ck, v) ∈ hdr → Header_find hdr ck = v.
Proof.
  induction hdr as [|[k' v'] hdr IH]; intros Hnd Hin.
  - by apply elem_of_nil in Hin.
  - apply NoDup_cons in Hnd as [Hk' Hnd]. cbn [Header_find].
    apply elem_of_cons in Hin as [[= <- <-]|Hin].
    + by rewrite decide_True.
    + rewrite decide_False; [by apply IH|].
      intros ->. apply Hk'. apply list_elem_of_fmap. by exists (ck, v).
Qed.

(** A field that was added is found under the name it was added with. *)
Lemma RandomMsg_header_Get name order k v :
  map_range headerPreamble order →
  stored (k, v) ∈ (RandomMsg name order).1.2 →
  Header_Has (RandomMsg name order).1.2 k = true
  ∧ Header_Get (RandomMsg name order).1.2 k = v.
Proof.
  intros Hrange Hin. split.
  - unfold Header_Has. apply bool_decide_eq_true_2, list_elem_of_fmap.
    by exists (stored (k, v)).
  - unfold Header_Get. apply Header_find_NoDup; [by apply RandomMsg_header_NoDup|exact Hin].
Qed.

(** C7: whatever order the map is visited in, the header is made of exactly
    twenty synthetic fields, each with a value of 100 characters, on top of
    the nine preamble fields: 29 fields, no two under the same name. Every
    preamble field is found, by [Has] and by [Get], under the name the map
    gives it and with the value the map gives it; the header stores it, as
    it stores the synthetic fields, under the canonical form of the name.
    The body is 100*1024 bytes, all the filler byte; reading it in two
    parts, or all at once from a second opening, gives these bytes again. *)
Theorem RandomMsg_envelope_shape (name : string) (order : list (string * string)) :
  map_range headerPreamble order →
  let hdr := (RandomMsg name order).1.2 in
  let body := (RandomMsg name order).2 in
  ∃ extra preamble : Header,
    hdr = extra ++ preamble
    ∧ preamble = reverse (stored <$> order)
    ∧ order.*1 ≡ₚ ["From"; "Message-ID"; "To"; "Date"; "Subject"; "Content-Type";
                    "MIME-Version"; "Content-Transfer-Encoding"; "Received"]
    ∧ preamble.*1 ≡ₚ ["From"; "Message-Id"; "To"; "Date"; "Subject"; "Content-Type";
                       "Mime-Version"; "Content-Transfer-Encoding"; "Received"]
    ∧ length preamble = 9
    ∧ (∀ k v, headerPreamble !! k = Some v →
              Header_Has hdr k = true ∧ Header_Get hdr k = v)
    ∧ Forall (fun k => Header_Has hdr k = true ∧ is_Some (headerPreamble !! k))
        ["From"; "Message-ID"; "To"; "Date"; "Subject"; "Content-Type";
         "MIME-Version"; "Content-Transfer-Encoding"; "Received"]
    ∧ extra.*1
      = reverse ((fun k : nat => "Aaaaaaaaaaaa-" +:+ Itoa (Z.of_nat k)) <$> seq 0 20)
    ∧ (∀ k : nat, k < 20 →
         Header_Get hdr ("AAAAAAAAAAAA-" +:+ Itoa (Z.of_nat k)) = strings_Repeat "A" 100)
    ∧ length extra = 20
    ∧ Forall (fun kv => String.length kv.2 = 100) extra
    ∧ length hdr = 29
    ∧ NoDup hdr.*1
    ∧ Slice body = replicate (Z.to_nat (100 * 1024)) (Z.of_N (N_of_ascii "a"))
    ∧ Z.of_nat (length (Slice body)) = (100 * 1024)%Z
    ∧ (∀ n, (Reader_Read n (MemoryBuffer_Open body)).1
            ++ (Reader_ReadAll (Reader_Read n (MemoryBuffer_Open body)).2).1
            = replicate (Z.to_nat (100 * 1024)) (Z.of_N (N_of_ascii "a")))
    ∧ (Reader_ReadAll (MemoryBuffer_Open body)).1
      = replicate (Z.to_nat (100 * 1024)) (Z.of_N (N_of_ascii "a")).
Proof.
  intros Hrange. cbv zeta.
  pose proof (RandomMsg_header_Get name order) as HGet.
  pose proof (RandomMsg_header_NoDup name order Hrange) as Hnd.
  rewrite RandomMsg_header in *.
  pose proof (proj1 (headerPreamble_order order) Hrange) as Hperm.
  assert (Hlen : length order = 9) by (by rewrite Hperm).
  assert (Hpre : ∀ k v, headerPreamble !! k = Some v →
    Header_Has (reverse (extra_fields (Z.to_nat ExtraMessageHeaderFields) 0)
                ++ reverse (stored <$> order)) k = true
    ∧ Header_Get (reverse (extra_fields (Z.to_nat ExtraMessageHeaderFields) 0)
                  ++ reverse (stored <$> order)) k = v).
  { intros k v Hk. apply HGet; [exact Hrange|].
    apply elem_of_app. right. apply elem_of_reverse, list_elem_of_fmap.
    exists (k, v). split; [reflexivity|].
    unfold map_range in Hrange. rewrite Hrange. by apply elem_of_map_to_list. }
  exists (reverse (extra_fields (Z.to_nat ExtraMessageHeaderFields) 0)),
         (reverse (stored <$> order)).
  split; [reflexivity|]. split; [reflexivity|].
  split; [by rewrite Hperm|].
  split; [by rewrite fmap_reverse, reverse_Permutation, Hperm|].
  split; [by rewrite length_reverse, length_fmap|].
  split; [exact Hpre|].
  split.
  { apply Forall_forall. intros k Hk.
    assert (Hsome : is_Some (headerPreamble !! k)).
    { apply (bool_decide_unpack _).
      repeat (apply elem_of_cons in Hk as [->|Hk]; [vm_compute; reflexivity|]).
      by apply elem_of_nil in Hk. }
    split; [|exact Hsome]. destruct Hsome as [v Hv]. by apply (Hpre k v). }
  split.
  { rewrite fmap_reverse. reflexivity. }
  split.
  { intros k Hk. apply (HGet _ (strings_Repeat "A" 100)); [exact Hrange|].
    apply elem_of_app. left. apply elem_of_reverse.
    unfold stored. cbn [fst snd]. rewrite canonical_extra_name.
    unfold extra_fields. apply list_elem_of_fmap. exists k.
    split; [reflexivity|]. apply elem_of_seq. change (Z.to_nat ExtraMessageHeaderFields) with 20.
    lia. }
  split; [unfold extra_fields; by rewrite length_reverse, length_fmap, length_seq|].
  split.
  { apply Forall_reverse. unfold extra_fields. apply Forall_fmap, Forall_forall. intros k _.
    unfold compose. cbn [snd]. rewrite strings_Repeat_length. reflexivity. }
  split.
  { rewrite length_app, !length_reverse, length_fmap, Hlen. unfold extra_fields.
    by rewrite length_fmap, length_seq. }
  split; [exact Hnd|].
  unfold RandomMsg. cbn [snd fst Slice].
  change (bytes_of_string "a") with [Z.of_N (N_of_ascii "a")].
  rewrite bytes_Repeat_single.
  change (Z.to_nat MessageBodySize) with (Z.to_nat (100 * 1024)).
  split; [reflexivity|].
  split; [rewrite length_replicate; lia|].
  unfold Reader_ReadAll, Reader_Read, MemoryBuffer_Open. cbn [r_data r_off fst snd Slice].
  split.
  - intros n. generalize (replicate (Z.to_nat (100 * 1024)) (Z.of_N (N_of_ascii "a"))).
    intros l. rewrite drop_0. cbn [Nat.add].
    rewrite (take_ge (drop (length (take n l)) l)) by (rewrite length_drop; lia).
    rewrite length_take. destruct (decide (n ≤ length l)).
    + rewrite Nat.min_l by lia. apply take_drop.
    + rewrite Nat.min_r by lia. rewrite take_ge by lia. rewrite drop_all. apply app_nil_r.
  - rewrite Nat.sub_0_r. cbn [drop]. by rewrite firstn_all.
Qed.

Lemma RandomMsg_envelope_shape_witness :
  map_range headerPreamble (map_to_list headerPreamble)
  ∧ length (RandomMsg "BenchmarkDelivery/Start" (map_to_list headerPreamble)).1.2 = 29.
Proof.
  assert (H : map_range headerPreamble (map_to_list headerPreamble))
    by (unfold map_range; reflexivity).
  split; [exact H|].
  destruct (RandomMsg_envelope_shape "BenchmarkDelivery/Start" _ H)
    as (extra & preamble & _ & _ & _ & _ & _ & _ & _ & _ & _ & _ & _ & Hlen & _).
  exact Hlen.
Defined.

(** [Add] stores the preamble fields under names that are still pairwise
    distinct: the stored fields tell the order the map was visited in. *)
Lemma stored_order_inj (order1 order2 : list (string * string)) :
  map_range headerPreamble order1 → map_range headerPreamble order2 →
  stored <$> order1 = stored <$> order2 → order1 = order2.
Proof.
  intros H1 H2. apply headerPreamble_order in H1, H2.
  assert (Hinj : ∀ x y, x ∈ headerPreamble_entries → y ∈ headerPreamble_entries →
                        stored x = stored y → x = y).
  { assert (Hnd : NoDup (stored <$> headerPreamble_entries))
      by (apply (bool_decide_unpack _); vm_compute; reflexivity).
    revert Hnd. generalize headerPreamble_entries as l.
    induction l as [|a l IH]; intros Hnd x y Hx Hy Heq.
    - by apply elem_of_nil in Hx.
    - rewrite fmap_cons in Hnd. apply NoDup_cons in Hnd as [Ha Hnd].
      apply elem_of_cons in Hx as [->|Hx], Hy as [->|Hy].
      + reflexivity.
      + exfalso. apply Ha. rewrite Heq. by apply list_elem_of_fmap_2.
      + exfalso. apply Ha. rewrite <- Heq. by apply list_elem_of_fmap_2.
      + by apply IH. }
  assert (F1 : Forall (fun x => x ∈ headerPreamble_entries) order1).
  { apply Forall_forall. intros x Hx. by rewrite <- H1. }
  assert (F2 : Forall (fun x => x ∈ headerPreamble_entries) order2).
  { apply Forall_forall. intros x Hx. by rewrite <- H2. }
  clear H1 H2. revert order2 F2.
  induction F1 as [|x l1 Hx _ IH]; intros order2 F2 Heq.
  - destruct order2; [done|discriminate Heq].
  - destruct F2 as [|y l2 Hy F2]; [discriminate Heq|].
    rewrite !fmap_cons in Heq. apply (inj2 cons) in Heq as [Hxy Heq].
    f_equal; [by apply Hinj|by apply IH].
Qed.

(** C10: two runs of [RandomMsg] on the same name return the same metadata
    and the same body, both fixed by the code and the name alone, and
    headers with the same fields whose twenty synthetic fields are the same
    and sit at the same places; below them come the nine preamble fields in
    the reverse of the order in which the map was visited, so that the two
    results are equal exactly when the map was visited in the same order
    both times, and two admissible visits give different headers. *)
Theorem RandomMsg_determinism (name : string) (order1 order2 : list (string * string)) :
  map_range headerPreamble order1 →
  map_range headerPreamble order2 →
  let r1 := RandomMsg name order1 in
  let r2 := RandomMsg name order2 in
  r1.1.1 = r2.1.1
  ∧ ID r1.1.1 = ID r2.1.1 ∧ DontTraceSender r1.1.1 = DontTraceSender r2.1.1
  ∧ r1.1.1 = {| DontTraceSender := true;
                ID := hex_EncodeToString (sha1.Sum (bytes_of_string name)) |}
  ∧ Slice r1.2 = Slice r2.2
  ∧ Slice r1.2 = replicate (Z.to_nat (100 * 1024)) (Z.of_N (N_of_ascii "a"))
  ∧ r1.1.2 ≡ₚ r2.1.2
  ∧ take 20 r1.1.2 = take 20 r2.1.2
  ∧ drop 20 r1.1.2 = reverse (stored <$> order1)
  ∧ drop 20 r2.1.2 = reverse (stored <$> order2)
  ∧ (r1.1.2 = r2.1.2 ↔ order1 = order2)
  ∧ (r1 = r2 ↔ order1 = order2)
  ∧ ∃ o1 o2, map_range headerPreamble o1 ∧ map_range headerPreamble o2
             ∧ (RandomMsg name o1).1.2 ≠ (RandomMsg name o2).1.2.
Proof.
  intros H1 H2. cbv zeta.
  assert (Hhdr : (RandomMsg name order1).1.2 = (RandomMsg name order2).1.2 ↔ order1 = order2).
  { split; [|by intros ->]. rewrite !RandomMsg_header. intros Heq.
    apply app_inv_head in Heq. apply (inj reverse) in Heq.
    by apply stored_order_inj. }
  assert (Lx : length (reverse (extra_fields (Z.to_nat ExtraMessageHeaderFields) 0)) = 20).
  { unfold extra_fields. by rewrite length_reverse, length_fmap, length_seq. }
  split; [reflexivity|]. split; [reflexivity|]. split; [reflexivity|].
  split; [reflexivity|]. split; [reflexivity|].
  split.
  { unfold RandomMsg. cbn [snd Slice].
    change (bytes_of_string "a") with [Z.of_N (N_of_ascii "a")].
    by rewrite bytes_Repeat_single. }
  split.
  { rewrite !RandomMsg_header. apply headerPreamble_order in H1, H2.
    by rewrite !reverse_Permutation, H1, H2. }
  split; [by rewrite !RandomMsg_header, !take_app_length'|].
  split; [by rewrite RandomMsg_header, drop_app_length'|].
  split; [by rewrite RandomMsg_header, drop_app_length'|].
  split; [exact Hhdr|].
  split.
  { split; [|by intros ->]. intros Heq. apply Hhdr. by rewrite Heq. }
  exists headerPreamble_entries, (reverse headerPreamble_entries).
  assert (Ha : map_range headerPreamble headerPreamble_entries)
    by (by apply headerPreamble_order).
  assert (Hb : map_range headerPreamble (reverse headerPreamble_entries))
    by (apply headerPreamble_order, reverse_Permutation).
  split; [exact Ha|]. split; [exact Hb|].
  rewrite !RandomMsg_header. intros Heq.
  apply app_inv_head in Heq. apply (inj reverse) in Heq.
  apply (stored_order_inj _ _ Ha Hb) in Heq. discriminate Heq.
Qed.

Lemma RandomMsg_determinism_witness :
  map_range headerPreamble (map_to_list headerPreamble)
  ∧ map_range headerPreamble (reverse (map_to_list headerPreamble))
  ∧ Slice (RandomMsg "BenchmarkDelivery/Body" (map_to_list headerPreamble)).2
    = Slice (RandomMsg "BenchmarkDelivery/Body" (reverse (map_to_list headerPreamble))).2.
Proof.
  assert (H1 : map_range headerPreamble (map_to_list headerPreamble))
    by (unfold map_range; reflexivity).
  assert (H2 : map_range headerPreamble (reverse (map_to_list headerPreamble)))
    by (unfold map_range; apply reverse_Permutation).
  split; [exact H1|]. split; [exact H2|].
  destruct (RandomMsg_determinism "BenchmarkDelivery/Body" _ _ H1 H2)
    as (_ & _ & _ & _ & Hbody & _).
  exact Hbody.
Defined.

(** ** Recipient addresses *)

Lemma to_int_nonnil (i : Z) :
  Z.to_int i ≠ Decimal.Pos Decimal.Nil ∧ Z.to_int i ≠ Decimal.Neg Decimal.Nil.
Proof.
  destruct i as [|p|p]; simpl; split; try discriminate;
    intros H; injection H; apply Unsigned.to_uint_nonnil.
Qed.

Lemma Itoa_inj (i j : Z) : Itoa i = Itoa j → i = j.
Proof.
  unfold Itoa. intros H.
  apply (f_equal NilZero.int_of_string) in H.
  destruct (to_int_nonnil i) as [Hi1 Hi2], (to_int_nonnil j) as [Hj1 Hj2].
  rewrite !NilZero.isi in H by assumption.
  injection H. apply DecimalZ.to_int_inj.
Qed.

Lemma strings_ReplaceAll_placeholder (new s : string) :
  strings_ReplaceAll s "X" new = subst_placeholder new s.
Proof.
  unfold strings_ReplaceAll. induction s as [|c s IH]; [reflexivity|].
  cbn [replace_from subst_placeholder String.prefix String.length Nat.sub].
  destruct (ascii_dec "X" c) as [<-|Hne].
  - rewrite decide_True by reflexivity. destruct s; by rewrite IH.
  - rewrite decide_False by congruence. by rewrite IH.
Qed.

Lemma subst_placeholder_length (new s : string) :
  String.length (subst_placeholder new s) + occurs "X" s
  = String.length s + occurs "X" s * String.length new.
Proof.
  induction s as [|c s IH]; [reflexivity|].
  cbn [subst_placeholder occurs String.length].
  destruct (decide (c = "X"%char)); [rewrite string_length_app|]; simpl; lia.
Qed.

Lemma string_app_inj_length (a b s t : string) :
  String.length a = String.length b → a +:+ s = b +:+ t → a = b.
Proof.
  revert b. induction a as [|c a IH]; intros [|c' b] Hlen Heq; try discriminate Hlen.
  - reflexivity.
  - simpl in Heq, Hlen. injection Heq as -> Heq. injection Hlen as Hlen.
    f_equal. by apply IH.
Qed.

Lemma subst_placeholder_inj (a b s : string) :
  1 ≤ occurs "X" s → String.length a = String.length b →
  subst_placeholder a s = subst_placeholder b s → a = b.
Proof.
  intros Hocc Hlen. induction s as [|c s IH]; [simpl in Hocc; lia|].
  cbn [subst_placeholder occurs] in *.
  destruct (decide (c = "X"%char)).
  - apply string_app_inj_length, Hlen.
  - intros Heq. injection Heq as Heq. apply IH; [lia|done].
Qed.

Lemma fill_template_inj (t : string) (i j : Z) :
  1 ≤ occurs "X" t → fill_template t i = fill_template t j → i = j.
Proof.
  unfold fill_template. rewrite !strings_ReplaceAll_placeholder. intros Hocc Heq.
  apply Itoa_inj, (subst_placeholder_inj _ _ t Hocc); [|exact Heq].
  pose proof (subst_placeholder_length (Itoa i) t) as Li.
  pose proof (subst_placeholder_length (Itoa j) t) as Lj.
  rewrite Heq in Li. nia.
Qed.

Lemma template_at_nonempty (templates : list string) (i : Z) :
  templates ≠ [] → (0 ≤ i)%Z →
  ∃ t, templates !! Z.to_nat (i mod Z.of_nat (length templates)) = Some t
       ∧ template_at templates i = inr t.
Proof.
  intros Hne Hi.
  assert (Hlen : (0 < Z.of_nat (length templates))%Z) by (destruct templates; [done|simpl; lia]).
  unfold template_at, go_rem, go_index.
  rewrite decide_False by lia.
  rewrite Z.rem_mod_nonneg by lia.
  pose proof (Z.mod_pos_bound i _ Hlen) as Hb.
  rewrite decide_True by lia.
  destruct (lookup_lt_is_Some_2 templates (Z.to_nat (i mod Z.of_nat (length templates))))
    as [t Ht]; [lia|].
  exists t. by rewrite Ht.
Qed.

(** C4, as stated, fails: with a digit next to the placeholder of one
    template, iterations 2 and 21 add the same address although every
    template contains the placeholder. *)
Lemma recipients_collide :
  let templates := ["X1@example.org"; "X@example.org"] in
  Forall (fun t => 1 ≤ occurs "X" t) templates
  ∧ addrcpt_recipient templates 2 = inr "21@example.org"
  ∧ addrcpt_recipient templates 21 = inr "21@example.org"
  ∧ ¬ distinct_recipients templates.
Proof.
  cbv zeta. split; [repeat constructor|].
  split; [reflexivity|]. split; [reflexivity|].
  intros H. by apply (H 2%Z 21%Z).
Qed.

(** C9: on an empty template list the index computation of the AddRcpt
    phase is a division by zero, in every iteration, and the phase panics in
    its first iteration once [Start] has succeeded; on a non-empty list the
    index of every iteration lies within the list and the lookup succeeds. *)
Theorem template_index_safety (templates : list string) (i : Z) :
  template_at [] i = inl (Panic "runtime error: integer divide by zero")
  ∧ (∀ (S : Type) (target : DeliveryTarget S) (sender : string) (b : TB)
       (order : list (string * string)) (w : World S) (partial : bool) (σ : S),
       (0 < bN b)%Z →
       Start target (RandomMsg (bName b) order).1.1 sender (backend w) = (inr partial, σ) →
       (phase_AddRcpt target sender [] b order w).1
       = inl (Panic "runtime error: integer divide by zero"))
  ∧ (templates ≠ [] → (0 ≤ i)%Z →
     (0 ≤ Z.rem i (Z.of_nat (length templates)) < Z.of_nat (length templates))%Z
     ∧ ∃ t, template_at templates i = inr t).
Proof.
  split; [reflexivity|]. split.
  - intros S target sender b order w partial σ HN HStart.
    unfold phase_AddRcpt.
    destruct (RandomMsg (bName b) order) as [[meta hdr] body]. cbn [fst] in HStart.
    unfold bind at 1. unfold target_Start. rewrite HStart.
    destruct (Z.to_nat (bN b)) as [|n] eqn:En; [lia|].
    unfold defer. cbn [for_upto]. unfold bind at 1. unfold bind at 1.
    unfold lift.
    change (addrcpt_recipient [] 0)
      with (@inl Exit string (Panic "runtime error: integer divide by zero")).
    cbv iota beta.
    destruct (delivery_Abort _ _ _) as [r w2]. reflexivity.
  - intros Hne Hi.
    assert (Hlen : (0 < Z.of_nat (length templates))%Z)
      by (destruct templates; [done|simpl; lia]).
    split.
    + rewrite Z.rem_mod_nonneg by lia. by apply Z.mod_pos_bound.
    + destruct (template_at_nonempty templates i Hne Hi) as (t & _ & Ht). eauto.
Qed.

Lemma template_index_safety_witness :
  (example_templates ≠ [] ∧ (0 ≤ 5)%Z
   ∧ template_at example_templates 5 = inr "cX@example.org")
  ∧ ((0 < bN (sub_of 1 "AddRcpt").1)%Z
     ∧ (phase_AddRcpt rejecting_target "a@example.org" []
          (sub_of 1 "AddRcpt").1 (sub_of 1 "AddRcpt").2 (start_world tt)).1
       = inl (Panic "runtime error: integer divide by zero")).
Proof.
  assert (H0 : example_templates ≠ []) by discriminate.
  assert (H5 : (0 ≤ 5)%Z) by lia.
  assert (HN : (0 < bN (sub_of 1 "AddRcpt").1)%Z) by (simpl; lia).
  split.
  - split; [exact H0|]. split; [exact H5|].
    destruct (proj2 (proj2 (template_index_safety example_templates 5)) H0 H5)
      as (_ & t & Ht).
    rewrite Ht. vm_compute in Ht. injection Ht as <-. reflexivity.
  - split; [exact HN|].
    exact (proj1 (proj2 (template_index_safety example_templates 5))
             unit rejecting_target "a@example.org" (sub_of 1 "AddRcpt").1
             (sub_of 1 "AddRcpt").2 (start_world tt) false tt HN eq_refl).
Defined.

(** ** Partial-status collector *)

Lemma SetStatus_foldl_snoc (m : gmap string (option error)) l r e :
  foldl (fun m st => SetStatus m st.1 st.2) m (l ++ [(r, e)])
  = SetStatus (foldl (fun m st => SetStatus m st.1 st.2) m l) r e.
Proof. by rewrite foldl_app. Qed.

Lemma SetStatus_lookup (m : gmap string (option error)) r e r' :
  SetStatus m r e !! r' = if decide (r = r') then Some e else m !! r'.
Proof. unfold SetStatus. apply lookup_insert. Qed.

Lemma SetStatus_size_fresh (m : gmap string (option error)) r e :
  m !! r = None → size (SetStatus m r e) = Datatypes.S (size m).
Proof. unfold SetStatus. apply map_size_insert_None. Qed.

Lemma SetStatus_dom (m : gmap string (option error)) r e :
  dom (SetStatus m r e) = {[r]} ∪ dom m.
Proof. unfold SetStatus. apply dom_insert_L. Qed.

(** C8: one [SetStatus] per recipient, for pairwise distinct recipients, on
    an empty collector leaves exactly one entry per recipient, holding the
    outcome reported for it, and no other key. *)
Theorem SetStatus_once_each (reports : list (string * option error)) :
  NoDup reports.*1 →
  let m := foldl (fun m st => SetStatus m st.1 st.2) ∅ reports in
  size m = length reports
  ∧ (∀ r e, (r, e) ∈ reports → m !! r = Some e)
  ∧ (∀ r, r ∉ reports.*1 → m !! r = None)
  ∧ dom m = list_to_set reports.*1.
Proof.
  cbv zeta. induction reports as [|[r e] reports IH] using rev_ind.
  - intros _. simpl. rewrite map_size_empty, dom_empty_L.
    split; [done|]. split; [intros r e H; by apply elem_of_nil in H|]. split; [|done].
    intros r _. apply lookup_empty.
  - rewrite fmap_app, NoDup_app. intros (Hnd & Hfresh & _).
    destruct (IH Hnd) as (Hsize & Hin & Hout & Hdom).
    assert (Hr : r ∉ reports.*1).
    { intros Hr. apply (Hfresh r Hr). simpl. apply list_elem_of_singleton. reflexivity. }
    rewrite SetStatus_foldl_snoc.
    split.
    { rewrite SetStatus_size_fresh by (by apply Hout).
      rewrite length_app, Hsize. simpl. lia. }
    split.
    { intros r' e' [H|H]%elem_of_app; rewrite SetStatus_lookup.
      - rewrite decide_False; [by apply Hin|].
        intros <-. apply Hr. apply (list_elem_of_fmap_2 fst) in H. exact H.
      - apply list_elem_of_singleton in H. injection H as -> ->.
        by rewrite decide_True. }
    split.
    { intros r' Hr'. rewrite SetStatus_lookup, decide_False.
      - apply Hout. intros H. apply Hr'. apply elem_of_app. by left.
      - intros <-. apply Hr'. apply elem_of_app. right. simpl.
        apply list_elem_of_singleton. reflexivity. }
    rewrite SetStatus_dom, Hdom, list_to_set_app_L. simpl.
    rewrite union_empty_r_L. apply union_comm_L.
Qed.

Lemma SetStatus_once_each_witness :
  let reports := [("b0@example.org", None); ("c1@example.org", Some "mailbox full");
                  ("d2@example.org", None)] in
  NoDup reports.*1
  ∧ size (foldl (fun m st => SetStatus m st.1 st.2) ∅ reports) = 3.
Proof.
  cbv zeta.
  assert (H : NoDup [("b0@example.org", None); ("c1@example.org", Some "mailbox full");
                     ("d2@example.org", @None error)].*1).
  { apply (bool_decide_unpack _). vm_compute. reflexivity. }
  split; [exact H|].
  exact (proj1 (SetStatus_once_each _ H)).
Defined.

(** ** Benchmark driver: what a computation appends to the trace *)

Lemma count_app f tr1 tr2 : count f (tr1 ++ tr2) = count f tr1 + count f tr2.
Proof. induction tr1 as [|e tr1 IH]; simpl; [done|]. rewrite IH. lia. Qed.

Lemma count_is_body_out lo hi d evs :
  Forall (in_range lo hi) evs → ¬ (lo ≤ d < hi) → count (is_body d) evs = 0.
Proof.
  intros H Hout. induction H as [|e evs He _ IH]; simpl; [done|].
  rewrite IH. destruct e; simpl in *; try done.
  rewrite bool_decide_eq_false_2; [done|].
  intros ->. apply Hout, He. reflexivity.
Qed.

Lemma body_calls_le_count d tr : body_calls d tr ≤ count (is_body d) tr.
Proof.
  induction tr as [|e tr IH]; simpl; [done|].
  destruct (is_terminal d e); lia.
Qed.

Lemma in_range_mono lo hi lo' hi' e :
  lo' ≤ lo → hi ≤ hi' → in_range lo hi e → in_range lo' hi' e.
Proof. intros ?? H d Hd. specialize (H d Hd). lia. Qed.

Section DriverFacts.

Context {S : Type}.
Variable target : DeliveryTarget S.
Variable sender : string.
Variable recipientTemplates : list string.

Lemma extends_refl k (w : World S) : extends k w w.
Proof. exists []. rewrite app_nil_r. repeat split; [lia|constructor|simpl; lia]. Qed.

Lemma extends_trans k (w1 w2 w3 : World S) :
  extends k w1 w2 → extends k w2 w3 → extends k w1 w3.
Proof.
  intros (e1 & T1 & N1 & R1 & C1) (e2 & T2 & N2 & R2 & C2).
  exists (e1 ++ e2). rewrite T2, T1, app_assoc.
  split; [done|]. split; [lia|]. split.
  - apply Forall_app. split.
    + eapply Forall_impl; [exact R1|]. intros e. apply in_range_mono; lia.
    + eapply Forall_impl; [exact R2|]. intros e. apply in_range_mono; lia.
  - intros d. rewrite count_app.
    destruct (decide (d < nextId w2)) as [Hlt|Hge].
    + rewrite (count_is_body_out _ _ d e2 R2) by lia. specialize (C1 d). lia.
    + rewrite (count_is_body_out _ _ d e1 R1) by lia. specialize (C2 d). lia.
Qed.

Lemma extends_mono k k' (w w' : World S) : k ≤ k' → extends k w w' → extends k' w w'.
Proof.
  intros Hk (evs & T & N & R & C). exists evs. repeat split; try done.
  intros d. specialize (C d). lia.
Qed.

Lemma quiet_mono {A} (Q Q' : Event → Prop) k k' (m : Bench S A) :
  (∀ e, Q e → Q' e) → k ≤ k' → quiet Q k m → quiet Q' k' m.
Proof.
  intros HQ Hk H w. destruct (H w) as (evs & T & N & F & C).
  exists evs. repeat split; try done.
  - eapply Forall_impl; eauto.
  - intros d. specialize (C d). lia.
Qed.

Lemma quiet_pure {A} Q (r : Exit + A) : quiet Q 0 (fun w : World S => (r, w)).
Proof.
  intros w. exists []. simpl. rewrite app_nil_r.
  repeat split; [constructor|simpl; lia].
Qed.

Lemma quiet_bind {A B} Q k1 k2 (m : Bench S A) (f : A → Bench S B) :
  quiet Q k1 m → (∀ a, quiet Q k2 (f a)) → quiet Q (k1 + k2) (bind m f).
Proof.
  intros Hm Hf w. unfold bind.
  destruct (Hm w) as (e1 & T1 & N1 & F1 & C1).
  destruct (m w) as [[e|a] w1]; simpl in *.
  - exists e1. repeat split; try done. intros d. specialize (C1 d). lia.
  - destruct (Hf a w1) as (e2 & T2 & N2 & F2 & C2).
    exists (e1 ++ e2). rewrite T2, T1, app_assoc, N2, N1.
    repeat split; [by apply Forall_app|].
    intros d. rewrite count_app. specialize (C1 d). specialize (C2 d). lia.
Qed.

Lemma quiet_defer {A} Q k1 k2 (f : Bench S unit) (rest : Bench S A) :
  quiet Q k1 rest → quiet Q k2 f → quiet Q (k1 + k2) (defer f rest).
Proof.
  intros Hr Hf w. unfold defer.
  destruct (Hr w) as (e1 & T1 & N1 & F1 & C1).
  destruct (rest w) as [r w1]; simpl in *.
  destruct (Hf w1) as (e2 & T2 & N2 & F2 & C2).
  destruct (f w1) as [u w2]; simpl in *.
  exists (e1 ++ e2). rewrite T2, T1, app_assoc, N2, N1.
  repeat split; [by apply Forall_app|].
  intros d. rewrite count_app. specialize (C1 d). specialize (C2 d). lia.
Qed.

Lemma quiet_for_upto {St} Q k n i (body : Z → St → Bench S St) s :
  (∀ i s, quiet Q k (body i s)) → quiet Q (n * k) (for_upto n i body s).
Proof.
  intros Hb. revert i s. induction n as [|n IH]; intros i s.
  - apply quiet_pure.
  - cbn [for_upto Nat.mul]. apply quiet_bind; [apply Hb|]. intros s'. apply IH.
Qed.

Lemma quiet_for_range {A} Q k (l : list A) i (body : Z → A → Bench S unit) :
  (∀ i x, x ∈ l → quiet Q k (body i x)) → quiet Q (length l * k) (for_range l i body).
Proof.
  revert i. induction l as [|x l IH]; intros i Hb.
  - apply quiet_pure.
  - cbn [for_range length Nat.mul]. apply quiet_bind.
    + apply Hb. by left.
    + intros _. apply IH. intros j y Hy. apply Hb. by right.
Qed.

Lemma quiet_fatal_on Q res : quiet Q 0 (fatal_on (S := S) res).
Proof. destruct res; apply quiet_pure. Qed.

Lemma quiet_skip_unless Q c msg : quiet Q 0 (skip_unless (S := S) c msg).
Proof. unfold skip_unless. destruct c; apply quiet_pure. Qed.

Lemma quiet_AddRcpt (Q : Event → Prop) d rcpt :
  (∀ res, Q (EvAddRcpt (d_id d) rcpt res)) → quiet Q 0 (delivery_AddRcpt target d rcpt).
Proof.
  intros HQ w. unfold delivery_AddRcpt.
  destruct (AddRcpt target _ _ _) as [res σ]. simpl.
  exists [EvAddRcpt (d_id d) rcpt res]. repeat split; [by repeat constructor|].
  intros d'. simpl. lia.
Qed.

Lemma quiet_Body (Q : Event → Prop) d hdr body :
  (∀ res, Q (EvBody (d_id d) hdr body res)) → quiet Q 1 (delivery_Body target d hdr body).
Proof.
  intros HQ w. unfold delivery_Body.
  destruct (Body target _ _ _ _) as [res σ]. simpl.
  exists [EvBody (d_id d) hdr body res]. repeat split; [by repeat constructor|].
  intros d'. simpl. case_bool_decide; lia.
Qed.

Lemma quiet_BodyNonAtomic (Q : Event → Prop) d sc hdr body :
  (∀ sts, Q (EvBodyNonAtomic (d_id d) sc hdr body sts)) →
  quiet Q 0 (delivery_BodyNonAtomic target d sc hdr body).
Proof.
  intros HQ w. unfold delivery_BodyNonAtomic.
  destruct (BodyNonAtomic target _ _ _ _) as [sts σ]. simpl.
  exists [EvBodyNonAtomic (d_id d) sc hdr body sts]. repeat split; [by repeat constructor|].
  intros d'. simpl. lia.
Qed.

Lemma quiet_Commit (Q : Event → Prop) d :
  (∀ res, Q (EvCommit (d_id d) res)) → quiet Q 0 (delivery_Commit target d).
Proof.
  intros HQ w. unfold delivery_Commit.
  destruct (Commit target _ _) as [res σ]. simpl.
  exists [EvCommit (d_id d) res]. repeat split; [by repeat constructor|].
  intros d'. simpl. lia.
Qed.

Lemma quiet_Abort (Q : Event → Prop) d :
  Q (EvAbort (d_id d)) → quiet Q 0 (delivery_Abort target d).
Proof.
  intros HQ w. unfold delivery_Abort.
  destruct (Abort target _ _) as [res σ]. simpl.
  exists [EvAbort (d_id d)]. repeat split; [by repeat constructor|].
  intros d'. simpl. lia.
Qed.

Lemma quiet_add_all_recipients d :
  quiet (fun e => ev_id e = Some (d_id d)) 0 (add_all_recipients target recipientTemplates d).
Proof.
  unfold add_all_recipients.
  apply (quiet_mono (fun e => ev_id e = Some (d_id d)) _
           (length recipientTemplates * 0) 0); [auto|lia|].
  apply quiet_for_range.
  intros i x _. apply (quiet_bind _ 0 0); [by apply quiet_AddRcpt|].
  intros res. apply quiet_fatal_on.
Qed.

Lemma extends_then_quiet {A} k k' (w w1 : World S) (m : Bench S A) :
  extends k w w1 → quiet (in_range (nextId w) (nextId w1)) k' m →
  extends (k + k') w (m w1).2.
Proof.
  intros (e1 & T1 & N1 & R1 & C1) Hm.
  destruct (Hm w1) as (e2 & T2 & N2 & R2 & C2).
  exists (e1 ++ e2). rewrite T2, T1, app_assoc, N2.
  repeat split; [done|by apply Forall_app|].
  intros d. rewrite count_app. specialize (C1 d). specialize (C2 d). lia.
Qed.

Lemma bind_extends {A B} k (m : Bench S A) (f : A → Bench S B) w :
  extends k w (m w).2 → (∀ a w1, extends k w1 (f a w1).2) → extends k w (bind m f w).2.
Proof.
  intros Hm Hf. unfold bind. destruct (m w) as [[e|a] w1]; simpl in *; [done|].
  eapply extends_trans; [exact Hm|apply Hf].
Qed.

(** [Start] logs one event; a delivery it returns is the next fresh one. *)
Lemma target_Start_spec meta (w : World S) :
  ∃ r w1, target_Start target sender meta w = (inr r, w1)
    ∧ extends 0 w w1
    ∧ match r with
      | inl _ => nextId w1 = nextId w
      | inr d => d_id d = nextId w ∧ nextId w1 = Datatypes.S (nextId w)
      end.
Proof.
  unfold target_Start. destruct (Start target meta sender (backend w)) as [[err|p] σ].
  - eexists _, _. split; [reflexivity|]. split; [|reflexivity].
    exists [EvStartFailed err]. simpl. repeat split; [lia| |intros; lia].
    constructor; [|constructor]. intros d Hd. discriminate Hd.
  - eexists _, _. split; [reflexivity|]. split; [|done].
    exists [EvStart (nextId w) p]. simpl. repeat split; [lia| |intros; lia].
    constructor; [|constructor]. intros d Hd. injection Hd as <-. lia.
Qed.

(** [Start], [b.Fatal] on failure, then calls on the new delivery only. *)
Lemma started_extends {A} meta k (rest : Delivery → Bench S A) w :
  (∀ d, quiet (fun e => ev_id e = Some (d_id d)) k (rest d)) →
  extends k w
    (bind (target_Start target sender meta)
       (fun r => match r with inl err => b_Fatal err | inr d => rest d end) w).2.
Proof.
  intros Hrest. unfold bind.
  destruct (target_Start_spec meta w) as (r & w1 & -> & Hext & Hr).
  destruct r as [err|d]; simpl.
  - by apply (extends_mono 0); [lia|].
  - destruct Hr as [Hd Hn].
    apply (extends_then_quiet 0 k w w1 (rest d) Hext).
    eapply quiet_mono; [|reflexivity|apply Hrest].
    intros e He d' Hd'. rewrite He in Hd'. injection Hd' as <-. lia.
Qed.

Lemma for_upto_ind {St} (I : St → World S → Prop) (E : World S → Prop)
    (body : Z → St → Bench S St) :
  (∀ i s w, I s w →
     match body i s w with (inr s', w') => I s' w' | (inl _, w') => E w' end) →
  ∀ n i s w, I s w →
     match for_upto n i body s w with (inr s', w') => I s' w' | (inl _, w') => E w' end.
Proof.
  intros Hb. induction n as [|n IH]; intros i s w HI; [exact HI|].
  cbn [for_upto]. unfold bind. specialize (Hb i s w HI).
  destruct (body i s w) as [[e|s'] w']; [exact Hb|]. by apply IH.
Qed.

Lemma skip_unless_extends k c msg (rest : Bench S unit) w :
  (c = true → extends k w (rest w).2) →
  extends k w (bind (skip_unless c msg) (fun _ => rest) w).2.
Proof.
  intros H. unfold bind, skip_unless. destruct c; simpl; [by apply H|apply extends_refl].
Qed.

Lemma phase_Start_extends b order w :
  extends 0 w (phase_Start target sender b order w).2.
Proof.
  unfold phase_Start. destruct (RandomMsg (bName b) order) as [[meta hdr] body].
  unfold bind at 1.
  pose proof (for_upto_ind
    (fun ds w1 => extends 0 w w1 ∧ Forall (fun d => nextId w ≤ d_id d < nextId w1) ds)
    (fun w1 => extends 0 w w1)
    (fun (i : Z) deliveries =>
       bind (target_Start target sender meta)
         (fun r => match r with
                   | inl err => b_Fatal err
                   | inr delivery => ret (deliveries ++ [delivery])
                   end))) as Hloop.
  specialize (Hloop ltac:(
    intros i ds w1 [Hext Hds]; unfold bind;
    destruct (target_Start_spec meta w1) as (r & w2 & -> & Hext2 & Hr);
    pose proof (extends_trans 0 _ _ _ Hext Hext2) as Hext';
    destruct r as [err|d]; simpl; [exact Hext'|];
    destruct Hr as [Hd Hn]; destruct Hext as (_ & _ & Hle & _);
    split; [exact Hext'|];
    apply Forall_app; split;
      [eapply Forall_impl; [exact Hds|]; simpl; intros; lia
      |repeat constructor; lia])
    (Z.to_nat (bN b)) 0%Z [] w (conj (extends_refl 0 w) (Forall_nil_2 _))).
  destruct (for_upto _ _ _ _ _) as [[e|ds] w1]; simpl; [exact Hloop|].
  destruct Hloop as [Hext Hds].
  apply (extends_then_quiet 0 0 w w1 _ Hext).
  eapply quiet_mono; [| |apply (quiet_for_range
      (fun e => ∃ d, d ∈ ds ∧ ev_id e = Some (d_id d)) 0)].
  - intros e (d & Hd & He) d' Hd'. rewrite He in Hd'. injection Hd' as <-.
    rewrite Forall_forall in Hds. by apply Hds.
  - lia.
  - intros i d Hd. apply quiet_Abort. eauto.
Qed.

Lemma phase_AddRcpt_extends b order w :
  extends 0 w (phase_AddRcpt target sender recipientTemplates b order w).2.
Proof.
  unfold phase_AddRcpt. destruct (RandomMsg (bName b) order) as [[meta hdr] body].
  apply started_extends. intros d.
  eapply quiet_mono; [| |apply (quiet_defer _ (Z.to_nat (bN b) * 0) 0)].
  - intros e He. exact He.
  - lia.
  - apply quiet_for_upto. intros i _.
    apply (quiet_bind _ 0 0); [apply quiet_pure|]. intros rcpt.
    apply (quiet_bind _ 0 0); [by apply quiet_AddRcpt|]. intros res. apply quiet_fatal_on.
  - by apply quiet_Abort.
Qed.

Lemma phase_Body_extends (idempotentBody : bool) b order w :
  extends (if idempotentBody then Z.to_nat (bN b) else 0) w
    (phase_Body target idempotentBody sender recipientTemplates b order w).2.
Proof.
  unfold phase_Body. apply skip_unless_extends. intros ->.
  destruct (RandomMsg (bName b) order) as [[meta hdr] body].
  apply started_extends. intros d.
  eapply quiet_mono; [| |apply (quiet_defer _ (0 + Z.to_nat (bN b) * 1) 0)].
  - intros e He. exact He.
  - lia.
  - apply quiet_bind; [apply quiet_add_all_recipients|]. intros _.
    apply quiet_for_upto. intros i _.
    apply (quiet_bind _ 1 0); [by apply quiet_Body|]. intros res. apply quiet_fatal_on.
  - by apply quiet_Abort.
Qed.

Lemma phase_BodyNonAtomic_extends (idempotentBody : bool) b order w :
  extends 0 w
    (phase_BodyNonAtomic target idempotentBody sender recipientTemplates b order w).2.
Proof.
  unfold phase_BodyNonAtomic. apply skip_unless_extends. intros _.
  destruct (RandomMsg (bName b) order) as [[meta hdr] body].
  apply started_extends. intros d.
  eapply quiet_mono; [| |apply (quiet_defer _ (0 + (0 + (Z.to_nat (bN b) * 0 + 0))) 0)].
  - intros e He. exact He.
  - lia.
  - apply quiet_bind; [apply quiet_skip_unless|]. intros _.
    apply quiet_bind; [apply quiet_add_all_recipients|]. intros _.
    apply quiet_bind; [|intros; apply quiet_pure].
    apply quiet_for_upto. intros i sc. by apply quiet_BodyNonAtomic.
  - by apply quiet_Abort.
Qed.

Lemma phase_Full_extends b order w :
  extends 1 w (phase_Full target sender recipientTemplates b order w).2.
Proof.
  unfold phase_Full. destruct (RandomMsg (bName b) order) as [[meta hdr] body].
  pose proof (for_upto_ind (fun (_ : unit) w1 => extends 1 w w1) (fun w1 => extends 1 w w1)
    (fun (i : Z) (_ : unit) =>
       bind (target_Start target sender meta)
         (fun r => match r with
                   | inl err => b_Fatal err
                   | inr delivery =>
                       bind (add_all_recipients target recipientTemplates delivery) (fun _ =>
                       bind (delivery_Body target delivery hdr body) (fun err =>
                       bind (fatal_on err) (fun _ =>
                       bind (delivery_Commit target delivery) (fun err => fatal_on err))))
                   end))) as Hloop.
  specialize (Hloop ltac:(
    intros i s w1 Hext;
    match goal with |- match ?m w1 with _ => _ end =>
      assert (Hstep : extends 1 w1 (m w1).2);
      [|destruct (m w1) as [[e|s'] w2]; simpl in Hstep;
        exact (extends_trans 1 _ _ _ Hext Hstep)]
    end;
    apply started_extends; intros d;
    apply (quiet_bind _ 0 1); [apply quiet_add_all_recipients|]; intros _;
    apply (quiet_bind _ 1 0); [by apply quiet_Body|]; intros res;
    apply (quiet_bind _ 0 0); [apply quiet_fatal_on|]; intros _;
    apply (quiet_bind _ 0 0); [by apply quiet_Commit|]; intros res';
    apply quiet_fatal_on)
    (Z.to_nat (bN b)) 0%Z tt w (extends_refl 1 w)).
  destruct (for_upto _ _ _ _ _) as [[e|s'] w1]; exact Hloop.
Qed.

End DriverFacts.

(** ** Atomic body submissions per transaction *)

(** C2, as stated, fails: with [idempotentBody] set and [b.N = 2], the Body
    phase calls [Body] twice on the one delivery it starts, before aborting
    it. *)
Lemma body_phase_repeats_Body :
  let tr := trace (phase_Body accepting_target true "a@example.org" example_templates
                     (sub_of 2 "Body").1 (sub_of 2 "Body").2 (start_world [])).2 in
  count (is_start 0) tr = 1 ∧ body_calls 0 tr = 2 ∧ ¬ body_at_most_once tr.
Proof.
  cbv zeta. split; [vm_compute; reflexivity|].
  assert (H : body_calls 0 (trace (phase_Body accepting_target true "a@example.org"
                example_templates (sub_of 2 "Body").1 (sub_of 2 "Body").2
                (start_world [])).2) = 2)
    by (vm_compute; reflexivity).
  split; [exact H|]. intros Hc. specialize (Hc 0). rewrite H in Hc. lia.
Qed.

(** C2, amended: whatever the backend answers, every sub-benchmark calls
    only deliveries it has started itself; the Start, AddRcpt and
    BodyNonAtomic phases make no atomic [Body] call, the Full transaction
    phase at most one on any one delivery, and the Body phase none when
    [idempotentBody] is unset, when it makes no call at all, and at most
    [b.N] on any one delivery, so on the one it starts, when it is set;
    counted before the terminal call of the delivery the bounds are the
    same. *)
Theorem Body_calls_per_delivery {S : Type} (target : DeliveryTarget S)
    (idempotentBody : bool) (sender : string) (recipientTemplates : list string)
    (b : TB) (order : list (string * string)) (w : World S) :
  extends 0 w (phase_Start target sender b order w).2
  ∧ extends 0 w (phase_AddRcpt target sender recipientTemplates b order w).2
  ∧ extends 0 w (phase_BodyNonAtomic target idempotentBody sender recipientTemplates
                   b order w).2
  ∧ extends 1 w (phase_Full target sender recipientTemplates b order w).2
  ∧ extends (if idempotentBody then Z.to_nat (bN b) else 0) w
      (phase_Body target idempotentBody sender recipientTemplates b order w).2
  ∧ (∀ d evs,
       trace (phase_Full target sender recipientTemplates b order w).2 = trace w ++ evs →
       body_calls d evs ≤ 1)
  ∧ (∀ d evs,
       trace (phase_Body target idempotentBody sender recipientTemplates b order w).2
       = trace w ++ evs →
       body_calls d evs ≤ (if idempotentBody then Z.to_nat (bN b) else 0))
  ∧ phase_Body target false sender recipientTemplates b order w
    = (inl (Skipped "Non-idempotent Body implementation"), w).
Proof.
  pose proof (phase_Full_extends target sender recipientTemplates b order w) as HF.
  pose proof (phase_Body_extends target sender recipientTemplates idempotentBody b order w)
    as HB.
  split; [apply phase_Start_extends|]. split; [apply phase_AddRcpt_extends|].
  split; [apply phase_BodyNonAtomic_extends|]. split; [exact HF|]. split; [exact HB|].
  split; [|split; [|reflexivity]].
  - intros d evs T. destruct HF as (evs' & T' & _ & _ & C).
    rewrite T' in T. apply app_inv_head in T. subst evs'.
    etrans; [apply body_calls_le_count|]. apply C.
  - intros d evs T. destruct HB as (evs' & T' & _ & _ & C).
    rewrite T' in T. apply app_inv_head in T. subst evs'.
    etrans; [apply body_calls_le_count|]. apply C.
Qed.

(** ** What a sub-benchmark appends to the trace, as a list *)

Section Emits.

Context {S : Type}.
Variable target : DeliveryTarget S.
Variable sender : string.
Variable recipientTemplates : list string.

Lemma emits_pure {A} (P : list Event → Prop) (r : Exit + A) :
  P [] → emits P (fun w : World S => (r, w)).
Proof. intros HP w. exists []. simpl. by rewrite app_nil_r. Qed.

Lemma emits_mono {A} (P P' : list Event → Prop) (m : Bench S A) :
  (∀ evs, P evs → P' evs) → emits P m → emits P' m.
Proof. intros HP H w. destruct (H w) as (evs & T & HP1). eauto. Qed.

Lemma emits_bind {A B} (P1 P2 P3 : list Event → Prop) (m : Bench S A) (f : A → Bench S B) :
  emits P1 m → (∀ a, emits P2 (f a)) →
  (∀ e1, P1 e1 → P3 e1) → (∀ e1 e2, P1 e1 → P2 e2 → P3 (e1 ++ e2)) →
  emits P3 (bind m f).
Proof.
  intros Hm Hf H1 H12 w. unfold bind.
  destruct (Hm w) as (e1 & T1 & HP1).
  destruct (m w) as [[e|a] w1]; simpl in *; [eauto|].
  destruct (Hf a w1) as (e2 & T2 & HP2).
  exists (e1 ++ e2). rewrite T2, T1, app_assoc. eauto.
Qed.

Lemma emits_defer {A} (P1 P2 P3 : list Event → Prop) (f : Bench S unit) (rest : Bench S A) :
  emits P1 rest → emits P2 f → (∀ e1 e2, P1 e1 → P2 e2 → P3 (e1 ++ e2)) →
  emits P3 (defer f rest).
Proof.
  intros Hr Hf H12 w. unfold defer.
  destruct (Hr w) as (e1 & T1 & HP1). destruct (rest w) as [r w1]; simpl in *.
  destruct (Hf w1) as (e2 & T2 & HP2). destruct (f w1) as [u w2]; simpl in *.
  exists (e1 ++ e2). rewrite T2, T1, app_assoc. eauto.
Qed.

Lemma quiet_emits {A} Q k (m : Bench S A) : quiet Q k m → emits (Forall Q) m.
Proof. intros H w. destruct (H w) as (evs & T & _ & F & _). eauto. Qed.

Lemma emits_Start meta :
  emits (fun evs => ∃ e, evs = [e] ∧ not_BodyNonAtomic e) (target_Start target sender meta).
Proof.
  intros w. unfold target_Start.
  destruct (Start target meta sender (backend w)) as [[err|p] σ]; simpl;
    eexists; (split; [reflexivity|]); eexists; (split; [reflexivity|]); exact I.
Qed.

Lemma emits_Abort d :
  emits (fun evs => evs = [EvAbort (d_id d)]) (delivery_Abort target d).
Proof.
  intros w. unfold delivery_Abort. destruct (Abort target _ _) as [res σ]. simpl. eauto.
Qed.

Lemma emits_add_all_recipients d :
  emits (Forall not_BodyNonAtomic) (add_all_recipients target recipientTemplates d).
Proof.
  apply (quiet_emits _ (length recipientTemplates * 0)).
  unfold add_all_recipients. apply quiet_for_range.
  intros i x _. apply (quiet_bind _ 0 0); [by apply quiet_AddRcpt|].
  intros res. apply quiet_fatal_on.
Qed.

Lemma collectors_chained_quiet sc evs :
  Forall not_BodyNonAtomic evs → collectors_chained sc evs.
Proof. induction 1 as [|e evs He _ IH]; [exact I|]. by destruct e. Qed.

Lemma collectors_chained_app_l sc pre evs :
  Forall not_BodyNonAtomic pre → collectors_chained sc evs →
  collectors_chained sc (pre ++ evs).
Proof. induction 1 as [|e pre He _ IH]; [done|]. intros H. by destruct e; simpl; auto. Qed.

Lemma collectors_chained_app_r sc evs post :
  collectors_chained sc evs → Forall not_BodyNonAtomic post →
  collectors_chained sc (evs ++ post).
Proof.
  revert sc. induction evs as [|e evs IH]; intros sc H Hpost; simpl.
  - by apply collectors_chained_quiet.
  - destruct e; simpl in *; try (by apply IH).
    destruct H as [-> H]. split; [done|]. by apply IH.
Qed.

(** The timed loop of the BodyNonAtomic phase hands every call the
    collector as the calls before it left it. *)
Lemma emits_BodyNonAtomic_loop d hdr body n i sc :
  emits (collectors_chained sc)
    (for_upto n i (fun _ sc => delivery_BodyNonAtomic target d sc hdr body) sc).
Proof.
  revert i sc. induction n as [|n IH]; intros i sc.
  - by apply emits_pure.
  - cbn [for_upto]. intros w. unfold bind, delivery_BodyNonAtomic at 1.
    destruct (BodyNonAtomic target _ _ _ _) as [sts σ]. simpl.
    match goal with |- context [for_upto n _ _ ?sc' ?w'] =>
      destruct (IH (i + 1)%Z sc' w') as (evs & T & Hc) end.
    eexists (_ :: evs). rewrite T. simpl. rewrite <- app_assoc. simpl.
    split; [reflexivity|]. split; [reflexivity|exact Hc].
Qed.

End Emits.

Section Deferred.

Context {S : Type}.
Variable target : DeliveryTarget S.
Variable sender : string.
Variable recipientTemplates : list string.

Lemma count_neutral d evs :
  Forall neutral evs → count (is_start d) evs = 0 ∧ count (is_terminal d) evs = 0.
Proof.
  induction 1 as [|e evs He _ [IH1 IH2]]; [done|].
  simpl. rewrite IH1, IH2. by destruct e.
Qed.

Lemma balanced_started n p evs :
  Forall neutral evs → balanced (EvStart n p :: evs ++ [EvAbort n]).
Proof.
  intros H d. simpl. rewrite !count_app.
  destruct (count_neutral d evs H) as [-> ->]. simpl. lia.
Qed.

Lemma balanced_discipline tr : balanced tr → resource_discipline tr.
Proof. intros H d Hd. by rewrite <- H. Qed.

Lemma rcpts_of_app tr1 tr2 : rcpts_of (tr1 ++ tr2) = rcpts_of tr1 ++ rcpts_of tr2.
Proof. unfold rcpts_of. apply bind_app. Qed.

(** [Start], [b.Fatal] on failure, then [rest] on the new delivery. *)
Lemma started_emits {A} meta (P : nat → list Event → Prop) (P3 : list Event → Prop)
    (rest : Delivery → Bench S A) :
  (∀ d, emits (P (d_id d)) (rest d)) →
  (∀ err, P3 [EvStartFailed err]) →
  (∀ n p evs, P n evs → P3 (EvStart n p :: evs)) →
  emits P3 (bind (target_Start target sender meta)
              (fun r => match r with inl err => b_Fatal err | inr d => rest d end)).
Proof.
  intros Hrest Hfail Hok w. unfold bind, target_Start.
  destruct (Start target meta sender (backend w)) as [[err|p] σ]; simpl.
  - eexists. split; [reflexivity|]. apply Hfail.
  - match goal with |- context [rest ?d ?w1] =>
      destruct (Hrest d w1) as (evs & T & HP) end.
    exists (EvStart (nextId w) p :: evs). rewrite T. simpl.
    rewrite <- app_assoc. split; [reflexivity|]. by apply Hok.
Qed.

Lemma emits_deferred_Abort {A} d (rest : Bench S A) (P : list Event → Prop) :
  emits P rest →
  emits (fun evs => ∃ evs', evs = evs' ++ [EvAbort (d_id d)] ∧ P evs')
    (defer (delivery_Abort target d) rest).
Proof.
  intros H. eapply emits_defer; [exact H|apply emits_Abort|].
  intros e1 ? H1 ->. eauto.
Qed.

Lemma quiet_neutral_add_all_recipients d k :
  quiet neutral k (add_all_recipients target recipientTemplates d).
Proof.
  apply (quiet_mono neutral _ (length recipientTemplates * 0)); [auto|lia|].
  unfold add_all_recipients. apply quiet_for_range.
  intros i x _. apply (quiet_bind _ 0 0); [by apply quiet_AddRcpt|].
  intros res. apply quiet_fatal_on.
Qed.

(** The phases that defer [Abort] right after [Start] give every delivery
    they start exactly one terminal call, whatever the backend answers. *)
Lemma deferred_phases_discipline (idempotentBody : bool) b order :
  emits (fun evs => balanced evs ∧ resource_discipline evs)
    (phase_AddRcpt target sender recipientTemplates b order)
  ∧ emits (fun evs => balanced evs ∧ resource_discipline evs)
      (phase_Body target idempotentBody sender recipientTemplates b order)
  ∧ emits (fun evs => balanced evs ∧ resource_discipline evs)
      (phase_BodyNonAtomic target idempotentBody sender recipientTemplates b order).
Proof.
  assert (Hfin : ∀ {A} meta (rest : Delivery → Bench S A),
    (∀ d, emits (Forall neutral) (rest d)) →
    emits (fun evs => balanced evs ∧ resource_discipline evs)
      (bind (target_Start target sender meta)
         (fun r => match r with
                   | inl err => b_Fatal err
                   | inr d => defer (delivery_Abort target d) (rest d)
                   end))).
  { intros A meta rest Hrest.
    apply (emits_mono balanced); [intros evs H; split; [done|by apply balanced_discipline]|].
    apply (started_emits meta
             (fun n evs => ∃ evs', evs = evs' ++ [EvAbort n] ∧ Forall neutral evs')).
    - intros d. apply emits_deferred_Abort, Hrest.
    - intros err d. reflexivity.
    - intros n p evs (evs' & -> & H). by apply balanced_started. }
  assert (Hskip : ∀ c msg (rest : Bench S unit),
    emits (fun evs => balanced evs ∧ resource_discipline evs) rest →
    emits (fun evs => balanced evs ∧ resource_discipline evs)
      (bind (skip_unless c msg) (fun _ => rest))).
  { intros c msg rest H.
    apply (emits_bind (fun evs => evs = []) (fun evs => balanced evs ∧ resource_discipline evs)).
    - unfold skip_unless. destruct c; by apply emits_pure.
    - intros _. exact H.
    - intros ? ->. split; [intros d; reflexivity|intros d Hd; discriminate Hd].
    - by intros ? ? ->. }
  split; [|split].
  - unfold phase_AddRcpt. destruct (RandomMsg (bName b) order) as [[meta hdr] body].
    apply Hfin. intros d. apply (quiet_emits _ (Z.to_nat (bN b) * 0)).
    apply quiet_for_upto. intros i _.
    apply (quiet_bind _ 0 0); [apply quiet_pure|]. intros rcpt.
    apply (quiet_bind _ 0 0); [by apply quiet_AddRcpt|]. intros res. apply quiet_fatal_on.
  - unfold phase_Body. apply Hskip.
    destruct (RandomMsg (bName b) order) as [[meta hdr] body].
    apply Hfin. intros d. apply (quiet_emits _ (0 + Z.to_nat (bN b) * 1)).
    apply quiet_bind; [apply quiet_neutral_add_all_recipients|]. intros _.
    apply quiet_for_upto. intros i _.
    apply (quiet_bind _ 1 0); [by apply quiet_Body|]. intros res. apply quiet_fatal_on.
  - unfold phase_BodyNonAtomic. apply Hskip.
    destruct (RandomMsg (bName b) order) as [[meta hdr] body].
    apply Hfin. intros d. apply (quiet_emits _ (0 + (0 + (Z.to_nat (bN b) * 0 + 0)))).
    apply quiet_bind; [apply quiet_skip_unless|]. intros _.
    apply quiet_bind; [apply quiet_neutral_add_all_recipients|]. intros _.
    apply quiet_bind; [|intros; apply quiet_pure].
    apply quiet_for_upto. intros i sc. by apply quiet_BodyNonAtomic.
Qed.

Lemma for_upto_S {St} n i (body : Z → St → Bench S St) s w :
  for_upto (Datatypes.S n) i body s w
  = match body i s w with
    | (inl e, w') => (inl e, w')
    | (inr s', w') => for_upto n (i + 1) body s' w'
    end.
Proof. reflexivity. Qed.

(** One iteration of the timed loop of the AddRcpt phase. *)
Lemma addrcpt_iteration d i w :
  match addrcpt_recipient recipientTemplates i with
  | inl e =>
      bind (lift (addrcpt_recipient recipientTemplates i)) (fun rcpt =>
      bind (delivery_AddRcpt target d rcpt) (fun err => fatal_on err)) w = (inl e, w)
  | inr rcpt =>
      ∃ res σ,
        bind (lift (addrcpt_recipient recipientTemplates i)) (fun rcpt =>
        bind (delivery_AddRcpt target d rcpt) (fun err => fatal_on err)) w
        = (match res with Some err => inl (Fatal err) | None => inr tt end,
           {| backend := σ; trace := trace w ++ [EvAddRcpt (d_id d) rcpt res];
              nextId := nextId w |})
  end.
Proof.
  unfold bind, lift, delivery_AddRcpt.
  destruct (addrcpt_recipient recipientTemplates i) as [e|rcpt]; [reflexivity|].
  destruct (AddRcpt target (d_id d) rcpt (backend w)) as [res σ].
  exists res, σ. by destruct res.
Qed.

(** The timed loop of the AddRcpt phase passes to [AddRcpt], iteration after
    iteration from [i] on, the recipient computed for that iteration. *)
Lemma addrcpt_loop_recipients d n i :
  emits (fun evs => Forall neutral evs ∧ ∃ k, k ≤ n
           ∧ inr <$> rcpts_of evs
             = addrcpt_recipient recipientTemplates <$> seqZ i (Z.of_nat k))
    (for_upto n i (fun i _ =>
       bind (lift (addrcpt_recipient recipientTemplates i)) (fun rcpt =>
       bind (delivery_AddRcpt target d rcpt) (fun err => fatal_on err))) tt).
Proof.
  revert i. induction n as [|n IH]; intros i w.
  - exists []. simpl. rewrite app_nil_r. split; [done|]. split; [constructor|].
    exists 0. split; [lia|reflexivity].
  - rewrite for_upto_S. pose proof (addrcpt_iteration d i w) as Hstep.
    destruct (addrcpt_recipient recipientTemplates i) as [e|rcpt] eqn:Ercpt.
    { rewrite Hstep. exists []. simpl. rewrite app_nil_r. split; [done|].
      split; [constructor|]. exists 0. split; [lia|reflexivity]. }
    destruct Hstep as (res & σ & ->).
    assert (Hone : inr <$> rcpts_of [EvAddRcpt (d_id d) rcpt res]
                   = addrcpt_recipient recipientTemplates <$> seqZ i (Z.of_nat 1)).
    { rewrite seqZ_cons by lia. simpl. by rewrite Ercpt. }
    destruct res as [err|].
    { eexists [_]. split; [reflexivity|]. split; [by repeat constructor|].
      exists 1. split; [lia|exact Hone]. }
    match goal with |- context [for_upto n _ _ tt ?w1] =>
      destruct (IH (i + 1)%Z w1) as (evs & T & Hn & k & Hk & Hr) end.
    eexists (_ :: evs). rewrite T. cbn [trace]. rewrite <- app_assoc.
    split; [reflexivity|]. split; [by constructor|].
    exists (Datatypes.S k). split; [lia|].
    rewrite seqZ_cons by lia.
    replace (Z.pred (Z.of_nat (Datatypes.S k))) with (Z.of_nat k) by lia.
    replace (Z.succ i) with (i + 1)%Z by lia.
    cbn [fmap list_fmap]. rewrite Ercpt, <- Hr. reflexivity.
Qed.

Lemma phase_AddRcpt_recipients b order :
  emits (fun evs => ∃ k, k ≤ Z.to_nat (bN b)
           ∧ inr <$> rcpts_of evs
             = addrcpt_recipient recipientTemplates <$> seqZ 0 (Z.of_nat k))
    (phase_AddRcpt target sender recipientTemplates b order).
Proof.
  unfold phase_AddRcpt. destruct (RandomMsg (bName b) order) as [[meta hdr] body].
  apply (started_emits meta (fun n evs => ∃ k, k ≤ Z.to_nat (bN b)
           ∧ inr <$> rcpts_of evs
             = addrcpt_recipient recipientTemplates <$> seqZ 0 (Z.of_nat k))).
  - intros d. eapply emits_mono; [|apply emits_deferred_Abort, addrcpt_loop_recipients].
    intros evs (evs' & -> & _ & k & Hk & Hr). exists k. split; [done|].
    rewrite rcpts_of_app. simpl. by rewrite app_nil_r.
  - intros err. exists 0. split; [lia|reflexivity].
  - intros n p evs H. exact H.
Qed.

End Deferred.

(** C4, amended: the AddRcpt phase passes to [AddRcpt], iteration after
    iteration from 0 on, the recipient computed for the iteration, which is
    the template at index [i mod len] with every placeholder character
    replaced by the decimal form of [i]; two distinct iterations that fall on
    the same template text, when it contains the placeholder, add distinct
    addresses. *)
Theorem addrcpt_recipient_spec (templates : list string) (i j : Z) :
  (∀ (S : Type) (target : DeliveryTarget S) (sender : string) (b : TB)
     (order : list (string * string)) (w : World S),
     ∃ evs k,
       trace (phase_AddRcpt target sender templates b order w).2 = trace w ++ evs
       ∧ k ≤ Z.to_nat (bN b)
       ∧ inr <$> rcpts_of evs = addrcpt_recipient templates <$> seqZ 0 (Z.of_nat k))
  ∧ (templates ≠ [] → (0 ≤ i)%Z → (0 ≤ j)%Z →
     ∃ ti tj,
       templates !! Z.to_nat (i mod Z.of_nat (length templates)) = Some ti
       ∧ templates !! Z.to_nat (j mod Z.of_nat (length templates)) = Some tj
       ∧ addrcpt_recipient templates i = inr (subst_placeholder (Itoa i) ti)
       ∧ addrcpt_recipient templates j = inr (subst_placeholder (Itoa j) tj)
       ∧ (ti = tj → 1 ≤ occurs "X" ti → i ≠ j →
          addrcpt_recipient templates i ≠ addrcpt_recipient templates j)).
Proof.
  split.
  { intros S target sender b order w.
    destruct (phase_AddRcpt_recipients target sender templates b order w)
      as (evs & T & k & Hk & Hr).
    eauto. }
  intros Hne Hi Hj.
  destruct (template_at_nonempty templates i Hne Hi) as (ti & Hti & Ei).
  destruct (template_at_nonempty templates j Hne Hj) as (tj & Htj & Ej).
  exists ti, tj. unfold addrcpt_recipient. rewrite Ei, Ej.
  unfold fill_template at 1 2. rewrite !strings_ReplaceAll_placeholder.
  repeat split; try done.
  intros <- Hocc Hij Heq. apply Hij.
  injection Heq as Heq. by apply (fill_template_inj ti).
Qed.

Lemma addrcpt_recipient_spec_witness :
  example_templates ≠ [] ∧ (0 ≤ 1)%Z ∧ (0 ≤ 3)%Z
  ∧ addrcpt_recipient example_templates 1 ≠ addrcpt_recipient example_templates 3.
Proof.
  assert (H0 : example_templates ≠ []) by discriminate.
  assert (H1 : (0 ≤ 1)%Z) by lia.
  assert (H3 : (0 ≤ 3)%Z) by lia.
  split; [exact H0|]. split; [exact H1|]. split; [exact H3|].
  destruct (proj2 (addrcpt_recipient_spec example_templates 1 3) H0 H1 H3)
    as (ti & tj & Hti & Htj & _ & _ & Hd).
  vm_compute in Hti, Htj.
  injection Hti as <-. injection Htj as <-.
  apply Hd; [reflexivity|vm_compute; lia|lia].
Defined.

(** ** Resource discipline *)

(** C1 fails on the code: the Start phase leaves the deliveries it has
    accumulated without a terminal call when a later [Start] fails, and the
    Full transaction phase leaves its delivery without one when [AddRcpt] or
    [Body] fails. The AddRcpt, Body and BodyNonAtomic phases, which defer
    [Abort], give every delivery they start exactly one terminal call on
    every exit, whatever the backend answers. *)
Theorem started_deliveries_leak :
  let start_tr :=
    trace (phase_Start one_slot_target "a@example.org"
             (sub_of 2 "Start").1 (sub_of 2 "Start").2 (start_world 0)).2 in
  let full_tr :=
    trace (phase_Full rejecting_target "a@example.org" example_templates
             (sub_of 1 "Full transaction").1 (sub_of 1 "Full transaction").2
             (start_world tt)).2 in
  let full_tr' :=
    trace (phase_Full body_failing_target "a@example.org" example_templates
             (sub_of 1 "Full transaction").1 (sub_of 1 "Full transaction").2
             (start_world tt)).2 in
  (count (is_start 0) start_tr = 1 ∧ count (is_terminal 0) start_tr = 0
   ∧ ¬ resource_discipline start_tr)
  ∧ (count (is_start 0) full_tr = 1 ∧ count (is_terminal 0) full_tr = 0
     ∧ ¬ resource_discipline full_tr)
  ∧ (count (is_start 0) full_tr' = 1 ∧ count (is_terminal 0) full_tr' = 0
     ∧ ¬ resource_discipline full_tr')
  ∧ (∀ (S : Type) (target : DeliveryTarget S) (idempotentBody : bool) (sender : string)
       (recipientTemplates : list string) (b : TB) (order : list (string * string))
       (w : World S),
       (∃ evs, trace (phase_AddRcpt target sender recipientTemplates b order w).2
               = trace w ++ evs ∧ resource_discipline evs)
       ∧ (∃ evs, trace (phase_Body target idempotentBody sender recipientTemplates
                          b order w).2
                 = trace w ++ evs ∧ resource_discipline evs)
       ∧ (∃ evs, trace (phase_BodyNonAtomic target idempotentBody sender
                          recipientTemplates b order w).2
                 = trace w ++ evs ∧ resource_discipline evs)).
Proof.
  cbv zeta.
  assert (Hno : ∀ tr, count (is_start 0) tr = 1 → count (is_terminal 0) tr = 0 →
                      ¬ resource_discipline tr).
  { intros tr Hs Ht H. specialize (H 0 Hs). lia. }
  split; [|split; [|split]].
  1-3: repeat split; try (vm_compute; reflexivity); apply Hno; vm_compute; reflexivity.
  intros S target idempotentBody sender recipientTemplates b order w.
  destruct (deferred_phases_discipline target sender recipientTemplates idempotentBody
              b order) as (HA & HB & HN).
  destruct (HA w) as (e1 & T1 & _ & D1).
  destruct (HB w) as (e2 & T2 & _ & D2).
  destruct (HN w) as (e3 & T3 & _ & D3).
  eauto 10.
Qed.

(** ** Lifetime of the status collector *)

Lemma collectors_fresh_empty tr :
  collectors_fresh tr → Forall (fun sc => sc = ∅) (collectors tr).
Proof.
  unfold collectors_fresh, collectors.
  induction 1 as [|e tr He _ IH]; [constructor|].
  destruct e; simpl; try exact IH. by constructor.
Qed.

(** C3, as stated, fails: the second [BodyNonAtomic] call of the phase is
    handed the collector with the two entries the first call has set. *)
Lemma collector_carries_over :
  let tr := trace (phase_BodyNonAtomic accepting_target true "a@example.org"
                     example_templates (sub_of 2 "BodyNonAtomic").1
                     (sub_of 2 "BodyNonAtomic").2 (start_world [])).2 in
  collectors tr
  = [∅; SetStatus (SetStatus ∅ "b0@example.org" None) "c1@example.org" None]
  ∧ ¬ collectors_fresh tr.
Proof.
  cbv zeta.
  assert (H : collectors
    (trace (phase_BodyNonAtomic accepting_target true "a@example.org"
              example_templates (sub_of 2 "BodyNonAtomic").1
              (sub_of 2 "BodyNonAtomic").2 (start_world [])).2)
    = [∅; SetStatus (SetStatus ∅ "b0@example.org" None) "c1@example.org" None])
    by (vm_compute; reflexivity).
  split; [exact H|].
  intros Hf. apply collectors_fresh_empty in Hf. rewrite H in Hf.
  apply Forall_cons_1 in Hf as [_ Hf]. apply Forall_cons_1 in Hf as [Hf _].
  apply (f_equal (fun m => m !! "c1@example.org")) in Hf.
  rewrite SetStatus_lookup, decide_True, lookup_empty in Hf by reflexivity.
  discriminate Hf.
Qed.

(** C3, amended: the BodyNonAtomic phase creates one collector, empty, before
    its timed loop and hands that same collector to every [BodyNonAtomic]
    call: the first call gets it empty, every later call gets it with all
    the statuses the earlier calls of the phase have set. *)
Theorem collector_shared_across_iterations {S : Type} (target : DeliveryTarget S)
    (idempotentBody : bool) (sender : string) (recipientTemplates : list string)
    (b : TB) (order : list (string * string)) (w : World S) :
  ∃ evs,
    trace (phase_BodyNonAtomic target idempotentBody sender recipientTemplates b order w).2
    = trace w ++ evs
    ∧ collectors_chained ∅ evs.
Proof.
  revert w. change (emits (collectors_chained ∅)
    (phase_BodyNonAtomic target idempotentBody sender recipientTemplates b order)).
  unfold phase_BodyNonAtomic.
  apply (emits_bind (fun evs => evs = []) (collectors_chained ∅)).
  { unfold skip_unless. destruct idempotentBody; by apply emits_pure. }
  2: { by intros ? ->. }
  2: { by intros ? ? ->. }
  intros _. destruct (RandomMsg (bName b) order) as [[meta hdr] body].
  apply (emits_bind (fun evs => ∃ e, evs = [e] ∧ not_BodyNonAtomic e)
           (collectors_chained ∅)); [apply emits_Start| | |].
  2: { intros ? (e & -> & He). by destruct e. }
  2: { intros ? e2 (e & -> & He) H2. by destruct e. }
  intros [err|d]; [by apply emits_pure|].
  apply (emits_defer (collectors_chained ∅) (fun evs => evs = [EvAbort (d_id d)]));
    [|apply emits_Abort|].
  2: { intros e1 ? H1 ->. apply collectors_chained_app_r; [done|]. by repeat constructor. }
  apply (emits_bind (fun evs => evs = []) (collectors_chained ∅)).
  { unfold skip_unless. destruct (d_partial d); by apply emits_pure. }
  2: { by intros ? ->. }
  2: { by intros ? ? ->. }
  intros _.
  apply (emits_bind (Forall not_BodyNonAtomic) (collectors_chained ∅));
    [apply emits_add_all_recipients| | |].
  2: { intros. by apply collectors_chained_quiet. }
  2: { intros. by apply collectors_chained_app_l. }
  intros _.
  apply (emits_bind (collectors_chained ∅) (fun evs => evs = []));
    [apply emits_BodyNonAtomic_loop| | |].
  - intros _. by apply emits_pure.
  - done.
  - intros e1 ? H1 ->. by rewrite app_nil_r.
Qed.

(** * Further properties of the code *)

(** ** [SetStatus] on a recipient already present *)

Lemma SetStatus_size_le (m : gmap string (option error)) r e :
  size (SetStatus m r e) ≤ Datatypes.S (size m).
Proof.
  unfold SetStatus. destruct (m !! r) as [x|] eqn:E.
  - rewrite map_size_insert_Some by done. lia.
  - rewrite map_size_insert_None by done. lia.
Qed.

(** Whatever the reports, duplicates included, the collector ends up with
    one entry per distinct recipient, holding the last outcome reported for
    it. *)
Theorem SetStatus_last_wins (reports : list (string * option error)) :
  let m := foldl (fun m st => SetStatus m st.1 st.2) ∅ reports in
  dom m = list_to_set reports.*1
  ∧ size m ≤ length reports
  ∧ (∀ pre r e post, reports = pre ++ (r, e) :: post → r ∉ post.*1 → m !! r = Some e).
Proof.
  cbv zeta. induction reports as [|[r0 e0] reports IH] using rev_ind.
  - simpl. rewrite dom_empty_L, map_size_empty.
    split; [done|]. split; [done|].
    intros pre r e post H. by destruct pre.
  - destruct IH as (Hdom & Hsize & Hlast).
    rewrite SetStatus_foldl_snoc.
    split; [|split].
    + rewrite SetStatus_dom, Hdom, fmap_app, list_to_set_app_L. simpl.
      rewrite union_empty_r_L. apply union_comm_L.
    + rewrite length_app. simpl.
      pose proof (SetStatus_size_le
        (foldl (fun m st => SetStatus m st.1 st.2) ∅ reports) r0 e0). lia.
    + intros pre r e post Heq Hr. rewrite SetStatus_lookup.
      destruct post as [|p post _] using rev_ind.
      * apply app_inj_tail in Heq as [_ Heq]. injection Heq as -> ->.
        by rewrite decide_True.
      * rewrite app_comm_cons, app_assoc in Heq.
        apply app_inj_tail in Heq as [-> <-].
        rewrite fmap_app, not_elem_of_app in Hr. destruct Hr as [Hr Hne].
        rewrite decide_False.
        { by apply (Hlast pre r e post). }
        intros <-. apply Hne. simpl. apply list_elem_of_singleton. reflexivity.
Qed.

Lemma SetStatus_last_wins_witness :
  let reports := [("b0@example.org", Some "mailbox full"); ("c1@example.org", None);
                  ("b0@example.org", None)] in
  foldl (fun m st => SetStatus m st.1 st.2) ∅ reports !! "b0@example.org" = Some None.
Proof.
  cbv zeta.
  refine (proj2 (proj2 (SetStatus_last_wins _))
            [("b0@example.org", Some "mailbox full"); ("c1@example.org", None)]
            "b0@example.org" None [] _ _).
  - reflexivity.
  - simpl. apply not_elem_of_nil.
Defined.

(** ** Filling a template *)

Lemma occurs_app c (a b : string) : occurs c (a +:+ b) = occurs c a + occurs c b.
Proof. induction a as [|c' a IH]; simpl; [done|]. rewrite IH. lia. Qed.

Lemma occurs_uint (d : Decimal.uint) : occurs "X" (NilEmpty.string_of_uint d) = 0.
Proof. induction d; simpl; auto. Qed.

Lemma occurs_Itoa (i : Z) : occurs "X" (Itoa i) = 0.
Proof.
  unfold Itoa.
  assert (H : ∀ d, occurs "X" (NilZero.string_of_uint d) = 0).
  { intros d. destruct d; try reflexivity; apply (occurs_uint (_ d)). }
  destruct (Z.to_int i) as [d|d]; simpl; apply H.
Qed.

Lemma occurs_subst_placeholder (new s : string) :
  occurs "X" (subst_placeholder new s) = occurs "X" s * occurs "X" new.
Proof.
  induction s as [|c s IH]; [reflexivity|].
  cbn [subst_placeholder occurs].
  destruct (decide (c = "X"%char)).
  - rewrite occurs_app, IH. lia.
  - cbn [occurs]. rewrite decide_False by done. rewrite IH. lia.
Qed.

Lemma subst_placeholder_absent (new s : string) :
  occurs "X" s = 0 → subst_placeholder new s = s.
Proof.
  induction s as [|c s IH]; [reflexivity|].
  cbn [subst_placeholder occurs].
  destruct (decide (c = "X"%char)); [lia|]. intros H. f_equal. apply IH. lia.
Qed.

(** After the substitution no placeholder is left, whatever the iteration
    number; the result is as long as the template with each placeholder
    grown to the decimal form of the number; and the template comes back
    unchanged exactly when it holds no placeholder, so that such a template
    yields the same recipient in every iteration. *)
Theorem fill_template_placeholders (t : string) (i : Z) :
  occurs "X" (fill_template t i) = 0
  ∧ String.length (fill_template t i) + occurs "X" t
    = String.length t + occurs "X" t * String.length (Itoa i)
  ∧ (fill_template t i = t ↔ occurs "X" t = 0).
Proof.
  unfold fill_template. rewrite strings_ReplaceAll_placeholder.
  split; [by rewrite occurs_subst_placeholder, occurs_Itoa; lia|].
  split; [apply subst_placeholder_length|].
  split.
  - intros H. rewrite <- H at 1.
    rewrite occurs_subst_placeholder, occurs_Itoa. lia.
  - apply subst_placeholder_absent.
Qed.

Lemma fill_template_placeholders_witness :
  occurs "X" "postmaster@example.org" = 0
  ∧ fill_template "postmaster@example.org" 7 = "postmaster@example.org".
Proof.
  assert (H : occurs "X" "postmaster@example.org" = 0) by reflexivity.
  split; [exact H|].
  exact (proj2 (proj2 (proj2 (fill_template_placeholders "postmaster@example.org" 7))) H).
Defined.

(** ** Round-robin over the templates *)

Lemma template_at_lookup (templates : list string) (k : nat) (t : string) :
  templates !! k = Some t → template_at templates (Z.of_nat k) = inr t.
Proof.
  intros Hk. pose proof (lookup_lt_Some _ _ _ Hk) as Hlt.
  unfold template_at, go_rem, go_index.
  rewrite decide_False by lia.
  rewrite Z.rem_mod_nonneg by lia. rewrite Z.mod_small by lia.
  rewrite decide_True by lia. by rewrite Nat2Z.id, Hk.
Qed.

(** The AddRcpt phase walks the templates round-robin: its first
    [len(recipientTemplates)] iterations take the templates in list order,
    so that they add exactly the recipients the [range] loops of the other
    phases add, and iteration [i + len(recipientTemplates)] takes the
    template of iteration [i]. *)
Theorem templates_round_robin (templates : list string) (i : Z) :
  addrcpt_recipient templates <$> seqZ 0 (Z.of_nat (length templates))
  = inr <$> imap (fun k t => fill_template t (Z.of_nat k)) templates
  ∧ ((0 ≤ i)%Z →
     template_at templates (i + Z.of_nat (length templates)) = template_at templates i).
Proof.
  split.
  - apply list_eq. intros k.
    rewrite !list_lookup_fmap, list_lookup_imap.
    destruct (templates !! k) as [t|] eqn:Hk.
    + pose proof (lookup_lt_Some _ _ _ Hk) as Hlt.
      rewrite (lookup_seqZ_lt 0 (Z.of_nat (length templates)) k) by lia. simpl.
      unfold addrcpt_recipient. rewrite Z.add_0_l.
      by rewrite (template_at_lookup templates k t Hk).
    + apply lookup_ge_None in Hk.
      rewrite (lookup_seqZ_ge 0 (Z.of_nat (length templates)) k) by lia. reflexivity.
  - intros Hi. unfold template_at, go_rem.
    destruct (decide (Z.of_nat (length templates) = 0%Z)) as [|Hne]; [reflexivity|].
    rewrite !Z.rem_mod_nonneg by lia.
    replace (i + Z.of_nat (length templates))%Z
      with (i + 1 * Z.of_nat (length templates))%Z by lia.
    by rewrite Z.mod_add by lia.
Qed.

Lemma templates_round_robin_witness :
  (0 ≤ 3)%Z
  ∧ template_at example_templates (3 + Z.of_nat (length example_templates))
    = template_at example_templates 3.
Proof.
  assert (H : (0 ≤ 3)%Z) by lia.
  split; [exact H|]. exact (proj2 (templates_round_robin example_templates 3) H).
Defined.

(** ** Header field names *)

Lemma string_app_inv_head (p a b : string) : p +:+ a = p +:+ b → a = b.
Proof. induction p as [|c p IH]; simpl; [done|]. intros [= H]. by apply IH. Qed.

Lemma extra_field_names_NoDup (n : nat) (i : Z) : NoDup (extra_fields n i).*1.
Proof.
  unfold extra_fields. rewrite <- list_fmap_compose.
  apply NoDup_fmap_2; [|apply NoDup_seq].
  intros k1 k2 H. unfold compose in H. cbn [fst] in H.
  apply string_app_inv_head, Itoa_inj in H. lia.
Qed.

(** The loop that adds the synthetic fields puts each of them on top of
    the fields already in the header, under the canonical form of its name,
    and these names are pairwise distinct, whatever the count of the fields
    and the number the loop starts from; and whatever order the map is
    visited in, the names under which the fields of the fabricated header
    are stored, preamble and synthetic ones together, are pairwise distinct:
    canonicalisation merges no two names, and no [Add] meets a name already
    in the header. *)
Theorem RandomMsg_header_names_distinct (name : string) (order : list (string * string))
    (n : nat) (i : Z) (hdr : Header) :
  map_range headerPreamble order →
  add_extra_fields n i hdr = reverse (extra_fields n i) ++ hdr
  ∧ (extra_fields n i).*1
    = (fun k : nat => CanonicalMIMEHeaderKey ("AAAAAAAAAAAA-" +:+ Itoa (i + Z.of_nat k)))
      <$> seq 0 n
  ∧ NoDup (extra_fields n i).*1
  ∧ length (extra_fields n i) = n
  ∧ NoDup (RandomMsg name order).1.2.*1.
Proof.
  intros Hrange. split; [apply add_extra_fields_app|].
  split.
  { unfold extra_fields. rewrite <- list_fmap_compose.
    apply list_fmap_ext. intros _ k _. unfold compose. cbn [fst].
    by rewrite canonical_extra_name. }
  split; [apply extra_field_names_NoDup|].
  split; [unfold extra_fields; by rewrite length_fmap, length_seq|].
  by apply RandomMsg_header_NoDup.
Qed.

Lemma RandomMsg_header_names_distinct_witness :
  map_range headerPreamble (map_to_list headerPreamble)
  ∧ NoDup (RandomMsg "BenchmarkDelivery/Body" (map_to_list headerPreamble)).1.2.*1.
Proof.
  assert (H : map_range headerPreamble (map_to_list headerPreamble))
    by (unfold map_range; reflexivity).
  split; [exact H|].
  exact (proj2 (proj2 (proj2 (proj2 (RandomMsg_header_names_distinct _ _ 3 0 [] H))))).
Defined.

(** ** Calls, failures and exits of a sub-benchmark *)

Section Ok.

Context {S : Type}.
Variable target : DeliveryTarget S.
Variable sender : string.
Variable recipientTemplates : list string.

Lemma ok_ret {A} Q E (a : A) : ok (S := S) Q E (ret a).
Proof. intros w. exists []. simpl. rewrite app_nil_r. repeat split; constructor. Qed.

Lemma ok_exit {A} Q (E : Exit → Prop) (e : Exit) :
  E e → (∀ err, e ≠ Fatal err) → ok Q E (fun w : World S => (@inl Exit A e, w)).
Proof.
  intros HE Hnf w. exists []. simpl. rewrite app_nil_r.
  split; [done|]. split; [constructor|].
  destruct e as [err| |]; [by destruct (Hnf err)|split; [done|constructor]..].
Qed.

Lemma ok_bind {A B} Q E (m : Bench S A) (f : A → Bench S B) :
  ok Q E m → (∀ a, ok Q E (f a)) → ok Q E (bind m f).
Proof.
  intros Hm Hf w. unfold bind.
  destruct (Hm w) as (e1 & T1 & Q1 & R1).
  destruct (m w) as [[e|a] w1]; simpl in *; [by exists e1|].
  destruct (Hf a w1) as (e2 & T2 & Q2 & R2).
  exists (e1 ++ e2). rewrite T2, T1, app_assoc.
  split; [done|]. split; [by apply Forall_app|].
  destruct (f a w1) as [[[err| |]|b] w2]; simpl in *.
  - destruct R2 as (HE & pre & e & -> & Hpre & He). split; [done|].
    exists (e1 ++ pre), e. rewrite app_assoc. split; [done|].
    split; [by apply Forall_app|done].
  - destruct R2 as [HE R2]. split; [done|by apply Forall_app].
  - destruct R2 as [HE R2]. split; [done|by apply Forall_app].
  - by apply Forall_app.
Qed.

Lemma ok_for_upto {St} Q E n (i0 i : Z) (body : Z → St → Bench S St) s :
  (∀ i s, (i0 ≤ i)%Z → ok Q E (body i s)) → (i0 ≤ i)%Z → ok Q E (for_upto n i body s).
Proof.
  intros Hb. revert i s. induction n as [|n IH]; intros i s Hi; [apply ok_ret|].
  cbn [for_upto]. apply ok_bind; [by apply Hb|]. intros s'. apply IH. lia.
Qed.

Lemma ok_for_range {A} Q E (l : list A) i (body : Z → A → Bench S unit) :
  (∀ i x, ok Q E (body i x)) → ok Q E (for_range l i body).
Proof.
  intros Hb. revert i. induction l as [|x l IH]; intros i; [apply ok_ret|].
  cbn [for_range]. apply ok_bind; [apply Hb|]. intros _. apply IH.
Qed.

Lemma ok_checked Q (E : Exit → Prop) (call : Bench S (option error))
    (ev : option error → Event) :
  (∀ w, ∃ res, (call w).1 = inr res ∧ trace (call w).2 = trace w ++ [ev res]) →
  (∀ res, Q (kind (ev res)) ∧ failure_of (ev res) = res) →
  (∀ err, E (Fatal err)) →
  ok Q E (bind call (fun err => fatal_on err)).
Proof.
  intros Hcall Hev HE w. unfold bind.
  destruct (Hcall w) as (res & Hr & Ht).
  destruct (call w) as [r w1]; simpl in *. subst r.
  exists [ev res]. destruct (Hev res) as [HQ Hf].
  destruct res as [err|]; simpl.
  - split; [done|]. split; [by repeat constructor|]. split; [done|].
    exists [], (ev (Some err)). repeat split; [constructor|done].
  - split; [done|]. split; [by repeat constructor|]. by repeat constructor.
Qed.

Lemma ok_AddRcpt (Q : Kind → Prop) (E : Exit → Prop) d rcpt :
  Q KAddRcpt → (∀ err, E (Fatal err)) →
  ok Q E (bind (delivery_AddRcpt target d rcpt) (fun err => fatal_on err)).
Proof.
  intros HQ HE. apply (ok_checked Q E _ (EvAddRcpt (d_id d) rcpt)); [|done..].
  intros w. unfold delivery_AddRcpt. destruct (AddRcpt target _ _ _) as [res σ]. eauto.
Qed.

Lemma ok_Body (Q : Kind → Prop) (E : Exit → Prop) d hdr body :
  Q KBody → (∀ err, E (Fatal err)) →
  ok Q E (bind (delivery_Body target d hdr body) (fun err => fatal_on err)).
Proof.
  intros HQ HE. apply (ok_checked Q E _ (EvBody (d_id d) hdr body)); [|done..].
  intros w. unfold delivery_Body. destruct (Body target _ _ _ _) as [res σ]. eauto.
Qed.

Lemma ok_Commit (Q : Kind → Prop) (E : Exit → Prop) d :
  Q KCommit → (∀ err, E (Fatal err)) →
  ok Q E (bind (delivery_Commit target d) (fun err => fatal_on err)).
Proof.
  intros HQ HE. apply (ok_checked Q E _ (EvCommit (d_id d))); [|done..].
  intros w. unfold delivery_Commit. destruct (Commit target _ _) as [res σ]. eauto.
Qed.

Lemma ok_BodyNonAtomic (Q : Kind → Prop) E d sc hdr body :
  Q KBodyNonAtomic → ok Q E (delivery_BodyNonAtomic target d sc hdr body).
Proof.
  intros HQ w. unfold delivery_BodyNonAtomic.
  destruct (BodyNonAtomic target _ _ _ _) as [sts σ]. simpl.
  eexists [_]. split; [reflexivity|]. split; by repeat constructor.
Qed.

Lemma ok_Abort (Q : Kind → Prop) E d : Q KAbort → ok Q E (delivery_Abort target d).
Proof.
  intros HQ w. unfold delivery_Abort. destruct (Abort target _ _) as [res σ]. simpl.
  eexists [_]. split; [reflexivity|]. split; by repeat constructor.
Qed.

Lemma ok_skip_unless Q (E : Exit → Prop) c msg :
  (c = false → E (Skipped msg)) → ok Q E (skip_unless (S := S) c msg).
Proof.
  intros HE. unfold skip_unless. destruct c; [apply ok_ret|].
  apply (ok_exit (A := unit)); [by apply HE|done].
Qed.

Lemma ok_add_all_recipients (Q : Kind → Prop) (E : Exit → Prop) d :
  Q KAddRcpt → (∀ err, E (Fatal err)) →
  ok Q E (add_all_recipients target recipientTemplates d).
Proof.
  intros HQ HE. unfold add_all_recipients. apply ok_for_range.
  intros i x. by apply ok_AddRcpt.
Qed.

Lemma ok_started {A} (Q : Kind → Prop) (E : Exit → Prop) meta (rest : Delivery → Bench S A) :
  Q KStart → (∀ err, E (Fatal err)) → (∀ d, ok Q E (rest d)) →
  ok Q E (bind (target_Start target sender meta)
            (fun r => match r with inl err => b_Fatal err | inr d => rest d end)).
Proof.
  intros HQ HE Hrest w. unfold bind, target_Start.
  destruct (Start target meta sender (backend w)) as [[err|p] σ]; simpl.
  - eexists [_]. split; [reflexivity|]. split; [by repeat constructor|].
    split; [done|]. exists [], (EvStartFailed err). repeat split. constructor.
  - match goal with |- context [rest ?d ?w1] =>
      destruct (Hrest d w1) as (evs & T & HQs & R); destruct (rest d w1) as [r w2] end.
    simpl in *. exists (EvStart (nextId w) p :: evs). rewrite T, <- app_assoc.
    split; [done|]. split; [by constructor|].
    destruct r as [[err| |]|a].
    + destruct R as (HE' & pre & e & -> & Hpre & He). split; [done|].
      exists (EvStart (nextId w) p :: pre), e. split; [done|]. split; [by constructor|done].
    + destruct R as [HE' R]. split; [done|by constructor].
    + destruct R as [HE' R]. split; [done|by constructor].
    + by constructor.
Qed.

Lemma bind_assoc {A B C} (m : Bench S A) (f : A → Bench S B) (g : B → Bench S C) w :
  bind m (fun a => bind (f a) g) w = bind (bind m f) g w.
Proof. unfold bind. by destruct (m w) as [[e|a] w1]. Qed.

Lemma ok_ext {A} Q E (m m' : Bench S A) : (∀ w, m w = m' w) → ok Q E m → ok Q E m'.
Proof. intros Heq H w. rewrite <- Heq. apply H. Qed.

Lemma ok_ok_phase {A} Q E (m : Bench S A) : ok Q E m → ok_phase Q E m.
Proof.
  intros H w. destruct (H w) as (evs & T & HQ & R). exists evs.
  split; [done|]. split; [done|].
  destruct (m w).1 as [[err| |]|a]; try done.
  destruct R as (HE & pre & e & -> & Hpre & He). split; [done|].
  exists pre, e, []. eauto.
Qed.

Lemma ok_phase_started_deferred {A} (Q : Kind → Prop) (E : Exit → Prop) meta
    (rest : Delivery → Bench S A) :
  Q KStart → Q KAbort → (∀ err, E (Fatal err)) → (∀ d, ok Q E (rest d)) →
  ok_phase Q E (bind (target_Start target sender meta)
                  (fun r => match r with
                            | inl err => b_Fatal err
                            | inr d => defer (delivery_Abort target d) (rest d)
                            end)).
Proof.
  intros HQ HQA HE Hrest w. unfold bind, target_Start.
  destruct (Start target meta sender (backend w)) as [[err|p] σ]; simpl.
  - eexists [_]. split; [reflexivity|]. split; [by repeat constructor|].
    split; [done|]. exists [], (EvStartFailed err), []. repeat split; [constructor|by left].
  - unfold defer, delivery_Abort.
    match goal with |- context [rest ?d ?w1] =>
      destruct (Hrest d w1) as (evs & T & HQs & R); destruct (rest d w1) as [r w2] end.
    simpl in *. destruct (Abort target (nextId w) (backend w2)) as [res σ']. simpl.
    exists (EvStart (nextId w) p :: evs ++ [EvAbort (nextId w)]).
    rewrite T, <- !app_assoc. split; [done|].
    split; [constructor; [done|]; apply Forall_app; split; [done|by repeat constructor]|].
    destruct r as [[err| |]|a].
    + destruct R as (HE' & pre & e & -> & Hpre & He). split; [done|].
      exists (EvStart (nextId w) p :: pre), e, [EvAbort (nextId w)].
      rewrite <- app_assoc. split; [done|]. split; [by constructor|]. split; [done|eauto].
    + destruct R as [HE' R]. split; [done|].
      constructor; [done|]. apply Forall_app. split; [done|by repeat constructor].
    + destruct R as [HE' R]. split; [done|].
      constructor; [done|]. apply Forall_app. split; [done|by repeat constructor].
    + constructor; [done|]. apply Forall_app. split; [done|by repeat constructor].
Qed.

Lemma ok_phase_skip_unless Q (E : Exit → Prop) c msg (rest : Bench S unit) :
  (c = false → E (Skipped msg)) → (c = true → ok_phase Q E rest) →
  ok_phase Q E (bind (skip_unless c msg) (fun _ => rest)).
Proof.
  intros HE Hrest w. unfold bind, skip_unless. destruct c; simpl; [by apply Hrest|].
  exists []. rewrite app_nil_r. split; [done|]. split; [constructor|].
  split; [by apply HE|constructor].
Qed.

End Ok.

Section PhasesOk.

Context {S : Type}.
Variable target : DeliveryTarget S.
Variable idempotentBody : bool.
Variable sender : string.
Variable recipientTemplates : list string.

Lemma ok_addrcpt_recipient (Q : Kind → Prop) (i : Z) :
  (0 ≤ i)%Z →
  ok (S := S) Q (exits_AddRcpt recipientTemplates) (lift (addrcpt_recipient recipientTemplates i)).
Proof.
  intros Hi. unfold lift, addrcpt_recipient.
  destruct recipientTemplates as [|t ts] eqn:Et.
  - apply (ok_exit (A := string)); [by right|done].
  - destruct (template_at_nonempty (t :: ts) i ltac:(done) Hi) as (t' & _ & ->).
    apply (ok_ret (A := string)).
Qed.

Lemma phase_Start_ok b order :
  ok_phase (fun k => k ∈ [KStart; KAbort]) exits_Start (phase_Start target sender b order).
Proof.
  unfold phase_Start. destruct (RandomMsg (bName b) order) as [[meta hdr] body].
  apply ok_ok_phase, ok_bind.
  - apply (ok_for_upto _ _ _ 0%Z); [|lia]. intros i ds _.
    apply ok_started; [set_solver|by eexists|]. intros d. apply ok_ret.
  - intros ds. apply ok_for_range. intros i d. apply ok_Abort. set_solver.
Qed.

Lemma phase_AddRcpt_ok b order :
  ok_phase (fun k => k ∈ [KStart; KAddRcpt; KAbort]) (exits_AddRcpt recipientTemplates)
    (phase_AddRcpt target sender recipientTemplates b order).
Proof.
  unfold phase_AddRcpt. destruct (RandomMsg (bName b) order) as [[meta hdr] body].
  apply ok_phase_started_deferred; [set_solver|set_solver|by left; eexists|].
  intros d. apply (ok_for_upto _ _ _ 0%Z); [|lia]. intros i _ Hi.
  apply ok_bind; [by apply ok_addrcpt_recipient|]. intros rcpt.
  apply ok_AddRcpt; [set_solver|by left; eexists].
Qed.

Lemma phase_Body_ok b order :
  ok_phase (fun k => k ∈ [KStart; KAddRcpt; KBody; KAbort]) (exits_Body idempotentBody)
    (phase_Body target idempotentBody sender recipientTemplates b order).
Proof.
  unfold phase_Body. apply ok_phase_skip_unless; [by right|]. intros _.
  destruct (RandomMsg (bName b) order) as [[meta hdr] body].
  apply ok_phase_started_deferred; [set_solver|set_solver|by left; eexists|].
  intros d. apply ok_bind.
  - apply ok_add_all_recipients; [set_solver|by left; eexists].
  - intros _. apply (ok_for_upto _ _ _ 0%Z); [|lia]. intros i _ _.
    apply ok_Body; [set_solver|by left; eexists].
Qed.

Lemma phase_BodyNonAtomic_ok b order :
  ok_phase (fun k => k ∈ [KStart; KAddRcpt; KBodyNonAtomic; KAbort])
    (exits_BodyNonAtomic idempotentBody)
    (phase_BodyNonAtomic target idempotentBody sender recipientTemplates b order).
Proof.
  unfold phase_BodyNonAtomic. apply ok_phase_skip_unless; [by right; left|].
  intros Hidem. destruct (RandomMsg (bName b) order) as [[meta hdr] body].
  apply ok_phase_started_deferred; [set_solver|set_solver|by left; eexists|].
  intros d. apply ok_bind.
  { apply ok_skip_unless. intros _. by right; right. }
  intros _. apply ok_bind.
  { apply ok_add_all_recipients; [set_solver|by left; eexists]. }
  intros _. apply ok_bind; [|intros; apply ok_ret].
  apply (ok_for_upto _ _ _ 0%Z); [|lia]. intros i sc _.
  apply ok_BodyNonAtomic. set_solver.
Qed.

Lemma phase_Full_ok b order :
  ok_phase (fun k => k ∈ [KStart; KAddRcpt; KBody; KCommit]) exits_Start
    (phase_Full target sender recipientTemplates b order).
Proof.
  unfold phase_Full. destruct (RandomMsg (bName b) order) as [[meta hdr] body].
  apply ok_ok_phase, (ok_for_upto _ _ _ 0%Z); [|lia]. intros i _ _.
  apply ok_started; [set_solver|by eexists|]. intros d.
  apply ok_bind; [apply ok_add_all_recipients; [set_solver|by eexists]|]. intros _.
  apply (ok_ext _ _
    (bind (bind (delivery_Body target d hdr body) (fun err => fatal_on err)) (fun _ =>
     bind (delivery_Commit target d) (fun err => fatal_on err)))).
  { intros w. symmetry. apply bind_assoc. }
  apply ok_bind; [apply ok_Body; [set_solver|by eexists]|]. intros _.
  apply ok_Commit; [set_solver|by eexists].
Qed.

End PhasesOk.

Lemma ok_phase_elim {S A} Q E (m : Bench S A) (w : World S) :
  ok_phase Q E m →
  ∃ evs, trace (m w).2 = trace w ++ evs
         ∧ Forall (fun e => Q (kind e)) evs
         ∧ fail_stop (m w).1 evs
         ∧ ∀ e, (m w).1 = inl e → E e.
Proof.
  intros H. destruct (H w) as (evs & T & HQ & R). exists evs.
  split; [done|]. split; [done|].
  destruct (m w).1 as [[err| |]|a]; simpl.
  - destruct R as [HE R]. split; [done|]. by intros e [= <-].
  - destruct R as [HE R]. split; [done|]. by intros e [= <-].
  - destruct R as [HE R]. split; [done|]. by intros e [= <-].
  - split; [done|]. intros e [=].
Qed.

(** ** Which methods each sub-benchmark calls *)

(** Whatever the backend answers, the Start phase calls only [Start] and
    [Abort]; the AddRcpt phase only [Start], [AddRcpt] and [Abort]; the Body
    phase adds [Body] to these and the BodyNonAtomic phase [BodyNonAtomic];
    the Full transaction phase calls [Start], [AddRcpt], [Body] and [Commit]
    and never [Abort]. So [Commit] is called by the Full transaction phase
    only and [BodyNonAtomic] by the BodyNonAtomic phase only. *)
Theorem phase_call_kinds {S : Type} (target : DeliveryTarget S) (idempotentBody : bool)
    (sender : string) (recipientTemplates : list string) (b : TB)
    (order : list (string * string)) (w : World S) :
  (∃ evs, trace (phase_Start target sender b order w).2 = trace w ++ evs
          ∧ Forall (fun e => kind e ∈ [KStart; KAbort]) evs)
  ∧ (∃ evs, trace (phase_AddRcpt target sender recipientTemplates b order w).2
            = trace w ++ evs
            ∧ Forall (fun e => kind e ∈ [KStart; KAddRcpt; KAbort]) evs)
  ∧ (∃ evs, trace (phase_Body target idempotentBody sender recipientTemplates b order w).2
            = trace w ++ evs
            ∧ Forall (fun e => kind e ∈ [KStart; KAddRcpt; KBody; KAbort]) evs)
  ∧ (∃ evs, trace (phase_BodyNonAtomic target idempotentBody sender recipientTemplates
                     b order w).2 = trace w ++ evs
            ∧ Forall (fun e => kind e ∈ [KStart; KAddRcpt; KBodyNonAtomic; KAbort]) evs)
  ∧ (∃ evs, trace (phase_Full target sender recipientTemplates b order w).2 = trace w ++ evs
            ∧ Forall (fun e => kind e ∈ [KStart; KAddRcpt; KBody; KCommit]) evs).
Proof.
  destruct (ok_phase_elim _ _ _ w (phase_Start_ok target sender b order))
    as (e1 & T1 & Q1 & _).
  destruct (ok_phase_elim _ _ _ w (phase_AddRcpt_ok target sender recipientTemplates b order))
    as (e2 & T2 & Q2 & _).
  destruct (ok_phase_elim _ _ _ w
              (phase_Body_ok target idempotentBody sender recipientTemplates b order))
    as (e3 & T3 & Q3 & _).
  destruct (ok_phase_elim _ _ _ w
              (phase_BodyNonAtomic_ok target idempotentBody sender recipientTemplates b order))
    as (e4 & T4 & Q4 & _).
  destruct (ok_phase_elim _ _ _ w (phase_Full_ok target sender recipientTemplates b order))
    as (e5 & T5 & Q5 & _).
  eauto 15.
Qed.

(** ** What [b.Fatal] reports *)

(** In every sub-benchmark and whatever the backend answers: when the
    sub-benchmark ends in [b.Fatal(err)], [err] is the error returned by the
    last [Start], [AddRcpt], [Body] or [Commit] call made, every call before
    it returned no error, and after it at most the deferred [Abort] is
    called; when it ends any other way, no call it made returned an error. *)
Theorem fatal_reports_last_error {S : Type} (target : DeliveryTarget S)
    (idempotentBody : bool) (sender : string) (recipientTemplates : list string) (b : TB)
    (order : list (string * string)) (w : World S) :
  (∃ evs, trace (phase_Start target sender b order w).2 = trace w ++ evs
          ∧ fail_stop (phase_Start target sender b order w).1 evs)
  ∧ (∃ evs, trace (phase_AddRcpt target sender recipientTemplates b order w).2
            = trace w ++ evs
            ∧ fail_stop (phase_AddRcpt target sender recipientTemplates b order w).1 evs)
  ∧ (∃ evs, trace (phase_Body target idempotentBody sender recipientTemplates b order w).2
            = trace w ++ evs
            ∧ fail_stop (phase_Body target idempotentBody sender recipientTemplates
                           b order w).1 evs)
  ∧ (∃ evs, trace (phase_BodyNonAtomic target idempotentBody sender recipientTemplates
                     b order w).2 = trace w ++ evs
            ∧ fail_stop (phase_BodyNonAtomic target idempotentBody sender
                           recipientTemplates b order w).1 evs)
  ∧ (∃ evs, trace (phase_Full target sender recipientTemplates b order w).2 = trace w ++ evs
            ∧ fail_stop (phase_Full target sender recipientTemplates b order w).1 evs).
Proof.
  destruct (ok_phase_elim _ _ _ w (phase_Start_ok target sender b order))
    as (e1 & T1 & _ & F1 & _).
  destruct (ok_phase_elim _ _ _ w (phase_AddRcpt_ok target sender recipientTemplates b order))
    as (e2 & T2 & _ & F2 & _).
  destruct (ok_phase_elim _ _ _ w
              (phase_Body_ok target idempotentBody sender recipientTemplates b order))
    as (e3 & T3 & _ & F3 & _).
  destruct (ok_phase_elim _ _ _ w
              (phase_BodyNonAtomic_ok target idempotentBody sender recipientTemplates b order))
    as (e4 & T4 & _ & F4 & _).
  destruct (ok_phase_elim _ _ _ w (phase_Full_ok target sender recipientTemplates b order))
    as (e5 & T5 & _ & F5 & _).
  eauto 15.
Qed.

(** ** How a sub-benchmark can end *)

(** The Start and Full transaction phases leave early only through
    [b.Fatal]; the Body and BodyNonAtomic phases also through their [b.Skip]s
    (the idempotency skip only when [idempotentBody] is unset, the capability
    skip only when it is set); the AddRcpt phase through [b.Fatal] or, only
    on an empty template list, the division-by-zero panic. *)
Theorem phase_exits {S : Type} (target : DeliveryTarget S) (idempotentBody : bool)
    (sender : string) (recipientTemplates : list string) (b : TB)
    (order : list (string * string)) (w : World S) :
  (∀ e, (phase_Start target sender b order w).1 = inl e → exits_Start e)
  ∧ (∀ e, (phase_AddRcpt target sender recipientTemplates b order w).1 = inl e →
          exits_AddRcpt recipientTemplates e)
  ∧ (∀ e, (phase_Body target idempotentBody sender recipientTemplates b order w).1 = inl e →
          exits_Body idempotentBody e)
  ∧ (∀ e, (phase_BodyNonAtomic target idempotentBody sender recipientTemplates
             b order w).1 = inl e → exits_BodyNonAtomic idempotentBody e)
  ∧ (∀ e, (phase_Full target sender recipientTemplates b order w).1 = inl e → exits_Start e).
Proof.
  split.
  { intros e.
    destruct (ok_phase_elim _ _ _ w (phase_Start_ok target sender b order))
      as (_ & _ & _ & _ & H).
    apply H. }
  split.
  { intros e.
    destruct (ok_phase_elim _ _ _ w (phase_AddRcpt_ok target sender recipientTemplates b order))
      as (_ & _ & _ & _ & H).
    apply H. }
  split.
  { intros e.
    destruct (ok_phase_elim _ _ _ w
      (phase_Body_ok target idempotentBody sender recipientTemplates b order))
      as (_ & _ & _ & _ & H).
    apply H. }
  split.
  { intros e.
    destruct (ok_phase_elim _ _ _ w
      (phase_BodyNonAtomic_ok target idempotentBody sender recipientTemplates b order))
      as (_ & _ & _ & _ & H).
    apply H. }
  intros e.
  destruct (ok_phase_elim _ _ _ w (phase_Full_ok target sender recipientTemplates b order))
    as (_ & _ & _ & _ & H).
  apply H.
Qed.

Lemma phase_exits_witness :
  (phase_AddRcpt rejecting_target "a@example.org" example_templates
     (sub_of 1 "AddRcpt").1 (sub_of 1 "AddRcpt").2 (start_world tt)).1
  = inl (Fatal "mailbox unknown")
  ∧ exits_AddRcpt example_templates (Fatal "mailbox unknown").
Proof.
  assert (H : (phase_AddRcpt rejecting_target "a@example.org" example_templates
                 (sub_of 1 "AddRcpt").1 (sub_of 1 "AddRcpt").2 (start_world tt)).1
              = inl (Fatal "mailbox unknown")) by (vm_compute; reflexivity).
  split; [exact H|].
  exact (proj1 (proj2 (phase_exits rejecting_target false "a@example.org"
           example_templates (sub_of 1 "AddRcpt").1 (sub_of 1 "AddRcpt").2
           (start_world tt))) _ H).
Defined.

(** ** How the whole run can end *)




(** A run in which the framework calls the function of every sub-benchmark
    with [b.N = 1] and then with [b.N = 2], on a backend that accepts
    everything, two templates: the calls in order. With [idempotentBody]
    unset the Body and BodyNonAtomic phases are skipped in their first call
    and not called again; with it set, the delivery with two [Body] calls is
    the seventh started. *)
Example calls_with_two_invocations :
  kind <$> trace (BenchDelivery accepting_target false "a@example.org" example_templates
                    (calls_of [2%Z]) (start_world [])).2
  = [KStart; KAbort;
     KStart; KStart; KAbort; KAbort;
     KStart; KAddRcpt; KAbort;
     KStart; KAddRcpt; KAddRcpt; KAbort;
     KStart; KAddRcpt; KAddRcpt; KBody; KCommit;
     KStart; KAddRcpt; KAddRcpt; KBody; KCommit;
     KStart; KAddRcpt; KAddRcpt; KBody; KCommit]
  ∧ kind <$> trace (BenchDelivery accepting_target true "a@example.org" example_templates
                      (calls_of [2%Z]) (start_world [])).2
    = [KStart; KAbort;
       KStart; KStart; KAbort; KAbort;
       KStart; KAddRcpt; KAbort;
       KStart; KAddRcpt; KAddRcpt; KAbort;
       KStart; KAddRcpt; KAddRcpt; KBody; KAbort;
       KStart; KAddRcpt; KAddRcpt; KBody; KBody; KAbort;
       KStart; KAddRcpt; KAddRcpt; KBodyNonAtomic; KAbort;
       KStart; KAddRcpt; KAddRcpt; KBodyNonAtomic; KBodyNonAtomic; KAbort;
       KStart; KAddRcpt; KAddRcpt; KBody; KCommit;
       KStart; KAddRcpt; KAddRcpt; KBody; KCommit;
       KStart; KAddRcpt; KAddRcpt; KBody; KCommit]
  ∧ body_calls 6 (trace (BenchDelivery accepting_target true "a@example.org"
                           example_templates (calls_of [2%Z]) (start_world [])).2) = 2.
Proof. split; [|split]; vm_compute; reflexivity. Qed.

(** ** Outcome and trace of a computation together *)

Section Runs.

Context {S : Type}.
Variable target : DeliveryTarget S.
Variable sender : string.
Variable recipientTemplates : list string.

Lemma runs_mono {A} (P P' : Exit + A → list Event → Prop) (m : Bench S A) :
  (∀ r evs, P r evs → P' r evs) → runs P m → runs P' m.
Proof. intros HP H w. destruct (H w) as (evs & T & HP1). eauto. Qed.

Lemma emits_runs {A} (P : list Event → Prop) (m : Bench S A) :
  emits P m → runs (fun _ evs => P evs) m.
Proof. intros H w. apply H. Qed.

Lemma runs_bind {A B} (P1 : Exit + A → list Event → Prop)
    (P2 P3 : Exit + B → list Event → Prop) (m : Bench S A) (f : A → Bench S B) :
  runs P1 m → (∀ a, runs P2 (f a)) →
  (∀ e evs, P1 (inl e) evs → P3 (inl e) evs) →
  (∀ a evs1 r evs2, P1 (inr a) evs1 → P2 r evs2 → P3 r (evs1 ++ evs2)) →
  runs P3 (bind m f).
Proof.
  intros Hm Hf H1 H12 w. unfold bind.
  destruct (Hm w) as (e1 & T1 & HP1).
  destruct (m w) as [[e|a] w1]; simpl in *; [eauto|].
  destruct (Hf a w1) as (e2 & T2 & HP2).
  exists (e1 ++ e2). rewrite T2, T1, app_assoc. eauto.
Qed.

Lemma runs_started {A} meta (P : Delivery → Exit + A → list Event → Prop)
    (P3 : Exit + A → list Event → Prop) (rest : Delivery → Bench S A) :
  (∀ d, runs (P d) (rest d)) →
  (∀ err, P3 (inl (Fatal err)) [EvStartFailed err]) →
  (∀ d r evs, P d r evs → P3 r (EvStart (d_id d) (d_partial d) :: evs)) →
  runs P3 (bind (target_Start target sender meta)
             (fun r => match r with inl err => b_Fatal err | inr d => rest d end)).
Proof.
  intros Hrest Hfail Hok w. unfold bind, target_Start.
  destruct (Start target meta sender (backend w)) as [[err|p] σ]; simpl.
  - eexists. split; [reflexivity|]. apply Hfail.
  - match goal with |- context [rest ?d ?w1] =>
      destruct (Hrest d w1) as (evs & T & HP) end.
    exists (EvStart (nextId w) p :: evs). rewrite T. simpl.
    rewrite <- app_assoc. split; [reflexivity|].
    apply (Hok {| d_id := nextId w; d_partial := p |}). exact HP.
Qed.

Lemma runs_defer_Abort {A} d (P P' : Exit + A → list Event → Prop) (rest : Bench S A) :
  runs P rest → (∀ r evs, P r evs → P' r (evs ++ [EvAbort (d_id d)])) →
  runs P' (defer (delivery_Abort target d) rest).
Proof.
  intros Hr HP w. unfold defer, delivery_Abort.
  destruct (Hr w) as (evs & T & H). destruct (rest w) as [r w1]; simpl in *.
  destruct (Abort target (d_id d) (backend w1)) as [res σ]. simpl.
  exists (evs ++ [EvAbort (d_id d)]). rewrite T, app_assoc. eauto.
Qed.

Lemma runs_skip_unless c msg (P : Exit + unit → list Event → Prop) :
  (c = true → P (inr tt) []) → (c = false → P (inl (Skipped msg)) []) →
  runs P (skip_unless (S := S) c msg).
Proof.
  intros H1 H2 w. exists []. rewrite app_nil_r. unfold skip_unless.
  destruct c; simpl; eauto.
Qed.

Lemma for_range_cons {A} (x : A) l i (body : Z → A → Bench S unit) w :
  for_range (x :: l) i body w
  = match body i x w with
    | (inl e, w') => (inl e, w')
    | (inr _, w') => for_range l (i + 1) body w'
    end.
Proof. reflexivity. Qed.

Lemma checked_AddRcpt d rcpt w :
  ∃ res σ,
    bind (delivery_AddRcpt target d rcpt) (fun err => fatal_on err) w
    = (match res with Some err => inl (Fatal err) | None => inr tt end,
       {| backend := σ; trace := trace w ++ [EvAddRcpt (d_id d) rcpt res];
          nextId := nextId w |}).
Proof.
  unfold bind, delivery_AddRcpt.
  destruct (AddRcpt target (d_id d) rcpt (backend w)) as [res σ].
  exists res, σ. by destruct res.
Qed.

(** The [range] loop over the templates adds the recipients in order and
    stops at the first one the backend rejects. *)
Lemma runs_add_recipients d (l : list string) (i : Z) :
  runs (fun r evs =>
          Forall (fun e => kind e = KAddRcpt) evs
          ∧ ∃ k, k ≤ length l ∧ rcpts_of evs = take k (range_recipients i l)
                 ∧ match r with inr _ => k = length l | inl _ => True end)
    (for_range l i (fun i rcptTemplate =>
       bind (delivery_AddRcpt target d (fill_template rcptTemplate i))
         (fun err => fatal_on err))).
Proof.
  revert i. induction l as [|t l IH]; intros i w.
  - exists []. simpl. rewrite app_nil_r. split; [done|]. split; [constructor|].
    exists 0. done.
  - rewrite for_range_cons.
    destruct (checked_AddRcpt d (fill_template t i) w) as (res & σ & ->).
    assert (Hhd : range_recipients i (t :: l)
                  = fill_template t i :: range_recipients (i + 1) l).
    { unfold range_recipients. cbn [imap]. rewrite Z.add_0_r. f_equal.
      apply imap_ext. intros k x _. simpl. f_equal. lia. }
    destruct res as [err|].
    + eexists [_]. split; [reflexivity|]. split; [by repeat constructor|].
      exists 1. split; [simpl; lia|]. rewrite Hhd. split; [reflexivity|exact I].
    + match goal with |- context [for_range l _ _ ?w1] =>
        destruct (IH (i + 1)%Z w1) as (evs & T & HK & k & Hk & Hr & Hres) end.
      eexists (_ :: evs). rewrite T. cbn [trace]. rewrite <- app_assoc.
      split; [reflexivity|]. split; [by constructor|].
      exists (Datatypes.S k). split; [simpl; lia|]. rewrite Hhd.
      change (rcpts_of (?e :: evs)) with (rcpts_of [e] ++ rcpts_of evs).
      rewrite Hr. split; [reflexivity|].
      destruct (for_range l _ _ _).1; [done|]. simpl. by rewrite Hres.
Qed.

Lemma count_BodyNonAtomic_other evs :
  Forall (fun e => kind e ≠ KBodyNonAtomic) evs → count is_BodyNonAtomic evs = 0.
Proof.
  induction 1 as [|e evs He _ IH]; [done|]. simpl. rewrite IH.
  unfold is_BodyNonAtomic. by rewrite bool_decide_eq_false_2.
Qed.

Lemma rcpts_of_other evs :
  Forall (fun e => kind e ≠ KAddRcpt) evs → rcpts_of evs = [].
Proof.
  induction 1 as [|e evs He _ IH]; [done|].
  change (e :: evs) with ([e] ++ evs). rewrite rcpts_of_app, IH.
  by destruct e.
Qed.

Lemma submissions_app tr1 tr2 : submissions (tr1 ++ tr2) = submissions tr1 ++ submissions tr2.
Proof. unfold submissions. apply bind_app. Qed.

Lemma submissions_other evs :
  Forall (fun e => kind e ≠ KBody ∧ kind e ≠ KBodyNonAtomic) evs → submissions evs = [].
Proof.
  induction 1 as [|e evs [H1 H2] _ IH]; [done|].
  change (e :: evs) with ([e] ++ evs). rewrite submissions_app, IH.
  by destruct e.
Qed.

Lemma call_BodyNonAtomic d sc hdr body w :
  ∃ sts σ,
    delivery_BodyNonAtomic target d sc hdr body w
    = (inr (foldl (fun m st => SetStatus m st.1 st.2) sc sts),
       {| backend := σ;
          trace := trace w ++ [EvBodyNonAtomic (d_id d) sc hdr body sts];
          nextId := nextId w |}).
Proof.
  unfold delivery_BodyNonAtomic.
  destruct (BodyNonAtomic target (d_id d) hdr body (backend w)) as [sts σ]. eauto.
Qed.

(** The timed loop of the BodyNonAtomic phase always runs to its end. *)
Lemma runs_BodyNonAtomic_loop d hdr body n i sc :
  runs (fun r evs => (∃ sc', r = inr sc') ∧ count is_BodyNonAtomic evs = n
                     ∧ Forall (fun e => kind e = KBodyNonAtomic) evs)
    (for_upto n i (fun _ sc => delivery_BodyNonAtomic target d sc hdr body) sc).
Proof.
  revert i sc. induction n as [|n IH]; intros i sc w.
  - exists []. simpl. rewrite app_nil_r. split; [done|]. split; [eauto|].
    split; [done|constructor].
  - rewrite for_upto_S.
    destruct (call_BodyNonAtomic d sc hdr body w) as (sts & σ & ->).
    match goal with |- context [for_upto n _ _ ?sc' ?w1] =>
      destruct (IH (i + 1)%Z sc' w1) as (evs & T & Hr & Hc & Hk) end.
    eexists (_ :: evs). rewrite T. cbn [trace]. rewrite <- app_assoc.
    split; [reflexivity|]. split; [exact Hr|].
    split; [cbn [count]; by rewrite Hc|by constructor].
Qed.

End Runs.

(** ** Recipients and body submissions of the Body and BodyNonAtomic phases *)

Section Shape.

Context {S : Type}.
Variable target : DeliveryTarget S.
Variable sender : string.
Variable recipientTemplates : list string.

Lemma checked_Body d hdr body w :
  ∃ res σ,
    bind (delivery_Body target d hdr body) (fun err => fatal_on err) w
    = (match res with Some err => inl (Fatal err) | None => inr tt end,
       {| backend := σ; trace := trace w ++ [EvBody (d_id d) hdr body res];
          nextId := nextId w |}).
Proof.
  unfold bind, delivery_Body.
  destruct (Body target (d_id d) hdr body (backend w)) as [res σ].
  exists res, σ. by destruct res.
Qed.

(** The timed loop of the Body phase stops at the first failed [Body]. *)
Lemma runs_Body_loop d hdr body n i :
  runs (fun r evs => Forall (fun e => kind e = KBody) evs ∧ length evs ≤ n
                     ∧ match r with inr _ => length evs = n | inl _ => True end)
    (for_upto n i (fun _ _ =>
       bind (delivery_Body target d hdr body) (fun err => fatal_on err)) tt).
Proof.
  revert i. induction n as [|n IH]; intros i w.
  - exists []. simpl. rewrite app_nil_r. repeat split; [constructor|lia].
  - rewrite for_upto_S.
    destruct (checked_Body d hdr body w) as (res & σ & ->).
    destruct res as [err|].
    + eexists [_]. split; [reflexivity|]. split; [by repeat constructor|].
      split; [simpl; lia|exact I].
    + match goal with |- context [for_upto n _ _ tt ?w1] =>
        destruct (IH (i + 1)%Z w1) as (evs & T & HK & Hle & Hr) end.
      eexists (_ :: evs). rewrite T. cbn [trace]. rewrite <- app_assoc.
      split; [reflexivity|]. split; [by constructor|]. split; [simpl; lia|].
      destruct (for_upto n _ _ _ _).1; [done|]. simpl. by rewrite Hr.
Qed.

Lemma submissions_length evs :
  Forall (fun e => kind e = KBody ∨ kind e = KBodyNonAtomic) evs →
  length (submissions evs) = length evs.
Proof.
  induction 1 as [|e evs He _ IH]; [done|].
  change (e :: evs) with ([e] ++ evs). rewrite submissions_app, !length_app, IH.
  by destruct e, He.
Qed.

Lemma kind_Start_Abort e :
  kind e ∈ [KStart; KAbort] →
  kind e ≠ KAddRcpt ∧ kind e ≠ KBody ∧ kind e ≠ KBodyNonAtomic.
Proof.
  intros H. apply elem_of_cons in H as [H|H]; [|apply list_elem_of_singleton in H];
    rewrite H; repeat split; discriminate.
Qed.

Lemma quiet_Start_Abort l :
  Forall (fun e => kind e ∈ [KStart; KAbort]) l → rcpts_of l = [] ∧ submissions l = [].
Proof.
  intros Hl. split.
  - apply rcpts_of_other. eapply Forall_impl; [exact Hl|].
    intros e He. by apply kind_Start_Abort.
  - apply submissions_other. eapply Forall_impl; [exact Hl|].
    intros e He. split; by apply kind_Start_Abort.
Qed.

Lemma phase_shape_frame full n (early : list Event → Prop) r pre evs post :
  Forall (fun e => kind e ∈ [KStart; KAbort]) pre →
  Forall (fun e => kind e ∈ [KStart; KAbort]) post →
  (∀ evs, early evs → early (pre ++ evs ++ post)) →
  phase_shape full n early r evs → phase_shape full n early r (pre ++ evs ++ post).
Proof.
  intros Hpre Hpost Hearly (k & Hk & Hr & Hs & Hres).
  assert (R : ∀ l, Forall (fun e => kind e ∈ [KStart; KAbort]) l → rcpts_of l = []).
  { intros l Hl. by apply quiet_Start_Abort. }
  assert (B : ∀ l, Forall (fun e => kind e ∈ [KStart; KAbort]) l → submissions l = []).
  { intros l Hl. by apply quiet_Start_Abort. }
  exists k. rewrite !rcpts_of_app, !submissions_app, (R pre), (R post), (B pre), (B post)
    by done. rewrite !app_nil_r. simpl.
  split; [done|]. split; [done|]. split; [done|].
  destruct r; [by apply Hearly|done].
Qed.

Lemma phase_shape_nothing full n (early : list Event → Prop) e evs :
  Forall (fun e => kind e ∈ [KStart; KAbort]) evs → early evs →
  phase_shape full n early (inl e) evs.
Proof.
  intros Hevs Hearly. exists 0.
  destruct (quiet_Start_Abort evs Hevs) as [HR HB].
  split; [lia|]. split; [done|]. split; [|done]. intros Hs. by destruct Hs.
Qed.

(** Recipients first, then the submissions of [loop]. *)
Lemma phase_shape_rest d n (early : list Event → Prop) (loop : Bench S unit) :
  runs (fun r evs => Forall (fun e => kind e = KBody ∨ kind e = KBodyNonAtomic) evs
                     ∧ match r with
                       | inr _ => length evs = n
                       | inl _ => early evs
                       end) loop →
  early [] →
  (∀ pre evs, Forall (fun e => kind e = KAddRcpt) pre → early evs → early (pre ++ evs)) →
  (∀ pre, Forall (fun e => kind e = KAddRcpt) pre → early pre) →
  runs (phase_shape (range_recipients 0 recipientTemplates) n early)
    (bind (add_all_recipients target recipientTemplates d) (fun _ => loop)).
Proof.
  intros Hloop He0 Hepre Hepre0.
  assert (Hlen : length (range_recipients 0 recipientTemplates) = length recipientTemplates).
  { unfold range_recipients. apply length_imap. }
  eapply runs_bind; [apply (runs_add_recipients target d recipientTemplates 0)|
                     intros _; exact Hloop| |].
  - intros e evs (HK & k & Hk & Hr & _). exists k. rewrite Hlen.
    split; [done|]. split; [done|].
    assert (Hs : submissions evs = []).
    { apply submissions_other. eapply Forall_impl; [exact HK|]. by intros x ->. }
    split; [by rewrite Hs|]. by apply Hepre0.
  - intros [] evs1 r evs2 (HK & k & Hk & Hr & ->) (HB & Hres).
    exists (length recipientTemplates). rewrite Hlen.
    rewrite rcpts_of_app, submissions_app, Hr.
    assert (Hs : submissions evs1 = []).
    { apply submissions_other. eapply Forall_impl; [exact HK|]. by intros x ->. }
    assert (Hr2 : rcpts_of evs2 = []).
    { apply rcpts_of_other. eapply Forall_impl; [exact HB|]. by intros x [-> | ->]. }
    rewrite Hs, Hr2, app_nil_r. simpl.
    split; [done|]. split; [done|]. split; [done|].
    destruct r as [e|[]].
    + by apply Hepre.
    + split; [done|]. by rewrite submissions_length.
Qed.

End Shape.

(** In the Body and BodyNonAtomic phases the recipients added are those of
    the templates, template [k] filled with [k], in list order, up to the
    first one the backend rejects; a body is submitted only after every one
    of them has been added; on a normal return all were added and exactly
    [b.N] submissions were made. The Body phase stops at the first failed
    [Body], the BodyNonAtomic phase never stops once its loop has begun: when
    it does not return normally, it has submitted nothing. *)
Theorem recipients_before_body {S : Type} (target : DeliveryTarget S) (idempotentBody : bool)
    (sender : string) (recipientTemplates : list string) (b : TB)
    (order : list (string * string)) (w : World S) :
  (∃ evs,
     trace (phase_Body target idempotentBody sender recipientTemplates b order w).2
     = trace w ++ evs
     ∧ phase_shape (range_recipients 0 recipientTemplates) (Z.to_nat (bN b))
         (fun evs => length (submissions evs) ≤ Z.to_nat (bN b))
         (phase_Body target idempotentBody sender recipientTemplates b order w).1 evs)
  ∧ (∃ evs,
       trace (phase_BodyNonAtomic target idempotentBody sender recipientTemplates b order w).2
       = trace w ++ evs
       ∧ phase_shape (range_recipients 0 recipientTemplates) (Z.to_nat (bN b))
           (fun evs => submissions evs = [])
           (phase_BodyNonAtomic target idempotentBody sender recipientTemplates
              b order w).1 evs).
Proof.
  split.
  - revert w. change (runs (phase_shape (range_recipients 0 recipientTemplates)
      (Z.to_nat (bN b)) (fun evs => length (submissions evs) ≤ Z.to_nat (bN b)))
      (phase_Body target idempotentBody sender recipientTemplates b order)).
    unfold phase_Body.
    eapply (runs_bind (fun _ evs => evs = [])); [by apply runs_skip_unless| | |].
    2: { intros e evs ->. apply phase_shape_nothing; [constructor|simpl; lia]. }
    2: { by intros a evs1 r evs2 ->. }
    intros _. destruct (RandomMsg (bName b) order) as [[meta hdr] body].
    apply (runs_started target sender meta
             (fun _ => phase_shape (range_recipients 0 recipientTemplates)
                (Z.to_nat (bN b)) (fun evs => length (submissions evs) ≤ Z.to_nat (bN b)))).
    + intros d.
      eapply (runs_defer_Abort target d
                (phase_shape (range_recipients 0 recipientTemplates) (Z.to_nat (bN b))
                   (fun evs => length (submissions evs) ≤ Z.to_nat (bN b)))).
      * apply phase_shape_rest.
        -- eapply runs_mono; [|apply runs_Body_loop].
           intros r evs (HK & Hle & Hr). split.
           { eapply Forall_impl; [exact HK|]. by left. }
           destruct r; [|done]. rewrite submissions_length; [done|].
           eapply Forall_impl; [exact HK|]. by left.
        -- simpl. lia.
        -- intros pre evs Hpre H. rewrite submissions_app, length_app.
           rewrite (submissions_other pre); [done|].
           eapply Forall_impl; [exact Hpre|]. by intros x ->.
        -- intros pre Hpre. rewrite (submissions_other pre); [simpl; lia|].
           eapply Forall_impl; [exact Hpre|]. by intros x ->.
      * intros r evs H.
        apply (phase_shape_frame _ _ _ r [] evs [EvAbort (d_id d)]);
          [constructor|repeat constructor; set_solver| |done].
        intros evs' H'. simpl. rewrite submissions_app. simpl. by rewrite app_nil_r.
    + intros err. apply phase_shape_nothing; [repeat constructor; set_solver|simpl; lia].
    + intros d r evs H.
      apply (phase_shape_frame _ _ _ r [EvStart (d_id d) (d_partial d)] evs []) in H;
        [by rewrite app_nil_r in H|repeat constructor; set_solver|constructor|].
      intros evs' H'. rewrite app_nil_r. simpl. done.
  - revert w. change (runs (phase_shape (range_recipients 0 recipientTemplates)
      (Z.to_nat (bN b)) (fun evs => submissions evs = []))
      (phase_BodyNonAtomic target idempotentBody sender recipientTemplates b order)).
    unfold phase_BodyNonAtomic.
    eapply (runs_bind (fun _ evs => evs = [])); [by apply runs_skip_unless| | |].
    2: { intros e evs ->. by apply phase_shape_nothing; [constructor|]. }
    2: { by intros a evs1 r evs2 ->. }
    intros _. destruct (RandomMsg (bName b) order) as [[meta hdr] body].
    apply (runs_started target sender meta
             (fun _ => phase_shape (range_recipients 0 recipientTemplates)
                (Z.to_nat (bN b)) (fun evs => submissions evs = []))).
    + intros d.
      eapply (runs_defer_Abort target d
                (phase_shape (range_recipients 0 recipientTemplates) (Z.to_nat (bN b))
                   (fun evs => submissions evs = []))).
      * eapply (runs_bind (fun _ evs => evs = [])); [by apply runs_skip_unless| | |].
        2: { intros e evs ->. by apply phase_shape_nothing; [constructor|]. }
        2: { by intros a evs1 r evs2 ->. }
        intros _. apply phase_shape_rest; [| done | |].
        -- eapply (runs_bind _ (fun r evs => evs = [] ∧ r = inr tt));
             [apply runs_BodyNonAtomic_loop| | |].
           ++ intros sc'. intros w. exists []. by rewrite app_nil_r.
           ++ intros e evs ([sc' [=]] & _).
           ++ intros sc' evs1 r evs2 (_ & Hc & HK) [-> ->]. rewrite app_nil_r.
              split; [eapply Forall_impl; [exact HK|]; by right|].
              clear -Hc HK. revert Hc. generalize (Z.to_nat (bN b)). intros n <-.
              induction HK as [|e evs He _ IH]; [done|]. simpl. rewrite IH.
              unfold is_BodyNonAtomic. by rewrite bool_decide_eq_true_2.
        -- intros pre evs Hpre H. rewrite submissions_app, H, app_nil_r.
           apply submissions_other. eapply Forall_impl; [exact Hpre|]. by intros x ->.
        -- intros pre Hpre. apply submissions_other.
           eapply Forall_impl; [exact Hpre|]. by intros x ->.
      * intros r evs H.
        apply (phase_shape_frame _ _ _ r [] evs [EvAbort (d_id d)]);
          [constructor|repeat constructor; set_solver| |done].
        intros evs' H'. simpl. rewrite submissions_app, H'. done.
    + intros err. by apply phase_shape_nothing; [repeat constructor; set_solver|].
    + intros d r evs H.
      apply (phase_shape_frame _ _ _ r [EvStart (d_id d) (d_partial d)] evs []) in H;
        [by rewrite app_nil_r in H|repeat constructor; set_solver|constructor|].
      intros evs' H'. rewrite app_nil_r. simpl. done.
Qed.

(** ** The order of calls on one delivery *)

Lemma proto_run_app d s evs1 evs2 :
  proto_run d s (evs1 ++ evs2) = proto_run d (proto_run d s evs1) evs2.
Proof. apply foldl_app. Qed.

Lemma proto_run_cons d s e evs :
  proto_run d s (e :: evs) = proto_run d (proto_step d s e) evs.
Proof. reflexivity. Qed.

Lemma proto_step_Start d n p :
  proto_step d NotStarted (EvStart n p) = if decide (n = d) then Open else NotStarted.
Proof.
  unfold proto_step. cbn [ev_id].
  destruct (decide (n = d)) as [->|Hne]; [by rewrite decide_True|].
  rewrite decide_False; [done|congruence].
Qed.

Lemma proto_run_other d s evs :
  Forall (fun e => ev_id e ≠ Some d) evs → proto_run d s evs = s.
Proof.
  induction 1 as [|e evs He _ IH]; [done|].
  cbn [proto_run foldl]. unfold proto_step at 2. rewrite decide_False by done. exact IH.
Qed.

Lemma proto_run_out lo hi d s evs :
  Forall (in_range lo hi) evs → ¬ (lo ≤ d < hi) → proto_run d s evs = s.
Proof.
  intros H Hout. apply proto_run_other. eapply Forall_impl; [exact H|].
  intros e He Heq. apply Hout, He, Heq.
Qed.

Lemma proto_run_on_other n d s evs :
  Forall (fun e => ev_id e = Some n) evs → d ≠ n → proto_run d s evs = s.
Proof.
  intros H Hne. apply proto_run_other. eapply Forall_impl; [exact H|].
  intros e He. rewrite He. congruence.
Qed.

Section Protocol.

Context {S : Type}.
Variable target : DeliveryTarget S.
Variable sender : string.
Variable recipientTemplates : list string.

Lemma conforms_refl (F : PState → Prop) (w : World S) : F NotStarted → conforms F w w.
Proof.
  intros HF. exists []. rewrite app_nil_r. repeat split; [lia|constructor|done].
Qed.

Lemma conforms_trans (F1 F2 F3 : PState → Prop) (w1 w2 w3 : World S) :
  (∀ s, F1 s → F3 s) → (∀ s, F2 s → F3 s) →
  conforms F1 w1 w2 → conforms F2 w2 w3 → conforms F3 w1 w3.
Proof.
  intros H13 H23 (e1 & T1 & N1 & R1 & C1) (e2 & T2 & N2 & R2 & C2).
  exists (e1 ++ e2). rewrite T2, T1, app_assoc.
  split; [done|]. split; [lia|]. split.
  - apply Forall_app. split.
    + eapply Forall_impl; [exact R1|]. intros e. apply in_range_mono; lia.
    + eapply Forall_impl; [exact R2|]. intros e. apply in_range_mono; lia.
  - intros d. rewrite proto_run_app.
    destruct (decide (d < nextId w2)) as [Hlt|Hge].
    + rewrite (proto_run_out _ _ d _ e2 R2) by lia. apply H13, C1.
    + rewrite (proto_run_out _ _ d _ e1 R1) by lia. apply H23, C2.
Qed.

Lemma conforms_mono (F F' : PState → Prop) (w w' : World S) :
  (∀ s, F s → F' s) → conforms F w w' → conforms F' w w'.
Proof. intros HF (evs & T & N & R & C). exists evs. eauto 10. Qed.

Lemma drives_mono {A} n s (P P' E E' : PState → Prop) (m : Bench S A) :
  (∀ s, P s → P' s) → (∀ s, E s → E' s) → drives n s P E m → drives n s P' E' m.
Proof.
  intros HP HE H w. destruct (H w) as (evs & T & N & F & R). exists evs.
  repeat split; try done. destruct (m w).1; eauto.
Qed.

Lemma drives_pure {A} n s (P E : PState → Prop) (r : Exit + A) :
  (if r is inr _ then P s else E s) → drives n s P E (fun w : World S => (r, w)).
Proof.
  intros H w. exists []. simpl. rewrite app_nil_r. repeat split; [constructor|].
  by destruct r.
Qed.

Lemma drives_bind {A B} n s (P1 P2 E : PState → Prop) (m : Bench S A) (f : A → Bench S B) :
  drives n s P1 E m → (∀ a s1, P1 s1 → drives n s1 P2 E (f a)) →
  drives n s P2 E (bind m f).
Proof.
  intros Hm Hf w. unfold bind.
  destruct (Hm w) as (e1 & T1 & N1 & F1 & R1).
  destruct (m w) as [[e|a] w1]; simpl in *; [by exists e1|].
  destruct (Hf a _ R1 w1) as (e2 & T2 & N2 & F2 & R2).
  exists (e1 ++ e2). rewrite T2, T1, app_assoc, N2, N1, proto_run_app.
  repeat split; [by apply Forall_app|done].
Qed.

Lemma drives_for_upto {St} n (P E : PState → Prop) k i (body : Z → St → Bench S St) st s :
  (∀ i st s1, P s1 → drives n s1 P E (body i st)) → P s →
  drives n s P E (for_upto k i body st).
Proof.
  intros Hb. revert i st s. induction k as [|k IH]; intros i st s Hs.
  - by apply (drives_pure n s P E (inr st)).
  - cbn [for_upto]. eapply drives_bind; [by apply Hb|]. intros st' s1 Hs1. by apply IH.
Qed.

Lemma drives_for_range {A} n (P E : PState → Prop) (l : list A) i
    (body : Z → A → Bench S unit) s :
  (∀ i x s1, P s1 → drives n s1 P E (body i x)) → P s →
  drives n s P E (for_range l i body).
Proof.
  intros Hb. revert i s. induction l as [|x l IH]; intros i s Hs.
  - by apply (drives_pure n s P E (inr tt)).
  - cbn [for_range]. eapply drives_bind; [by apply Hb|]. intros _ s1 Hs1. by apply IH.
Qed.

(** A call whose result is checked: [s_ok] when it returns no error,
    [s_err] and [b.Fatal] when it returns one. *)
Lemma drives_checked n s s_ok s_err (call : Bench S (option error)) (ev : option error → Event) :
  (∀ w, ∃ res σ, call w = (inr res, {| backend := σ; trace := trace w ++ [ev res];
                                       nextId := nextId w |})) →
  (∀ res, ev_id (ev res) = Some n) →
  proto_step n s (ev None) = s_ok →
  (∀ err, proto_step n s (ev (Some err)) = s_err) →
  drives n s (fun s' => s' = s_ok) (fun s' => s' = s_err)
    (bind call (fun err => fatal_on err)).
Proof.
  intros Hcall Hid Hok Herr w. unfold bind.
  destruct (Hcall w) as (res & σ & ->).
  exists [ev res]. destruct res as [err|]; simpl.
  - repeat split; [by repeat constructor|apply Herr].
  - repeat split; [by repeat constructor|apply Hok].
Qed.

Lemma drives_AddRcpt d rcpt :
  drives (d_id d) Open (fun s => s = Open) (fun s => s = Failed)
    (bind (delivery_AddRcpt target d rcpt) (fun err => fatal_on err)).
Proof.
  apply (drives_checked _ _ _ _ _ (EvAddRcpt (d_id d) rcpt)).
  - intros w. unfold delivery_AddRcpt. destruct (AddRcpt target _ _ _) as [res σ]. eauto.
  - done.
  - unfold proto_step. simpl. by rewrite decide_True.
  - intros err. unfold proto_step. simpl. by rewrite decide_True.
Qed.

Lemma drives_Body d hdr body s :
  s = Open ∨ s = Submitted →
  drives (d_id d) s (fun s => s = Submitted) (fun s => s = Failed)
    (bind (delivery_Body target d hdr body) (fun err => fatal_on err)).
Proof.
  intros Hs. apply (drives_checked _ _ _ _ _ (EvBody (d_id d) hdr body)).
  - intros w. unfold delivery_Body. destruct (Body target _ _ _ _) as [res σ]. eauto.
  - done.
  - unfold proto_step. cbn [ev_id]. rewrite decide_True by done.
    by destruct Hs as [-> | ->].
  - intros err. unfold proto_step. cbn [ev_id]. rewrite decide_True by done.
    by destruct Hs as [-> | ->].
Qed.

Lemma drives_Commit d :
  drives (d_id d) Submitted (fun s => s = Closed) (fun s => s = Closed)
    (bind (delivery_Commit target d) (fun err => fatal_on err)).
Proof.
  apply (drives_checked _ _ _ _ _ (EvCommit (d_id d))).
  - intros w. unfold delivery_Commit. destruct (Commit target _ _) as [res σ]. eauto.
  - done.
  - unfold proto_step. simpl. by rewrite decide_True.
  - intros err. unfold proto_step. simpl. by rewrite decide_True.
Qed.

Lemma drives_BodyNonAtomic d sc hdr body s (E : PState → Prop) :
  s = Open ∨ s = Submitted →
  drives (d_id d) s (fun s => s = Submitted) E
    (delivery_BodyNonAtomic target d sc hdr body).
Proof.
  intros Hs w. destruct (call_BodyNonAtomic target d sc hdr body w) as (sts & σ & ->).
  eexists [_]. cbn [fst snd trace nextId]. repeat split; [by repeat constructor|].
  cbn [proto_run foldl]. unfold proto_step. cbn [ev_id]. rewrite decide_True by done.
  by destruct Hs as [-> | ->].
Qed.

Lemma drives_add_all_recipients d :
  drives (d_id d) Open (fun s => s = Open) (fun s => s = Failed)
    (add_all_recipients target recipientTemplates d).
Proof.
  unfold add_all_recipients. apply drives_for_range; [|done].
  intros i x s1 ->. apply drives_AddRcpt.
Qed.

(** The deferred [Abort] closes the delivery, wherever the rest of the
    function left it, provided it is not closed yet. *)
Lemma drives_defer_Abort {A} d s (P E : PState → Prop) (rest : Bench S A) :
  drives (d_id d) s P E rest →
  (∀ s1, P s1 ∨ E s1 → s1 = Open ∨ s1 = Submitted ∨ s1 = Failed) →
  drives (d_id d) s (fun s => s = Closed) (fun s => s = Closed)
    (defer (delivery_Abort target d) rest).
Proof.
  intros Hr Hab w. unfold defer, delivery_Abort.
  destruct (Hr w) as (evs & T & N & F & R). destruct (rest w) as [r w1]; simpl in *.
  destruct (Abort target (d_id d) (backend w1)) as [res σ]. simpl.
  exists (evs ++ [EvAbort (d_id d)]). rewrite T, app_assoc, proto_run_app.
  split; [done|]. split; [done|].
  split; [apply Forall_app; split; [done|by repeat constructor]|].
  assert (Hs : proto_run (d_id d) (proto_run (d_id d) s evs) [EvAbort (d_id d)] = Closed).
  { cbn [proto_run foldl]. unfold proto_step at 1. cbn [ev_id].
    rewrite decide_True by done. fold (proto_run (d_id d) s evs).
    destruct (Hab (proto_run (d_id d) s evs)) as [-> | [-> | ->]]; [|done..].
    destruct r; eauto. }
  by destruct r.
Qed.

(** [Start], [b.Fatal] on failure, then calls on the new delivery only. *)
Lemma started_conforms {A} meta (P E FP FE : PState → Prop) (rest : Delivery → Bench S A) :
  (∀ d, drives (d_id d) Open P E (rest d)) →
  (∀ s, P s → FP s) → (∀ s, E s → FE s) → FP NotStarted → FE NotStarted →
  conforms_run FP FE
    (bind (target_Start target sender meta)
       (fun r => match r with inl err => b_Fatal err | inr d => rest d end)).
Proof.
  intros Hrest HP HE HP0 HE0 w. unfold bind, target_Start.
  destruct (Start target meta sender (backend w)) as [[err|p] σ]; simpl.
  - exists [EvStartFailed err]. simpl. repeat split; [lia| |].
    + constructor; [|constructor]. intros d [=].
    + intros d. exact HE0.
  - match goal with |- context [rest ?d ?w1] =>
      destruct (Hrest d w1) as (evs & T & N & F & R); destruct (rest d w1) as [r w2] end.
    simpl in *.
    assert (C : ∀ F' : PState → Prop, F' NotStarted →
               F' (proto_run (nextId w) Open evs) →
               conforms F' w w2).
    { intros F' H0 Hn. exists (EvStart (nextId w) p :: evs).
      rewrite T, <- app_assoc, N. cbn [app nextId]. split; [done|]. split; [lia|]. split.
      - constructor.
        + intros d [= <-]. lia.
        + eapply Forall_impl; [exact F|]. intros e He d Hd.
          rewrite He in Hd. injection Hd as <-. lia.
      - intros d. rewrite proto_run_cons, proto_step_Start.
        destruct (decide (nextId w = d)) as [<-|Hne]; [done|].
        rewrite (proto_run_on_other (nextId w)); [done..|congruence]. }
    destruct r; apply C; auto.
Qed.

Lemma conforms_run_skip_unless (FP FE : PState → Prop) c msg (rest : Bench S unit) :
  FE NotStarted → conforms_run FP FE rest →
  conforms_run FP FE (bind (skip_unless c msg) (fun _ => rest)).
Proof.
  intros H0 Hrest w. unfold bind, skip_unless.
  destruct c; simpl; [apply Hrest|by apply conforms_refl].
Qed.

End Protocol.

Section ProtocolPhases.

Context {S : Type}.
Variable target : DeliveryTarget S.
Variable idempotentBody : bool.
Variable sender : string.
Variable recipientTemplates : list string.

Lemma drives_ext {A} n s (P E : PState → Prop) (m m' : Bench S A) :
  (∀ w, m w = m' w) → drives n s P E m → drives n s P E m'.
Proof. intros Heq H w. rewrite <- Heq. apply H. Qed.

Lemma drives_skip_unless n s (P E : PState → Prop) c msg :
  P s → E s → drives n s P E (skip_unless (S := S) c msg).
Proof.
  intros HP HE. unfold skip_unless.
  destruct c; [by apply (drives_pure n s P E (inr tt))|].
  by apply (drives_pure (A := unit) n s P E (inl (Skipped msg))).
Qed.

Lemma phase_AddRcpt_conforms b order :
  conforms_run settled settled (phase_AddRcpt target sender recipientTemplates b order).
Proof.
  unfold phase_AddRcpt. destruct (RandomMsg (bName b) order) as [[meta hdr] body].
  apply (started_conforms target sender meta (fun s => s = Closed) (fun s => s = Closed));
    [|by right|by right|by left|by left].
  intros d.
  apply (drives_defer_Abort target d Open (fun s => s = Open) (fun s => s = Open ∨ s = Failed)).
  - apply drives_for_upto; [|done]. intros i _ s1 ->.
    apply (drives_bind _ _ (fun s => s = Open)).
    + apply (drives_pure (d_id d) Open (fun s => s = Open) (fun s => s = Open ∨ s = Failed)
               (addrcpt_recipient recipientTemplates i)).
      destruct (addrcpt_recipient _ _); [by left|done].
    + intros rcpt s1 ->. eapply drives_mono; [| |apply drives_AddRcpt]; cbv beta; intros; subst; auto.
  - intros s1 [->|[->| ->]]; auto.
Qed.

Lemma phase_Body_conforms b order :
  conforms_run settled settled
    (phase_Body target idempotentBody sender recipientTemplates b order).
Proof.
  unfold phase_Body. apply conforms_run_skip_unless; [by left|].
  destruct (RandomMsg (bName b) order) as [[meta hdr] body].
  apply (started_conforms target sender meta (fun s => s = Closed) (fun s => s = Closed));
    [|by right|by right|by left|by left].
  intros d.
  apply (drives_defer_Abort target d Open (fun s => s = Open ∨ s = Submitted)
           (fun s => s = Failed)).
  - apply (drives_bind _ _ (fun s => s = Open)); [apply drives_add_all_recipients|].
    intros _ s1 ->. apply drives_for_upto; [|by left]. intros i _ s1 Hs1.
    eapply drives_mono; [| |by apply drives_Body]; cbv beta; intros; subst; auto.
  - intros s1 [[->| ->]| ->]; auto.
Qed.

Lemma phase_BodyNonAtomic_conforms b order :
  conforms_run settled settled
    (phase_BodyNonAtomic target idempotentBody sender recipientTemplates b order).
Proof.
  unfold phase_BodyNonAtomic. apply conforms_run_skip_unless; [by left|].
  destruct (RandomMsg (bName b) order) as [[meta hdr] body].
  apply (started_conforms target sender meta (fun s => s = Closed) (fun s => s = Closed));
    [|by right|by right|by left|by left].
  intros d.
  apply (drives_defer_Abort target d Open (fun s => s = Open ∨ s = Submitted)
           (fun s => s = Open ∨ s = Failed)).
  - apply (drives_bind _ _ (fun s => s = Open)); [apply drives_skip_unless; auto|].
    intros _ s1 ->. apply (drives_bind _ _ (fun s => s = Open)).
    { eapply drives_mono; [| |apply drives_add_all_recipients]; cbv beta; intros; subst; auto. }
    intros _ s1 ->. apply (drives_bind _ _ (fun s => s = Open ∨ s = Submitted)).
    + apply drives_for_upto; [|by left]. intros i sc s1 Hs1.
      eapply drives_mono;
        [| |apply (drives_BodyNonAtomic target d sc hdr body s1
                     (fun s => s = Open ∨ s = Failed) Hs1)];
        cbv beta; intros; subst; auto.
    + intros _ s1 Hs1. by apply (drives_pure (d_id d) s1 _ _ (inr tt)).
  - intros s1 [[->| ->]|[->| ->]]; auto.
Qed.

Lemma phase_Full_conforms b order :
  conforms_run settled legal (phase_Full target sender recipientTemplates b order).
Proof.
  unfold phase_Full. destruct (RandomMsg (bName b) order) as [[meta hdr] body].
  intros w.
  pose proof (for_upto_ind (fun (_ : unit) w1 => conforms settled w w1)
    (fun w1 => conforms legal w w1)
    (fun (i : Z) (_ : unit) =>
       bind (target_Start target sender meta)
         (fun r => match r with
                   | inl err => b_Fatal err
                   | inr delivery =>
                       bind (add_all_recipients target recipientTemplates delivery) (fun _ =>
                       bind (delivery_Body target delivery hdr body) (fun err =>
                       bind (fatal_on err) (fun _ =>
                       bind (delivery_Commit target delivery) (fun err => fatal_on err))))
                   end))) as Hloop.
  assert (Hstep : ∀ (i : Z) (s : unit) w1, conforms settled w w1 →
    match bind (target_Start target sender meta)
            (fun r => match r with
                      | inl err => b_Fatal err
                      | inr delivery =>
                          bind (add_all_recipients target recipientTemplates delivery) (fun _ =>
                          bind (delivery_Body target delivery hdr body) (fun err =>
                          bind (fatal_on err) (fun _ =>
                          bind (delivery_Commit target delivery) (fun err => fatal_on err))))
                      end) w1 with
    | (inr _, w') => conforms settled w w'
    | (inl _, w') => conforms legal w w'
    end).
  { intros i s w1 Hext.
    pose proof (started_conforms target sender meta (fun s => s = Closed)
      (fun s => s = Failed ∨ s = Closed) settled legal
      (fun delivery =>
         bind (add_all_recipients target recipientTemplates delivery) (fun _ =>
         bind (delivery_Body target delivery hdr body) (fun err =>
         bind (fatal_on err) (fun _ =>
         bind (delivery_Commit target delivery) (fun err => fatal_on err)))))) as Hst.
    specialize (Hst ltac:(
      intros d;
      apply (drives_bind _ _ (fun s => s = Open));
        [eapply drives_mono; [| |apply drives_add_all_recipients]; cbv beta; intros; subst; auto|];
      intros _ s1 ->;
      apply (drives_ext _ _ _ _
        (bind (bind (delivery_Body target d hdr body) (fun err => fatal_on err)) (fun _ =>
         bind (delivery_Commit target d) (fun err => fatal_on err))));
        [intros w0; symmetry; apply bind_assoc|];
      apply (drives_bind _ _ (fun s => s = Submitted));
        [eapply drives_mono; [| |apply drives_Body; by left]; cbv beta; intros; subst; auto|];
      intros _ s1 ->;
      eapply drives_mono; [| |apply drives_Commit]; cbv beta; intros; subst; auto)
      ltac:(by right) ltac:(by intros s0 [->| ->]) ltac:(by left) ltac:(done) w1).
    destruct (bind _ _ w1) as [[e|u] w2]; simpl in Hst.
    - eapply (conforms_trans settled legal legal); [| |exact Hext|exact Hst]; [|done].
      by intros s0 [->| ->].
    - by eapply (conforms_trans settled settled settled); [| |exact Hext|exact Hst]. }
  specialize (Hloop Hstep (Z.to_nat (bN b)) 0%Z tt w (conforms_refl settled w ltac:(by left))).
  destruct (for_upto _ _ _ _ _) as [[e|u] w1]; exact Hloop.
Qed.

Lemma bind_unfold {A B} (m : Bench S A) (f : A → Bench S B) w :
  bind m f w = match m w with
               | (inl e, w') => (inl e, w')
               | (inr a, w') => f a w'
               end.
Proof. reflexivity. Qed.

Lemma abort_all (ds : list Delivery) i (w : World S) :
  ∃ σ, for_range ds i (fun _ delivery => delivery_Abort target delivery) w
       = (inr tt, {| backend := σ;
                     trace := trace w ++ ((fun d => EvAbort (d_id d)) <$> ds);
                     nextId := nextId w |}).
Proof.
  revert i w. induction ds as [|d ds IH]; intros i w.
  - exists (backend w). simpl. rewrite app_nil_r. by destruct w.
  - rewrite for_range_cons. unfold delivery_Abort at 1.
    destruct (Abort target (d_id d) (backend w)) as [res σ].
    match goal with |- context [for_range ds _ _ ?w1] =>
      destruct (IH (i + 1)%Z w1) as (σ' & ->) end.
    exists σ'. cbn [trace nextId fmap list_fmap]. by rewrite <- app_assoc.
Qed.

Lemma proto_run_aborts d (ids : list nat) :
  NoDup ids →
  proto_run d Open (EvAbort <$> ids) = if decide (d ∈ ids) then Closed else Open.
Proof.
  induction 1 as [|a ids Ha Hnd IH]; [done|].
  cbn [fmap list_fmap]. rewrite proto_run_cons. unfold proto_step. cbn [ev_id].
  destruct (decide (Some a = Some d)) as [[= <-]|Hne].
  - rewrite decide_True by (by left).
    apply proto_run_other. apply Forall_fmap, Forall_forall.
    intros x Hx. simpl. intros [= ->]. done.
  - rewrite IH. destruct (decide (d ∈ ids)) as [Hin|Hnin].
    + rewrite decide_True; [done|by right].
    + rewrite decide_False; [done|]. intros [->|?]%elem_of_cons; [congruence|done].
Qed.

Lemma phase_Start_conforms b order :
  conforms_run settled legal (phase_Start target sender b order).
Proof.
  unfold phase_Start. destruct (RandomMsg (bName b) order) as [[meta hdr] body].
  intros w. rewrite bind_unfold.
  pose (I := fun (ds : list Delivery) (w1 : World S) =>
    ∃ evs, trace w1 = trace w ++ evs
           ∧ nextId w ≤ nextId w1
           ∧ Forall (in_range (nextId w) (nextId w1)) evs
           ∧ NoDup (d_id <$> ds)
           ∧ Forall (fun d => nextId w ≤ d_id d < nextId w1) ds
           ∧ ∀ d, proto_run d NotStarted evs
                  = if decide (d ∈ d_id <$> ds) then Open else NotStarted).
  pose proof (for_upto_ind I (fun w1 => conforms legal w w1)
    (fun (i : Z) deliveries =>
       bind (target_Start target sender meta)
         (fun r => match r with
                   | inl err => b_Fatal err
                   | inr delivery => ret (deliveries ++ [delivery])
                   end))) as Hloop.
  assert (Hstep : ∀ (i : Z) ds w1, I ds w1 →
    match bind (target_Start target sender meta)
            (fun r => match r with
                      | inl err => b_Fatal err
                      | inr delivery => ret (ds ++ [delivery])
                      end) w1 with
    | (inr ds', w') => I ds' w'
    | (inl _, w') => conforms legal w w'
    end).
  { intros i ds w1 (evs & T & N & R & Hnd & Hds & Hst). unfold bind, target_Start.
    destruct (Start target meta sender (backend w1)) as [[err|p] σ]; simpl.
    - exists (evs ++ [EvStartFailed err]). rewrite T, app_assoc. cbn [nextId].
      split; [done|]. split; [done|]. split.
      + apply Forall_app. split; [done|]. constructor; [|constructor]. intros d [=].
      + intros d. rewrite proto_run_app, Hst. unfold legal. simpl.
        by destruct (decide (d ∈ d_id <$> ds)).
    - exists (evs ++ [EvStart (nextId w1) p]). rewrite T, app_assoc. cbn [nextId].
      assert (Hfresh : nextId w1 ∉ d_id <$> ds).
      { intros (d & Hd & Hin)%list_elem_of_fmap. rewrite Forall_forall in Hds.
        specialize (Hds d Hin). lia. }
      split; [done|]. split; [lia|]. split; [|split; [|split]].
      + apply Forall_app. split.
        * eapply Forall_impl; [exact R|]. intros e. apply in_range_mono; lia.
        * constructor; [|constructor]. intros d [= <-]. lia.
      + rewrite fmap_app. apply NoDup_app. split; [done|]. split.
        * intros x Hx Hx'. apply list_elem_of_singleton in Hx'. by subst x.
        * apply NoDup_singleton.
      + apply Forall_app. split.
        * eapply Forall_impl; [exact Hds|]. simpl. intros; lia.
        * constructor; [simpl; lia|constructor].
      + intros d. rewrite proto_run_app, Hst, fmap_app. cbn [fmap list_fmap].
        cbn [proto_run foldl]. unfold proto_step. cbn [ev_id].
        destruct (decide (Some (nextId w1) = Some d)) as [[= <-]|Hne].
        * rewrite decide_False by done. rewrite decide_True; [done|].
          apply elem_of_app. right. by apply list_elem_of_singleton.
        * destruct (decide (d ∈ d_id <$> ds)) as [Hin|Hnin].
          -- rewrite decide_True; [done|]. apply elem_of_app. by left.
          -- rewrite decide_False; [done|].
             intros [?|Hx]%elem_of_app; [done|].
             apply list_elem_of_singleton in Hx. simpl in Hx. subst d. by apply Hne. }
  specialize (Hloop Hstep (Z.to_nat (bN b)) 0%Z [] w).
  assert (I0 : I [] w).
  { exists []. rewrite app_nil_r. split; [done|]. split; [lia|].
    split; [constructor|]. split; [constructor|]. split; [constructor|].
    intros d. reflexivity. }
  specialize (Hloop I0).
  destruct (for_upto _ _ _ _ _) as [[e|ds] w1]; [exact Hloop|].
  destruct Hloop as (evs & T & N & R & Hnd & Hds & Hst).
  destruct (abort_all ds 0 w1) as (σ & ->). cbn [fst snd].
  unfold conforms.
  exists (evs ++ ((fun d => EvAbort (d_id d)) <$> ds)).
  cbn [trace nextId]. rewrite T, app_assoc.
  split; [done|]. split; [done|]. split.
  - apply Forall_app. split; [done|]. apply Forall_fmap.
    eapply Forall_impl; [exact Hds|]. intros d Hd x [= <-]. simpl in Hd. lia.
  - intros d. rewrite proto_run_app, Hst.
    replace ((fun d0 => EvAbort (d_id d0)) <$> ds) with (EvAbort <$> (d_id <$> ds))
      by (by rewrite <- list_fmap_compose).
    destruct (decide (d ∈ d_id <$> ds)) as [Hin|Hnin].
    + rewrite proto_run_aborts by done. rewrite decide_True by done. by right.
    + rewrite proto_run_other; [by left|].
      apply Forall_fmap, Forall_forall. intros x Hx. simpl. intros [= ->]. done.
Qed.

(** The calls of one sub-benchmark keep to the protocol when every single
    call does: a call works on deliveries of its own. *)
Lemma run_calls_conforms name (f : TB → list (string * string) → Bench S unit) FP calls w :
  (∀ s, FP s → legal s) →
  (∀ b order, conforms_run FP legal (f b order)) →
  conforms legal w (run_calls name f calls w).2.
Proof.
  intros HFP Hf. revert w. induction calls as [|[n order] calls IH]; intros w.
  - apply conforms_refl. done.
  - cbn [run_calls]. specialize (Hf {| bName := name; bN := n |} order w).
    destruct (f _ order w) as [[[err|msg|msg]|u] w1]; simpl in *; try exact Hf.
    apply (conforms_trans FP legal legal w w1 _ HFP (fun s H => H) Hf (IH w1)).
Qed.

Lemma b_Run_conforms sub (f : TB → list (string * string) → Bench S unit) FP w :
  (∀ s, FP s → legal s) →
  (∀ b order, conforms_run FP legal (f b order)) → conforms legal w (b_Run sub f w).2.
Proof. intros HFP Hf. unfold b_Run. by apply (run_calls_conforms _ _ FP). Qed.

Lemma settled_legal s : settled s → legal s.
Proof. by intros [->| ->]. Qed.

Lemma conforms_run_weaken {A} (m : Bench S A) :
  conforms_run settled settled m → conforms_run settled legal m.
Proof.
  intros H w. specialize (H w). destruct (m w).1; [|done].
  eapply conforms_mono; [apply settled_legal|exact H].
Qed.

Lemma BenchDelivery_conforms subs w :
  conforms legal w
    (BenchDelivery target idempotentBody sender recipientTemplates subs w).2.
Proof.
  assert (Hl : ∀ s, legal s → legal s) by done.
  unfold BenchDelivery, bind.
  pose proof (b_Run_conforms (subs "Start") (phase_Start target sender) settled w
                settled_legal phase_Start_conforms) as H1.
  destruct (b_Run (subs "Start") _ w) as [[e|u] w1]; [exact H1|]. simpl in H1.
  pose proof (b_Run_conforms (subs "AddRcpt")
                (phase_AddRcpt target sender recipientTemplates) settled w1 settled_legal
                (fun b o => conforms_run_weaken _ (phase_AddRcpt_conforms b o))) as H2.
  destruct (b_Run (subs "AddRcpt") _ w1) as [[e|u'] w2]; simpl in H2;
    [exact (conforms_trans legal legal legal _ _ _ Hl Hl H1 H2)|].
  pose proof (conforms_trans legal legal legal _ _ _ Hl Hl H1 H2) as H12. clear H1 H2.
  pose proof (b_Run_conforms (subs "Body")
                (phase_Body target idempotentBody sender recipientTemplates) settled w2
                settled_legal
                (fun b o => conforms_run_weaken _ (phase_Body_conforms b o))) as H3.
  destruct (b_Run (subs "Body") _ w2) as [[e|u''] w3]; simpl in H3;
    [exact (conforms_trans legal legal legal _ _ _ Hl Hl H12 H3)|].
  pose proof (conforms_trans legal legal legal _ _ _ Hl Hl H12 H3) as H123. clear H12 H3.
  pose proof (b_Run_conforms (subs "BodyNonAtomic")
                (phase_BodyNonAtomic target idempotentBody sender recipientTemplates)
                settled w3 settled_legal
                (fun b o => conforms_run_weaken _ (phase_BodyNonAtomic_conforms b o))) as H4.
  destruct (b_Run (subs "BodyNonAtomic") _ w3) as [[e|u'''] w4]; simpl in H4;
    [exact (conforms_trans legal legal legal _ _ _ Hl Hl H123 H4)|].
  pose proof (conforms_trans legal legal legal _ _ _ Hl Hl H123 H4) as H1234.
  pose proof (b_Run_conforms (subs "Full transaction")
                (phase_Full target sender recipientTemplates) settled w4 settled_legal
                phase_Full_conforms) as H5.
  exact (conforms_trans legal legal legal _ _ _ Hl Hl H1234 H5).
Qed.

End ProtocolPhases.

(** Over a whole run, whatever the backend answers and however often and
    with whatever iteration counts the framework calls the function of each
    sub-benchmark, the calls made on any one delivery come in the order of
    the protocol: [Start] first, then [AddRcpt]s, then bodies, [Commit] only
    after an accepted [Body]; after a call that returned an error nothing but
    [Abort] is called on the delivery, and after [Commit] or [Abort] nothing
    at all. *)
Theorem driver_follows_protocol {S : Type} (target : DeliveryTarget S)
    (idempotentBody : bool) (sender : string) (recipientTemplates : list string)
    (subs : string → SubBench) (σ : S) (d : nat) :
  proto_run d NotStarted
    (trace (BenchDelivery target idempotentBody sender recipientTemplates subs
              (start_world σ)).2)
  ≠ Violation.
Proof.
  destruct (BenchDelivery_conforms target idempotentBody sender recipientTemplates subs
              (start_world σ)) as (evs & T & _ & _ & C).
  rewrite T. cbn [start_world trace app]. apply C.
Qed.

(** A sub-benchmark that returns normally has closed every delivery it
    started: the Start phase has aborted and the Full transaction phase has
    committed each of them. The AddRcpt, Body and BodyNonAtomic phases have
    closed their delivery however they end; of the Start and Full
    transaction phases that end early only the order of the protocol is
    shown. No sub-benchmark calls a delivery started before it. *)
Theorem deliveries_closed_on_return {S : Type} (target : DeliveryTarget S)
    (idempotentBody : bool) (sender : string) (recipientTemplates : list string)
    (b : TB) (order : list (string * string)) :
  conforms_run settled legal (phase_Start target sender b order)
  ∧ conforms_run settled legal (phase_Full target sender recipientTemplates b order)
  ∧ conforms_run settled settled (phase_AddRcpt target sender recipientTemplates b order)
  ∧ conforms_run settled settled
      (phase_Body target idempotentBody sender recipientTemplates b order)
  ∧ conforms_run settled settled
      (phase_BodyNonAtomic target idempotentBody sender recipientTemplates b order).
Proof.
  split; [apply phase_Start_conforms|]. split; [apply phase_Full_conforms|].
  split; [apply phase_AddRcpt_conforms|]. split; [apply phase_Body_conforms|].
  apply phase_BodyNonAtomic_conforms.
Qed.

(** ** One fabricated message per sub-benchmark *)

Section OneMessage.

Context {S : Type}.
Variable target : DeliveryTarget S.
Variable idempotentBody : bool.
Variable sender : string.
Variable recipientTemplates : list string.

Lemma submissions_carried msg evs :
  Forall (carries msg) evs → submissions evs = replicate (length (submissions evs)) msg.
Proof.
  induction 1 as [|e evs He _ IH]; [done|].
  change (e :: evs) with ([e] ++ evs). rewrite submissions_app, length_app, replicate_add, <- IH.
  f_equal. destruct e; simpl in *; try done; by rewrite He.
Qed.

Lemma emits_for_upto {St} (Q : Event → Prop) n i (body : Z → St → Bench S St) s :
  (∀ i s, emits (Forall Q) (body i s)) → emits (Forall Q) (for_upto n i body s).
Proof.
  intros Hb. revert i s. induction n as [|n IH]; intros i s.
  - apply (emits_pure (Forall Q) (inr s)). constructor.
  - cbn [for_upto]. eapply emits_bind; [apply Hb|intros s'; apply IH|done|].
    intros e1 e2 H1 H2. by apply Forall_app.
Qed.

Lemma quiet_carries_recipients msg d :
  quiet (carries msg) 0 (add_all_recipients target recipientTemplates d).
Proof.
  apply (quiet_mono (carries msg) _ (length recipientTemplates * 0)); [auto|lia|].
  unfold add_all_recipients. apply quiet_for_range.
  intros i x _. apply (quiet_bind _ 0 0); [by apply quiet_AddRcpt|].
  intros res. apply quiet_fatal_on.
Qed.

Lemma started_carries {A} msg meta (rest : Delivery → Bench S A) :
  (∀ d, emits (Forall (carries msg)) (rest d)) →
  emits (Forall (carries msg))
    (bind (target_Start target sender meta)
       (fun r => match r with inl err => b_Fatal err | inr d => rest d end)).
Proof.
  intros Hrest.
  apply (started_emits target sender meta (fun _ => Forall (carries msg))).
  - exact Hrest.
  - intros err. by repeat constructor.
  - intros n p evs H. by constructor.
Qed.

Lemma deferred_carries {A} msg d (rest : Bench S A) :
  emits (Forall (carries msg)) rest →
  emits (Forall (carries msg)) (defer (delivery_Abort target d) rest).
Proof.
  intros H. eapply emits_mono; [|apply emits_deferred_Abort, H].
  intros evs (evs' & -> & H'). apply Forall_app. split; [done|by repeat constructor].
Qed.

Lemma skip_carries msg c text (rest : Bench S unit) :
  emits (Forall (carries msg)) rest →
  emits (Forall (carries msg)) (bind (skip_unless c text) (fun _ => rest)).
Proof.
  intros H. apply (emits_bind (fun evs => evs = []) (Forall (carries msg))).
  - unfold skip_unless. destruct c; by apply emits_pure.
  - intros _. exact H.
  - intros ? ->. constructor.
  - by intros ? ? ->.
Qed.

Lemma phases_carry b order :
  let msg := ((RandomMsg (bName b) order).1.2, (RandomMsg (bName b) order).2) in
  emits (Forall (carries msg))
    (phase_Body target idempotentBody sender recipientTemplates b order)
  ∧ emits (Forall (carries msg))
      (phase_BodyNonAtomic target idempotentBody sender recipientTemplates b order)
  ∧ emits (Forall (carries msg)) (phase_Full target sender recipientTemplates b order).
Proof.
  cbv zeta. unfold phase_Body, phase_BodyNonAtomic, phase_Full.
  destruct (RandomMsg (bName b) order) as [[meta hdr] body]. cbn [fst snd].
  split; [|split].
  - apply skip_carries, started_carries. intros d. apply deferred_carries.
    apply (quiet_emits _ (0 + Z.to_nat (bN b) * 1)).
    apply quiet_bind; [apply quiet_carries_recipients|]. intros _.
    apply quiet_for_upto. intros i _.
    apply (quiet_bind _ 1 0); [by apply quiet_Body|]. intros res. apply quiet_fatal_on.
  - apply skip_carries, started_carries. intros d. apply deferred_carries.
    apply (quiet_emits _ (0 + (0 + (Z.to_nat (bN b) * 0 + 0)))).
    apply quiet_bind; [apply quiet_skip_unless|]. intros _.
    apply quiet_bind; [apply quiet_carries_recipients|]. intros _.
    apply quiet_bind; [|intros; apply quiet_pure].
    apply quiet_for_upto. intros i sc. by apply quiet_BodyNonAtomic.
  - apply emits_for_upto. intros i _. apply started_carries. intros d.
    apply (quiet_emits _ (0 + (1 + (0 + (0 + 0))))).
    apply quiet_bind; [apply quiet_carries_recipients|]. intros _.
    apply quiet_bind; [by apply quiet_Body|]. intros res.
    apply quiet_bind; [apply quiet_fatal_on|]. intros _.
    apply quiet_bind; [by apply quiet_Commit|]. intros res'. apply quiet_fatal_on.
Qed.

End OneMessage.

(** Each of the Body, BodyNonAtomic and Full transaction phases fabricates
    one message and submits that same header and body in every [Body] or
    [BodyNonAtomic] call it makes: its submissions are so many copies of the
    pair [RandomMsg] returned for the sub-benchmark. *)
Theorem one_message_per_phase {S : Type} (target : DeliveryTarget S) (idempotentBody : bool)
    (sender : string) (recipientTemplates : list string) (b : TB)
    (order : list (string * string)) (w : World S) :
  let msg := ((RandomMsg (bName b) order).1.2, (RandomMsg (bName b) order).2) in
  (∃ evs k,
     trace (phase_Body target idempotentBody sender recipientTemplates b order w).2
     = trace w ++ evs ∧ submissions evs = replicate k msg)
  ∧ (∃ evs k,
       trace (phase_BodyNonAtomic target idempotentBody sender recipientTemplates
                b order w).2 = trace w ++ evs ∧ submissions evs = replicate k msg)
  ∧ (∃ evs k,
       trace (phase_Full target sender recipientTemplates b order w).2 = trace w ++ evs
       ∧ submissions evs = replicate k msg).
Proof.
  cbv zeta.
  destruct (phases_carry target idempotentBody sender recipientTemplates b order)
    as (HB & HN & HF).
  destruct (HB w) as (e1 & T1 & C1). destruct (HN w) as (e2 & T2 & C2).
  destruct (HF w) as (e3 & T3 & C3).
  split; [|split]; eexists _, _; (split; [eassumption|]); by apply submissions_carried.
Qed.

(** ** The Start phase: all [Start]s, then all [Abort]s *)

Section Shapes.

Context {S : Type}.
Variable target : DeliveryTarget S.
Variable sender : string.
Variable recipientTemplates : list string.

Lemma start_checked meta (ds : list Delivery) w :
  (∃ err σ,
      bind (target_Start target sender meta)
        (fun r => match r with
                  | inl err => b_Fatal err
                  | inr delivery => ret (ds ++ [delivery])
                  end) w
      = (inl (Fatal err),
         {| backend := σ; trace := trace w ++ [EvStartFailed err]; nextId := nextId w |}))
  ∨ (∃ d σ,
      bind (target_Start target sender meta)
        (fun r => match r with
                  | inl err => b_Fatal err
                  | inr delivery => ret (ds ++ [delivery])
                  end) w
      = (inr (ds ++ [d]),
         {| backend := σ; trace := trace w ++ [start_event d];
            nextId := Datatypes.S (nextId w) |})).
Proof.
  unfold bind, target_Start.
  destruct (Start target meta sender (backend w)) as [[err|p] σ]; [left|right].
  - by exists err, σ.
  - by exists {| d_id := nextId w; d_partial := p |}, σ.
Qed.

Lemma start_loop meta n i (ds0 : list Delivery) w :
  ∃ evs,
    trace (for_upto n i (fun _ deliveries =>
             bind (target_Start target sender meta)
               (fun r => match r with
                         | inl err => b_Fatal err
                         | inr delivery => ret (deliveries ++ [delivery])
                         end)) ds0 w).2 = trace w ++ evs
    ∧ Forall (fun e => kind e = KStart) evs
    ∧ match (for_upto n i (fun _ deliveries =>
               bind (target_Start target sender meta)
                 (fun r => match r with
                           | inl err => b_Fatal err
                           | inr delivery => ret (deliveries ++ [delivery])
                           end)) ds0 w).1 with
      | inr ds => ∃ new, ds = ds0 ++ new ∧ length new = n ∧ evs = start_event <$> new
      | inl _ => True
      end.
Proof.
  revert i ds0 w. induction n as [|n IH]; intros i ds0 w.
  - exists []. simpl. rewrite app_nil_r. split; [done|]. split; [constructor|].
    exists []. by rewrite app_nil_r.
  - rewrite for_upto_S.
    destruct (start_checked meta ds0 w) as [(err & σ & ->)|(d & σ & ->)].
    + eexists [_]. split; [reflexivity|]. split; [by repeat constructor|exact I].
    + match goal with |- context [for_upto n _ _ ?ds1 ?w1] =>
        destruct (IH (i + 1)%Z ds1 w1) as (evs & T & HK & Hr) end.
      exists (start_event d :: evs). rewrite T. cbn [trace]. rewrite <- app_assoc.
      split; [reflexivity|]. split; [by constructor|].
      destruct (for_upto n _ _ _ _).1 as [e|ds]; [exact I|].
      destruct Hr as (new & -> & Hlen & ->).
      exists (d :: new). rewrite <- app_assoc. simpl. by rewrite Hlen.
Qed.

Lemma count_kind_app k evs1 evs2 :
  count_kind k (evs1 ++ evs2) = count_kind k evs1 + count_kind k evs2.
Proof. apply count_app. Qed.

Lemma count_kind_same k evs :
  Forall (fun e => kind e = k) evs → ∀ k', count_kind k' evs = if decide (k' = k) then length evs else 0.
Proof.
  intros H k'. induction H as [|e evs He _ IH]; [by destruct (decide _)|].
  unfold count_kind in *. cbn [count length]. rewrite IH, He.
  destruct (decide (k' = k)) as [->|Hne].
  - by rewrite bool_decide_eq_true_2.
  - rewrite bool_decide_eq_false_2; [done|congruence].
Qed.

Lemma runs_ext {A} (P : Exit + A → list Event → Prop) (m m' : Bench S A) :
  (∀ w, m w = m' w) → runs P m → runs P m'.
Proof. intros Heq H w. rewrite <- Heq. apply H. Qed.

Lemma checked_Commit d w :
  ∃ res σ,
    bind (delivery_Commit target d) (fun err => fatal_on err) w
    = (match res with Some err => inl (Fatal err) | None => inr tt end,
       {| backend := σ; trace := trace w ++ [EvCommit (d_id d) res];
          nextId := nextId w |}).
Proof.
  unfold bind, delivery_Commit.
  destruct (Commit target (d_id d) (backend w)) as [res σ].
  exists res, σ. by destruct res.
Qed.

(** One iteration of the Full transaction phase that goes through. *)
Lemma full_iteration meta hdr body :
  runs (fun r evs => match r with
                     | inr _ => ∀ k, count_kind k evs
                                     = full_calls (length recipientTemplates) k
                     | inl _ => True
                     end)
    (bind (target_Start target sender meta)
       (fun r => match r with
                 | inl err => b_Fatal err
                 | inr delivery =>
                     bind (add_all_recipients target recipientTemplates delivery) (fun _ =>
                     bind (delivery_Body target delivery hdr body) (fun err =>
                     bind (fatal_on err) (fun _ =>
                     bind (delivery_Commit target delivery) (fun err => fatal_on err))))
                 end)).
Proof.
  apply (runs_started target sender meta
    (fun _ r evs => match r with
                    | inr _ => ∀ k, count_kind k evs
                                    = if decide (k = KStart) then 0
                                      else full_calls (length recipientTemplates) k
                    | inl _ => True
                    end)).
  - intros d.
    eapply runs_bind; [apply (runs_add_recipients target d recipientTemplates 0)| | |].
    + intros _.
      apply (runs_ext _
        (bind (bind (delivery_Body target d hdr body) (fun err => fatal_on err)) (fun _ =>
         bind (delivery_Commit target d) (fun err => fatal_on err)))).
      { intros w. symmetry. apply bind_assoc. }
      apply (runs_bind
        (fun r evs => match r with inr _ => Forall (fun e => kind e = KBody) evs
                                            ∧ length evs = 1 | inl _ => True end)
        (fun r evs => match r with inr _ => Forall (fun e => kind e = KCommit) evs
                                            ∧ length evs = 1 | inl _ => True end)
        (fun r evs => match r with
                      | inr _ => ∀ k, count_kind k evs
                                      = if decide (k = KBody) then 1
                                        else if decide (k = KCommit) then 1 else 0
                      | inl _ => True
                      end)).
      * intros w. destruct (checked_Body target d hdr body w) as (res & σ & ->).
        eexists [_]. split; [reflexivity|]. destruct res; [exact I|].
        split; [by repeat constructor|reflexivity].
      * intros _ w. destruct (checked_Commit d w) as (res & σ & ->).
        eexists [_]. split; [reflexivity|]. destruct res; [exact I|].
        split; [by repeat constructor|reflexivity].
      * done.
      * intros _ evs1 [e|u] evs2 [HB LB] H2; [exact I|]. destruct H2 as [HC LC].
        intros k. rewrite count_kind_app, (count_kind_same _ _ HB), (count_kind_same _ _ HC).
        rewrite LB, LC. by destruct k.
    + done.
    + intros _ evs1 [e|u] evs2 (HK & k0 & Hk0 & Hr & ->) H2; [exact I|].
      intros k. rewrite count_kind_app, (count_kind_same _ _ HK), H2.
      assert (Hlen : length evs1 = length recipientTemplates).
      { assert (L : ∀ l, Forall (fun e => kind e = KAddRcpt) l → length (rcpts_of l) = length l).
        { induction 1 as [|e l He _ IHl]; [done|].
          change (e :: l) with ([e] ++ l). rewrite rcpts_of_app, !length_app, IHl.
          by destruct e. }
        rewrite <- (L _ HK), Hr, firstn_all2.
        - unfold range_recipients. apply length_imap.
        - unfold range_recipients. by rewrite length_imap. }
      rewrite Hlen. by destruct k.
  - done.
  - intros d [e|u] evs H; [exact I|]. intros k.
    change (EvStart (d_id d) (d_partial d) :: evs)
      with ([EvStart (d_id d) (d_partial d)] ++ evs).
    rewrite count_kind_app, H. by destruct k.
Qed.

Lemma runs_for_upto_counts (c : Kind → nat) n i (body : Z → unit → Bench S unit) :
  (∀ i s, runs (fun r evs => match r with
                            | inr _ => ∀ k, count_kind k evs = c k
                            | inl _ => True
                            end) (body i s)) →
  runs (fun r evs => match r with
                     | inr _ => ∀ k, count_kind k evs = n * c k
                     | inl _ => True
                     end) (for_upto n i body tt).
Proof.
  intros Hb. revert i. induction n as [|n IH]; intros i.
  - intros w. exists []. simpl. rewrite app_nil_r. split; [done|]. intros k. reflexivity.
  - cbn [for_upto]. eapply runs_bind; [apply Hb|intros []; apply IH|done|].
    intros _ evs1 [e|u] evs2 H1 H2; [exact I|]. intros k.
    rewrite count_kind_app, H1, H2. lia.
Qed.

End Shapes.

(** The Start phase makes all its [Start] calls first and its [Abort] calls
    after them, outside the timed loop. When it returns normally it has
    started exactly [b.N] deliveries and then aborted each of them once, in
    the order it started them; when it ends early it has aborted none. *)
Theorem Start_phase_shape {S : Type} (target : DeliveryTarget S) (sender : string)
    (b : TB) (order : list (string * string)) (w : World S) :
  ∃ starts aborts,
    trace (phase_Start target sender b order w).2 = trace w ++ starts ++ aborts
    ∧ Forall (fun e => kind e = KStart) starts
    ∧ Forall (fun e => kind e = KAbort) aborts
    ∧ match (phase_Start target sender b order w).1 with
      | inr _ => ∃ ds, length ds = Z.to_nat (bN b)
                       ∧ starts = start_event <$> ds ∧ aborts = abort_event <$> ds
      | inl _ => aborts = []
      end.
Proof.
  unfold phase_Start. destruct (RandomMsg (bName b) order) as [[meta hdr] body].
  rewrite bind_unfold.
  destruct (start_loop target sender meta (Z.to_nat (bN b)) 0 [] w) as (evs & T & HK & Hr).
  destruct (for_upto _ _ _ _ _) as [[e|ds] w1]; cbn [fst snd] in *.
  - exists evs, []. rewrite app_nil_r. repeat split; [done|done|constructor].
  - destruct Hr as (new & Hds & Hlen & ->). simpl in Hds. subst new.
    destruct (abort_all target ds 0 w1) as (σ & ->). cbn [fst snd trace].
    exists (start_event <$> ds), (abort_event <$> ds). rewrite T, app_assoc.
    split; [done|]. split; [done|]. split; [by apply Forall_fmap, Forall_forall|].
    exists ds. done.
Qed.

(** A Full transaction phase that returns normally has made, for [b.N]
    iterations and [len] templates, exactly [b.N] calls each of [Start],
    [Body] and [Commit], [b.N * len] calls of [AddRcpt], and no other call. *)
Theorem Full_phase_counts {S : Type} (target : DeliveryTarget S) (sender : string)
    (recipientTemplates : list string) (b : TB) (order : list (string * string))
    (w : World S) :
  ∃ evs,
    trace (phase_Full target sender recipientTemplates b order w).2 = trace w ++ evs
    ∧ match (phase_Full target sender recipientTemplates b order w).1 with
      | inr _ => ∀ k, count_kind k evs
                      = Z.to_nat (bN b) * full_calls (length recipientTemplates) k
      | inl _ => True
      end.
Proof.
  unfold phase_Full. destruct (RandomMsg (bName b) order) as [[meta hdr] body].
  apply (runs_for_upto_counts (full_calls (length recipientTemplates))).
  intros i s. apply full_iteration.
Qed.

(** ** The AddRcpt phase, call by call *)

Section AddRcptShape.

Context {S : Type}.
Variable target : DeliveryTarget S.
Variable recipientTemplates : list string.

Lemma addrcpt_loop d n i w :
  ∃ k rs,
    k ≤ n
    ∧ inr <$> rs = addrcpt_recipient recipientTemplates <$> seqZ i (Z.of_nat k)
    ∧ match (for_upto n i (fun i _ =>
               bind (lift (addrcpt_recipient recipientTemplates i)) (fun rcpt =>
               bind (delivery_AddRcpt target d rcpt) (fun err => fatal_on err))) tt w).1 with
      | inr _ =>
          k = n
          ∧ trace (for_upto n i (fun i _ =>
               bind (lift (addrcpt_recipient recipientTemplates i)) (fun rcpt =>
               bind (delivery_AddRcpt target d rcpt) (fun err => fatal_on err))) tt w).2
            = trace w ++ accepted_adds (d_id d) rs
      | inl (Fatal err) =>
          k < n
          ∧ ∃ rcpt, addrcpt_recipient recipientTemplates (i + Z.of_nat k) = inr rcpt
            ∧ trace (for_upto n i (fun i _ =>
                 bind (lift (addrcpt_recipient recipientTemplates i)) (fun rcpt =>
                 bind (delivery_AddRcpt target d rcpt) (fun err => fatal_on err))) tt w).2
              = trace w ++ accepted_adds (d_id d) rs ++ [EvAddRcpt (d_id d) rcpt (Some err)]
      | inl (Panic msg) =>
          k < n
          ∧ addrcpt_recipient recipientTemplates (i + Z.of_nat k) = inl (Panic msg)
          ∧ trace (for_upto n i (fun i _ =>
               bind (lift (addrcpt_recipient recipientTemplates i)) (fun rcpt =>
               bind (delivery_AddRcpt target d rcpt) (fun err => fatal_on err))) tt w).2
            = trace w ++ accepted_adds (d_id d) rs
      | inl (Skipped _) => False
      end.
Proof.
  revert i w. induction n as [|n IH]; intros i w.
  - exists 0, []. simpl. rewrite app_nil_r. done.
  - rewrite for_upto_S.
    pose proof (addrcpt_iteration target recipientTemplates d i w) as Hit.
    destruct (addrcpt_recipient recipientTemplates i) as [e|rcpt] eqn:Er.
    + rewrite Hit. cbn [fst snd]. exists 0, []. rewrite Z.add_0_r, Er.
      unfold addrcpt_recipient in Er.
      destruct (template_at recipientTemplates i) as [e'|t] eqn:Et; [|done].
      injection Er as <-. unfold template_at in Et.
      destruct (go_rem _ _); [destruct (go_index _ _); [done|] |];
        injection Et as <-; simpl; rewrite app_nil_r; (split; [lia|]); (split; [done|]);
        (split; [lia|]); done.
    + destruct Hit as (res & σ & ->). destruct res as [err|]; cbn [fst snd trace].
      * exists 0, []. rewrite Z.add_0_r. split; [lia|]. split; [done|].
        split; [lia|]. exists rcpt. done.
      * match goal with |- context [for_upto n _ _ tt ?w1] =>
          destruct (IH (i + 1)%Z w1) as (k & rs & Hk & Hrs & Hr) end.
        exists (Datatypes.S k), (rcpt :: rs). split; [lia|].
        split.
        { rewrite Nat2Z.inj_succ, seqZ_cons by lia. rewrite !fmap_cons, Er. f_equal.
          rewrite Hrs. by replace (Z.pred (Z.succ (Z.of_nat k))) with (Z.of_nat k) by lia. }
        replace (i + Z.of_nat (Datatypes.S k))%Z with (i + 1 + Z.of_nat k)%Z by lia.
        destruct (for_upto n _ _ tt _) as [[[err|msg|msg]|[]] w2]; cbn [fst snd trace] in *.
        -- destruct Hr as (Hlt & r' & Hr' & ->). split; [lia|]. exists r'. split; [done|].
           by rewrite <- !app_assoc.
        -- done.
        -- destruct Hr as (Hlt & Hr' & ->). split; [lia|]. split; [done|].
           by rewrite <- !app_assoc.
        -- destruct Hr as (-> & ->). split; [done|]. by rewrite <- !app_assoc.
Qed.

End AddRcptShape.

(** The AddRcpt phase, whatever the backend answers. When [Start] fails it
    ends in [b.Fatal] after that one call. Otherwise it works on the one
    delivery [Start] gave it: it adds the recipients of iterations [0], [1],
    ... in that order, stops at the first one the backend rejects, and the
    deferred [Abort] is the last call however the loop ends. On a normal
    return all [b.N] recipients were added and accepted; it ends in
    [b.Fatal] with the error of the rejected recipient; it panics only on an
    empty template list, before any recipient is added; it never skips. *)
Theorem AddRcpt_phase_shape {S : Type} (target : DeliveryTarget S) (sender : string)
    (recipientTemplates : list string) (b : TB) (order : list (string * string))
    (w : World S) :
  (∃ err, (phase_AddRcpt target sender recipientTemplates b order w).1 = inl (Fatal err)
          ∧ trace (phase_AddRcpt target sender recipientTemplates b order w).2
            = trace w ++ [EvStartFailed err])
  ∨ (∃ partial k rs,
       k ≤ Z.to_nat (bN b)
       ∧ inr <$> rs = addrcpt_recipient recipientTemplates <$> seqZ 0 (Z.of_nat k)
       ∧ match (phase_AddRcpt target sender recipientTemplates b order w).1 with
         | inr _ =>
             k = Z.to_nat (bN b)
             ∧ trace (phase_AddRcpt target sender recipientTemplates b order w).2
               = trace w ++ EvStart (nextId w) partial
                            :: accepted_adds (nextId w) rs ++ [EvAbort (nextId w)]
         | inl (Fatal err) =>
             k < Z.to_nat (bN b)
             ∧ ∃ rcpt, addrcpt_recipient recipientTemplates (Z.of_nat k) = inr rcpt
               ∧ trace (phase_AddRcpt target sender recipientTemplates b order w).2
                 = trace w ++ EvStart (nextId w) partial
                              :: accepted_adds (nextId w) rs
                              ++ [EvAddRcpt (nextId w) rcpt (Some err); EvAbort (nextId w)]
         | inl (Panic _) =>
             recipientTemplates = [] ∧ k = 0
             ∧ trace (phase_AddRcpt target sender recipientTemplates b order w).2
               = trace w ++ [EvStart (nextId w) partial; EvAbort (nextId w)]
         | inl (Skipped _) => False
         end).
Proof.
  unfold phase_AddRcpt. destruct (RandomMsg (bName b) order) as [[meta hdr] body].
  rewrite bind_unfold. unfold target_Start.
  destruct (Start target meta sender (backend w)) as [[err|p] σ].
  - left. exists err. done.
  - right. exists p. unfold defer.
    match goal with |- context [for_upto _ _ _ tt ?w1] =>
      destruct (addrcpt_loop target recipientTemplates
                  {| d_id := nextId w; d_partial := p |} (Z.to_nat (bN b)) 0 w1)
        as (k & rs & Hk & Hrs & Hr) end.
    exists k, rs. split; [done|]. split; [done|].
    destruct (for_upto _ _ _ tt _) as [[[err|msg|msg]|[]] w2]; cbn [fst snd trace d_id] in *;
      unfold delivery_Abort; cbn [d_id];
      destruct (Abort target (nextId w) (backend w2)) as [res σ2]; cbn [fst snd trace].
    + destruct Hr as (Hlt & rcpt & Hrcpt & ->). split; [done|]. exists rcpt.
      rewrite Z.add_0_l in Hrcpt. split; [done|].
      rewrite <- !app_assoc. reflexivity.
    + done.
    + destruct Hr as (Hlt & Hpanic & ->). rewrite Z.add_0_l in Hpanic.
      assert (Hnil : recipientTemplates = []).
      { destruct recipientTemplates as [|t l] eqn:El; [done|]. exfalso.
        destruct (template_at_nonempty (t :: l) (Z.of_nat k)) as (t' & _ & Ht);
          [done|lia|].
        unfold addrcpt_recipient in Hpanic. by rewrite Ht in Hpanic. }
      assert (Hk0 : k = 0).
      { subst recipientTemplates. destruct k as [|k]; [done|]. exfalso.
        rewrite Nat2Z.inj_succ, seqZ_cons in Hrs by lia.
        destruct rs; discriminate Hrs. }
      subst k. destruct rs; [|discriminate Hrs].
      split; [done|]. split; [done|]. rewrite <- !app_assoc. reflexivity.
    + destruct Hr as (-> & ->). split; [done|]. rewrite <- !app_assoc. reflexivity.
Qed.

(** ** Skipped phases *)

Lemma submissions_count evs :
  length (submissions evs) = count_kind KBody evs + count_kind KBodyNonAtomic evs.
Proof.
  induction evs as [|e evs IH]; [done|].
  change (e :: evs) with ([e] ++ evs).
  rewrite submissions_app, length_app, !count_kind_app, IH. destruct e; simpl; lia.
Qed.

(** C5, as stated, fails: the timed loop of the Full transaction phase
    submits the same header/body pair once per iteration, twice for
    [b.N = 2], and the phase does not look at [idempotentBody]: it runs, and
    returns normally, where the Body phase on the same backend, with
    [idempotentBody] unset, is skipped. *)
Lemma full_transaction_not_gated :
  let b := (sub_of 2 "Full transaction").1 in
  let order := (sub_of 2 "Full transaction").2 in
  let r := phase_Full accepting_target "a@example.org" example_templates b order
             (start_world []) in
  let msg := RandomMsg (bName b) order in
  r.1 = inr tt
  ∧ submissions (trace r.2) = [(msg.1.2, msg.2); (msg.1.2, msg.2)]
  ∧ ¬ NoDup (submissions (trace r.2))
  ∧ (phase_Body accepting_target false "a@example.org" example_templates b order
       (start_world [])).1
    = inl (Skipped "Non-idempotent Body implementation").
Proof.
  cbv zeta.
  assert (H : submissions
    (trace (phase_Full accepting_target "a@example.org" example_templates
              (sub_of 2 "Full transaction").1 (sub_of 2 "Full transaction").2
              (start_world [])).2)
    = [((RandomMsg (bName (sub_of 2 "Full transaction").1)
           (sub_of 2 "Full transaction").2).1.2,
        (RandomMsg (bName (sub_of 2 "Full transaction").1)
           (sub_of 2 "Full transaction").2).2);
       ((RandomMsg (bName (sub_of 2 "Full transaction").1)
           (sub_of 2 "Full transaction").2).1.2,
        (RandomMsg (bName (sub_of 2 "Full transaction").1)
           (sub_of 2 "Full transaction").2).2)]).
  { apply (bool_decide_unpack _). vm_compute. reflexivity. }
  split; [vm_compute; reflexivity|].
  split; [exact H|].
  split; [|reflexivity].
  rewrite H. intros Hnd. apply NoDup_cons_1_1 in Hnd. apply Hnd. by left.
Qed.

(** C5, amended: with [idempotentBody] unset the Body and BodyNonAtomic
    phases, whose timed loops submit the pair repeatedly to one delivery, are
    skipped before any call is made; with it set, the BodyNonAtomic phase is
    skipped, its delivery started and aborted and nothing submitted, when the
    delivery does not implement [PartialDelivery]. The Full transaction
    phase is not gated: whatever [idempotentBody] is, it submits the one
    fabricated pair again and again, [b.N] times when it returns normally,
    never twice to the same delivery. *)
Theorem phases_skipped {S : Type} (target : DeliveryTarget S) (sender : string)
    (recipientTemplates : list string) (b : TB) (order : list (string * string))
    (w : World S) :
  phase_Body target false sender recipientTemplates b order w
  = (inl (Skipped "Non-idempotent Body implementation"), w)
  ∧ phase_BodyNonAtomic target false sender recipientTemplates b order w
    = (inl (Skipped "Non-idempotent Body implementation"), w)
  ∧ (∀ σ,
       Start target (RandomMsg (bName b) order).1.1 sender (backend w) = (inr false, σ) →
       ∃ w', phase_BodyNonAtomic target true sender recipientTemplates b order w
             = (inl (Skipped "Delivery does not implement PartialDelivery"), w')
             ∧ trace w' = trace w ++ [EvStart (nextId w) false; EvAbort (nextId w)]
             ∧ submissions (trace w') = submissions (trace w))
  ∧ (∃ evs k,
       trace (phase_Full target sender recipientTemplates b order w).2 = trace w ++ evs
       ∧ submissions evs
         = replicate k ((RandomMsg (bName b) order).1.2, (RandomMsg (bName b) order).2)
       ∧ (∀ d, count (is_body d) evs ≤ 1)
       ∧ match (phase_Full target sender recipientTemplates b order w).1 with
         | inr _ => k = Z.to_nat (bN b)
         | inl _ => True
         end).
Proof.
  split; [reflexivity|]. split; [reflexivity|]. split.
  - intros σ HStart. unfold phase_BodyNonAtomic.
    destruct (RandomMsg (bName b) order) as [[meta hdr] body]. cbn [fst] in HStart.
    unfold bind at 1. cbn [skip_unless negb ret].
    unfold bind at 1. unfold target_Start. rewrite HStart.
    unfold defer, bind at 1. cbn [d_partial skip_unless negb b_Skip].
    unfold delivery_Abort. cbn [d_id backend].
    destruct (Abort target (nextId w) σ) as [res σ']. cbn [trace].
    eexists. split; [reflexivity|]. cbn [trace]. rewrite <- app_assoc.
    split; [reflexivity|].
    unfold submissions. rewrite bind_app. simpl. by rewrite app_nil_r.
  - destruct (phases_carry target true sender recipientTemplates b order) as (_ & _ & HF).
    destruct (HF w) as (evs & T & C).
    exists evs, (length (submissions evs)). split; [exact T|].
    split; [by apply submissions_carried|].
    split.
    { destruct (phase_Full_extends target sender recipientTemplates b order w)
        as (evs' & T' & _ & _ & HB).
      rewrite T in T'. apply app_inv_head in T'. by subst evs'. }
    assert (HC : runs (fun r evs => match r with
                                    | inr _ => ∀ k, count_kind k evs
                                        = Z.to_nat (bN b)
                                          * full_calls (length recipientTemplates) k
                                    | inl _ => True
                                    end)
                   (phase_Full target sender recipientTemplates b order)).
    { unfold phase_Full. destruct (RandomMsg (bName b) order) as [[meta hdr] body].
      apply (runs_for_upto_counts (full_calls (length recipientTemplates))).
      intros i s. apply full_iteration. }
    destruct (HC w) as (evs' & T' & HC').
    rewrite T in T'. apply app_inv_head in T'. subst evs'.
    destruct (phase_Full target sender recipientTemplates b order w).1 as [e|u].
    + exact I.
    + rewrite submissions_count, !HC'. simpl. lia.
Qed.

Lemma phases_skipped_witness :
  Start rejecting_target
    (RandomMsg (bName (sub_of 2 "BodyNonAtomic").1) (sub_of 2 "BodyNonAtomic").2).1.1
    "a@example.org" (backend (start_world tt)) = (inr false, tt)
  ∧ (phase_BodyNonAtomic rejecting_target true "a@example.org" example_templates
       (sub_of 2 "BodyNonAtomic").1 (sub_of 2 "BodyNonAtomic").2 (start_world tt)).1
    = inl (Skipped "Delivery does not implement PartialDelivery").
Proof.
  assert (H : Start rejecting_target
    (RandomMsg (bName (sub_of 2 "BodyNonAtomic").1) (sub_of 2 "BodyNonAtomic").2).1.1
    "a@example.org" (backend (start_world tt)) = (inr false, tt)) by reflexivity.
  split; [exact H|].
  destruct (proj1 (proj2 (proj2 (phases_skipped rejecting_target "a@example.org"
              example_templates (sub_of 2 "BodyNonAtomic").1 (sub_of 2 "BodyNonAtomic").2
              (start_world tt)))) tt H) as (w' & Hrun & _).
  rewrite Hrun. reflexivity.
Defined.
